(** * concaveHullJS: a shallow embedding of [src/concaveHull.js]

    JavaScript numbers are IEEE-754 binary64 values, so coordinates are
    modelled by Rocq's primitive floats: [+], [-], [*], [/], [<] and [===]
    of the source are the primitive operations of [PrimFloat].  Points are
    two-element arrays [[x, y]], modelled as pairs.  Arrays of points are
    lists; [undefined] (an out-of-range read, or a function that falls off
    its end) is [None], and a [TypeError] raised by reading a property of
    [undefined] is an explicit outcome.  Where a property is about exact
    geometry, the exact value of a number is read off its IEEE-754
    representation ([scaled], [integer_of]) and computed with in [Z].

    [Math.atan2] and [Array.prototype.sort] belong to the host, not to the
    repository.  They are section variables: the general theorems hold for
    any host function, the sort being only assumed to return a permutation
    of its input (the two comparators of the source never return [0], so
    the order of ties is left to the engine).  Concrete runs use the
    reference host of module [Engine].

    The algorithm is embedded twice: on lists, where the hull is reasoned
    about, and on a store of mutable arrays, where [push] and [splice]
    update an array in place and the caller's array can be told apart from
    the arrays [calculate] creates.  The two are proved to agree.

    The properties come in two parts: first what is proved of [calculate]
    and of the functions it is built from, then, under the heading of
    further properties, more on each function of the source taken by
    itself (deduplication, the first point, the working set, the
    geometric tests, distances) and on how [calculate] ends. *)

From Stdlib Require Import List ZArith Bool Lia Permutation.
From Stdlib Require Import PrimFloat SpecFloat FloatOps FloatAxioms.
Import ListNotations.

Local Open Scope float_scope.

(** ** Numbers *)

Module JS.

(** [a > b] of the source. *)
Definition gt (a b : float) : bool := b <? a.

(** [a === b] on numbers: false on NaN, true on [0] and [-0]. *)
Definition strict_eq (a b : float) : bool := a =? b.

(** [a !== b] on booleans. *)
Definition bool_neq (a b : bool) : bool := xorb a b.

(** [Math.PI]. *)
Definition Math_PI : float := 0x1.921fb54442d18p+1.

(** [Math.max(a, b)]: NaN if either is NaN, and [+0] above [-0]. *)
Definition Math_max2 (a b : float) : float :=
  if is_nan a || is_nan b then nan
  else if a <? b then b
  else if b <? a then a
  else match classify a with FloatClass.NZero => b | _ => a end.

(** [Math.max(...a)]; the empty maximum is [-Infinity]. *)
Definition Math_max (a : list float) : float :=
  fold_left Math_max2 a neg_infinity.

(** [Math.pow(x, 2)]. *)
Definition Math_pow2 (x : float) : float := x * x.

(** [Math.sqrt]. *)
Definition Math_sqrt (x : float) : float := sqrt x.

(** [arr[i]] for an integer index: [undefined] out of range. *)
Definition index {A} (arr : list A) (i : Z) : option A :=
  if (i <? 0)%Z then None else nth_error arr (Z.to_nat i).

(** [arr.length]. *)
Definition length {A} (arr : list A) : Z := Z.of_nat (List.length arr).

(** [arr.indexOf(v)] on numbers: strict equality, [-1] when absent. *)
Fixpoint indexOf_from (arr : list float) (v : float) (i : Z) : Z :=
  match arr with
  | [] => (-1)%Z
  | a :: rest => if strict_eq a v then i else indexOf_from rest v (i + 1)%Z
  end.

Definition indexOf (arr : list float) (v : float) : Z := indexOf_from arr v 0%Z.

(** The text [JSON.stringify] produces for a number, up to the only thing
    the source uses it for: equality of the texts.  NaN and the infinities
    print as [null]; [0] and [-0] both print as [0]; every other number
    prints as the shortest decimal that reads back as itself, so two
    such texts are equal exactly when the numbers are. *)
Definition stringify_number (x : float) : option float :=
  if is_nan x || is_infinity x then None
  else if is_zero x then Some zero
  else Some x.

End JS.

(** ** Points *)

Definition point : Type := float * float.

(** [JSON.stringify(arr[i])] for a point [[x, y]]. *)
Definition stringify (p : point) : option float * option float :=
  (JS.stringify_number (fst p), JS.stringify_number (snd p)).

Definition key_eqb (a b : option float * option float) : bool :=
  let eqo (x y : option float) :=
    match x, y with
    | None, None => true
    | Some u, Some v => Leibniz.eqb u v
    | _, _ => false
    end in
  eqo (fst a) (fst b) && eqo (snd a) (snd b).

(** [pointEquals(a, b)] *)
Definition pointEquals (a b : point) : bool :=
  if JS.strict_eq (fst a) (fst b) && JS.strict_eq (snd a) (snd b) then true
  else false.

(** [distance(p1, p2)] *)
Definition distance (p1 p2 : point) : float :=
  JS.Math_sqrt (JS.Math_pow2 (fst p2 - fst p1) + JS.Math_pow2 (snd p2 - snd p1)).

(** ** Segment intersection *)

(** [denom] of [getLineLineCollision]: the cross product of the two
    direction vectors. *)
Definition denom_of (p0 p1 p2 p3 : point) : float :=
  let s10_x := fst p1 - fst p0 in
  let s10_y := snd p1 - snd p0 in
  let s32_x := fst p3 - fst p2 in
  let s32_y := snd p3 - snd p2 in
  s10_x * s32_y - s32_x * s10_y.

(** [getLineLineCollision(p0, p1, p2, p3)]: [None] is the source's [false],
    [Some p] the intersection point it returns otherwise. *)
Definition getLineLineCollision (p0 p1 p2 p3 : point) : option point :=
  let s10_x := fst p1 - fst p0 in
  let s10_y := snd p1 - snd p0 in
  let s32_x := fst p3 - fst p2 in
  let s32_y := snd p3 - snd p2 in
  let denom := s10_x * s32_y - s32_x * s10_y in
  if JS.strict_eq denom 0 then None
  else
    let denom_positive := JS.gt denom 0 in
    let s02_x := fst p0 - fst p2 in
    let s02_y := snd p0 - snd p2 in
    let s_numer := s10_x * s02_y - s10_y * s02_x in
    if Bool.eqb (s_numer <? 0) denom_positive then None
    else
      let t_numer := s32_x * s02_y - s32_y * s02_x in
      if Bool.eqb (t_numer <? 0) denom_positive then None
      else if Bool.eqb (JS.gt s_numer denom) denom_positive
              || Bool.eqb (JS.gt t_numer denom) denom_positive then None
      else
        let t := t_numer / denom in
        Some (fst p0 + (t * s10_x), snd p0 + (t * s10_y)).

(** A line segment [[start, end]]. *)
Definition segment : Type := point * point.

(** [IntersectsQ(lineA, lineB)] *)
Definition IntersectsQ (lineA lineB : segment) : bool :=
  match getLineLineCollision (fst lineA) (snd lineA) (fst lineB) (snd lineB) with
  | Some _ => true
  | None => false
  end.

(** [s10] and [s32] of [getLineLineCollision]: the direction vector of a
    segment, as the code computes it. *)
Definition direction (s : segment) : float * float :=
  (fst (snd s) - fst (fst s), snd (snd s) - snd (fst s)).

(** A finite number is [(-1)^s * m * 2^e] with [e >= -1074]: times
    [2^1074] it is an integer.  With it the cross product of two computed
    direction vectors can be stated as it is without rounding, in [Z]. *)
Definition SFscaled (x : spec_float) : option Z :=
  match x with
  | S754_zero _ => Some 0%Z
  | S754_finite s m e =>
      Some (if s then - (Zpos m * 2 ^ (e + 1074)) else Zpos m * 2 ^ (e + 1074))%Z
  | _ => None
  end.

Definition scaled (x : float) : option Z := SFscaled (Prim2SF x).

(** Two direction vectors with finite components are parallel: their cross
    product is zero in exact arithmetic. *)
Definition exactly_parallel (u v : float * float) : bool :=
  match scaled (fst u), scaled (snd u), scaled (fst v), scaled (snd v) with
  | Some ux, Some uy, Some vx, Some vy => (ux * vy =? vx * uy)%Z
  | _, _, _, _ => false
  end.

(** The integer a number stands for, when it is one: a finite number is
    [(-1)^s * m * 2^e].  With it a cross product can be stated as it is
    without rounding, in [Z]. *)
Definition SFinteger (x : spec_float) : option Z :=
  match x with
  | S754_zero _ => Some 0%Z
  | S754_finite s m e =>
      let sign (n : Z) := if s then (- n)%Z else n in
      if (0 <=? e)%Z then Some (sign (Zpos m * 2 ^ e)%Z)
      else if (Zpos m mod 2 ^ (- e) =? 0)%Z then Some (sign (Zpos m / 2 ^ (- e))%Z)
      else None
  | _ => None
  end.

Definition integer_of (x : float) : option Z := SFinteger (Prim2SF x).

Definition integer_point (p : point) : option (Z * Z) :=
  match integer_of (fst p), integer_of (snd p) with
  | Some x, Some y => Some (x, y)
  | _, _ => None
  end.

(** The cross product of the direction vectors of [p0 p1] and [p2 p3] in
    exact arithmetic, for points with integer coordinates. *)
Definition exact_cross (p0 p1 p2 p3 : point) : option Z :=
  match integer_point p0, integer_point p1, integer_point p2, integer_point p3 with
  | Some (x0, y0), Some (x1, y1), Some (x2, y2), Some (x3, y3) =>
      Some ((x1 - x0) * (y3 - y2) - (x3 - x2) * (y1 - y0))%Z
  | _, _, _, _ => None
  end.

(** Integer coordinates of magnitude [2^25] at most: differences of such
    coordinates have 27 bits at most, and products of the differences 53. *)
Definition small_point (p : point) : bool :=
  match integer_point p with
  | Some (x, y) => (Z.abs x <=? 2 ^ 25)%Z && (Z.abs y <=? 2 ^ 25)%Z
  | None => false
  end.

(** ** Point in polygon *)

(** The body of the [for] loop of [pointInPolygonNested]: [vi] is
    [vs[i+start]], [vj] is [vs[j+start]]. *)
Definition pip_step (x y : float) (vi vj : point) (inside : bool) : bool :=
  let xi := fst vi in let yi := snd vi in
  let xj := fst vj in let yj := snd vj in
  let intersect :=
    JS.bool_neq (JS.gt yi y) (JS.gt yj y)
    && (x <? (xj - xi) * (y - yi) / (yj - yi) + xi) in
  if intersect then negb inside else inside.

(** The loop [for (i = 0, j = len - 1; i < len; j = i++)]: after the first
    round [j] is the index before [i]. *)
Fixpoint pip_loop (x y : float) (vj : point) (rest : list point) (inside : bool) : bool :=
  match rest with
  | [] => inside
  | vi :: rest' => pip_loop x y vi rest' (pip_step x y vi vj inside)
  end.

(** [pointInPolygonNested(point, vs)] with [start] and [end] left undefined. *)
Definition pointInPolygonNested (pt : point) (vs : list point) : bool :=
  match vs with
  | [] => false
  | v0 :: _ => pip_loop (fst pt) (snd pt) (last vs v0) vs false
  end.

(** [PointInPolygonQ(point, points)] *)
Definition PointInPolygonQ (pt : point) (points : list point) : bool :=
  pointInPolygonNested pt points.

(** The loop of [pointInPolygonNested] when [start] and [end] are given:
    [n] rounds remain, and each reads [vs[i+start]] and [vs[j+start]].
    Reading a coordinate of [undefined] raises a [TypeError]: [None]. *)
Fixpoint pip_range_loop (x y : float) (vs : list point) (start : Z) (n : nat)
  (i j : Z) (inside : bool) : option bool :=
  match n with
  | O => Some inside
  | S n' =>
      match JS.index vs (i + start), JS.index vs (j + start) with
      | Some vi, Some vj =>
          pip_range_loop x y vs start n' (i + 1) i (pip_step x y vi vj inside)
      | _, _ => None
      end
  end.

(** [pointInPolygonNested(point, vs, start, end)] with integers, or
    [undefined], for [start] and [end]. *)
Definition pointInPolygonNested_range (pt : point) (vs : list point)
  (start end_ : option Z) : option bool :=
  let start := match start with None => 0%Z | Some s => s end in
  let end_ := match end_ with None => JS.length vs | Some e => e end in
  let len := (end_ - start)%Z in
  pip_range_loop (fst pt) (snd pt) vs start (Z.to_nat len) 0 (len - 1) false.

(** ** Working set operations *)

(** The loop of [multiDimensionalUnique]: [uniques] is the array being built,
    [itemsFound] the keys of the object used as a set of texts. *)
Fixpoint multiDimensionalUnique_loop
  (arr uniques : list point) (itemsFound : list (option float * option float))
  : list point :=
  match arr with
  | [] => uniques
  | a :: rest =>
      let stringified := stringify a in
      if existsb (key_eqb stringified) itemsFound
      then multiDimensionalUnique_loop rest uniques itemsFound
      else multiDimensionalUnique_loop rest (uniques ++ [a]) (stringified :: itemsFound)
  end.

(** [multiDimensionalUnique(arr)] *)
Definition multiDimensionalUnique (arr : list point) : list point :=
  multiDimensionalUnique_loop arr [] [].

(** [CleanList(points)] *)
Definition CleanList (points : list point) : list point :=
  multiDimensionalUnique points.

(** [arrayColumn(arr, 1)] *)
Definition arrayColumn1 (arr : list point) : list float := map snd arr.

(** [arrayMax(a)] *)
Definition arrayMax (a : list float) : float := JS.Math_max a.

(** [FindMinYPoint(points)]: the index of the first point whose Y is the
    maximum, [-1] when [indexOf] finds none (a NaN coordinate). *)
Definition FindMinYPoint (points : list point) : Z :=
  let y_coordinates := arrayColumn1 points in
  JS.indexOf y_coordinates (arrayMax y_coordinates).

(** [RemovePoint(points, point)]: the first value-match is spliced out;
    without a match the function falls off its end and yields [undefined]. *)
Fixpoint RemovePoint (points : list point) (pt : point) : option (list point) :=
  match points with
  | [] => None
  | p :: rest =>
      if pointEquals p pt then Some rest
      else option_map (cons p) (RemovePoint rest pt)
  end.

(** [AddPoint(points, point)] *)
Definition AddPoint (points : list point) (pt : point) : list point :=
  points ++ [pt].

(** The objects pushed on [candidates] by [NearestPoints] and [SortByAngle]. *)
Record distance_candidate : Type :=
  { dc_id : Z; dc_point : point; dc_distance : float }.

Record angle_candidate : Type :=
  { ac_id : Z; ac_point : point; ac_angle : float }.

(** The [for (p = 0; p < points.length; p++) candidates.push(...)] loops. *)
Fixpoint collect {A} (mk : Z -> point -> A) (points : list point) (p : Z) : list A :=
  match points with
  | [] => []
  | x :: rest => mk p x :: collect mk rest (p + 1)%Z
  end.

(** ** The outcome of a call *)

(** [calculate] returns [null], returns an array, or dies on a [TypeError]
    when it reads a property of [undefined]. *)
Inductive outcome : Type :=
| Null
| Hull (hull : list point)
| TypeError.

(** One activation of [calculate] either returns, or ends in the tail call
    [return calculate(pointsList, k)]. *)
Inductive attempt : Type :=
| Return (r : outcome)
| Escalate (k : Z)
| Unfinished.

(** What the candidate scan of one round of the main loop ends with. *)
Inductive selection : Type :=
| Selected (c : point)
| AllIntersect
| SelectionError.

(** What the main [while] loop ends with. *)
Inductive loop_result : Type :=
| Finished (hull dataset : list point)
| Retry
| Crash.

(** The variables of the main loop. *)
Record state : Type :=
  { hull : list point;
    dataset : list point;
    currentPoint : point;
    previousAngle : float;
    step : Z }.

(** The values [j] takes in the inner loop
    [for j = 2; j < hull.length - lastPoint; j++]. *)
Definition j_range (hull : list point) (lastPoint : Z) : list Z :=
  map Z.of_nat (seq 2 (Z.to_nat (JS.length hull - lastPoint - 2))).

(** The inner [while (intersects === false && j < ...)] loop for candidate
    [c]: [Some b] is the final value of [intersects], [None] a [TypeError]. *)
Fixpoint scan_edges (hull : list point) (step : Z) (c : point) (js : list Z)
  : option bool :=
  match js with
  | [] => Some false
  | j :: js' =>
      match JS.index hull (step - 2), JS.index hull (step - 2 - j),
            JS.index hull (step - 1 - j) with
      | Some a, Some b, Some d =>
          if IntersectsQ (a, c) (b, d) then Some true
          else scan_edges hull step c js'
      | _, _, _ => None
      end
  end.

(** The [while (intersects === true && i < cPoints.length)] loop. *)
Fixpoint select_candidate (hull : list point) (step : Z) (firstPoint : point)
  (cPoints : list point) : selection :=
  match cPoints with
  | [] => AllIntersect
  | c :: rest =>
      let lastPoint := if pointEquals c firstPoint then 1%Z else 0%Z in
      match scan_edges hull step c (j_range hull lastPoint) with
      | None => SelectionError
      | Some false => Selected c
      | Some true => select_candidate hull step firstPoint rest
      end
  end.

(** The final containment scan, from [i = dataset.length - 1] down to [0]. *)
Fixpoint all_inside_from (hull : list point) (ps : list point) : bool :=
  match ps with
  | [] => true
  | p :: rest => if PointInPolygonQ p hull then all_inside_from hull rest else false
  end.

Definition all_inside (dataset hull : list point) : bool :=
  all_inside_from hull (rev dataset).

(** ** The Moreira and Santos algorithm *)

Section Algorithm.

(** [Math.atan2(y, x)] of the host. *)
Variable atan2 : float -> float -> float.

(** [Array.prototype.sort(comparefn)] of the host, on an array of objects. *)
Variable sort : forall A : Type, (A -> A -> float) -> list A -> list A.

(** [Angle(pointA, pointB)] *)
Definition Angle (pointA pointB : point) : float :=
  let angle := atan2 (snd pointB - snd pointA) (fst pointB - fst pointA) in
  let angle := JS.Math_PI - angle in
  if angle <? 0 then angle + (2 * JS.Math_PI) else angle.

(** [NearestPoints(points, point, k)] *)
Definition NearestPoints (points : list point) (pt : point) (k : Z) : list point :=
  let candidates :=
    collect (fun p x => {| dc_id := p; dc_point := x; dc_distance := distance x pt |})
            points 0%Z in
  let candidates :=
    sort _ (fun a b => if JS.gt (dc_distance a) (dc_distance b) then 1 else -1)
         candidates in
  let k := Z.min k (JS.length candidates) in
  map dc_point (firstn (Z.to_nat k) candidates).

(** [SortByAngle(points, point, prev_angle)]; the [degrees] text stored on
    each candidate is never read and is left out. *)
Definition SortByAngle (points : list point) (pt : point) (prev_angle : float)
  : list point :=
  let candidates :=
    collect (fun p x =>
               let angle := prev_angle - Angle x pt in
               {| ac_id := p; ac_point := x;
                  ac_angle := if angle <? 0 then angle + (2 * JS.Math_PI) else angle |})
            points 0%Z in
  let candidates :=
    sort _ (fun a b => if JS.gt (ac_angle a) (ac_angle b) then -1 else 1)
         candidates in
  map ac_point candidates.

(** The test of the main [while] loop. *)
Definition loop_test (firstPoint : point) (s : state) : bool :=
  (negb (pointEquals (currentPoint s) firstPoint) || (step s =? 2)%Z)
  && (0 <? JS.length (dataset s))%Z.

(** One round of the main [while] loop: the next state, or the way the
    round leaves [calculate]. *)
Definition loop_round (firstPoint : point) (kk stop : Z) (s : state)
  : state + loop_result :=
  let dataset1 :=
    if (step s =? stop)%Z then AddPoint (dataset s) firstPoint else dataset s in
  let kNearestPoints := NearestPoints dataset1 (currentPoint s) kk in
  let cPoints := SortByAngle kNearestPoints (currentPoint s) (previousAngle s) in
  match select_candidate (hull s) (step s) firstPoint cPoints with
  | AllIntersect => inr Retry
  | SelectionError => inr Crash
  | Selected c =>
      let hull1 := AddPoint (hull s) c in
      match JS.index hull1 (step s - 2), JS.index hull1 (step s - 1) with
      | Some a, Some b =>
          match RemovePoint dataset1 c with
          | None => inr Crash
          | Some dataset2 =>
              inl {| hull := hull1; dataset := dataset2; currentPoint := c;
                     previousAngle := Angle a b; step := (step s + 1)%Z |}
          end
      | _, _ => inr Crash
      end
  end.

(** The main [while] loop of [calculate].  Every round that does not leave
    the function moves one point from [dataset] to [hull], so the loop is
    unrolled [fuel] times; [main_loop_fuel] below is always enough. *)
Fixpoint main_loop (fuel : nat) (firstPoint : point) (kk stop : Z) (s : state)
  : option loop_result :=
  match fuel with
  | O => None
  | S fuel' =>
      if loop_test firstPoint s then
        match loop_round firstPoint kk stop s with
        | inl s' => main_loop fuel' firstPoint kk stop s'
        | inr r => Some r
        end
      else Some (Finished (hull s) (dataset s))
  end.

(** Rounds the main loop can take from a working set of [n] points: one per
    point, one more for the first point put back, one for the exit test. *)
Definition main_loop_fuel (n : nat) : nat := S (S n).

(** The part of [calculate] that builds the hull, from the choice of the
    first point to the end: [dataset0] is the cleaned list, of four points
    or more, and [kk] the number of neighbours after both clamps. *)
Definition build_hull (dataset0 : list point) (kk : Z) : attempt :=
  let firstPointId := FindMinYPoint dataset0 in
  match JS.index dataset0 firstPointId with
  | None => Return TypeError
  | Some firstPoint =>
      match RemovePoint dataset0 firstPoint with
      | None => Return TypeError
      | Some dataset1 =>
          let step0 := 2%Z in
          let stop := (step0 + kk)%Z in
          match main_loop (main_loop_fuel (List.length dataset1)) firstPoint kk stop
                  {| hull := [firstPoint]; dataset := dataset1;
                     currentPoint := firstPoint;
                     previousAngle := JS.Math_PI; step := step0 |} with
          | None => Unfinished
          | Some Retry => Escalate (kk + 1)
          | Some Crash => Return TypeError
          | Some (Finished hull1 dataset2) =>
              if all_inside dataset2 hull1 then Return (Hull hull1)
              else Escalate (kk + 1)
          end
      end
  end.

(** One activation of [calculate(pointsList, k)], up to its [return]. *)
Definition attempt_of (pointsList : list point) (k : Z) : attempt :=
  let kk := Z.max k 3 in
  if (kk >=? JS.length pointsList)%Z then Return Null
  else
    let dataset0 := CleanList pointsList in
    if (JS.length dataset0 <? 3)%Z then Return Null
    else if (JS.length dataset0 =? 3)%Z then Return (Hull dataset0)
    else
      let kk := Z.min kk (JS.length dataset0 - 1) in
      build_hull dataset0 kk.

(** [calculate(pointsList, k)]: the tail calls are followed [fuel] times;
    [None] means the recursion is still going on after that many
    activations. *)
Fixpoint calculate (fuel : nat) (pointsList : list point) (k : Z) : option outcome :=
  match fuel with
  | O => None
  | S fuel' =>
      match attempt_of pointsList k with
      | Return r => Some r
      | Escalate k' => calculate fuel' pointsList k'
      | Unfinished => None
      end
  end.

End Algorithm.

(** ** Arrays as mutable objects

    [calculate] receives its input by reference and works on arrays it
    updates in place ([push], [splice]).  To state what happens to the
    caller's array, arrays of points live in a store and are named by their
    address; points themselves are never written to by the source and stay
    values.  A computation threads the store and may get stuck on an address
    that names no array. *)

Definition loc : Type := nat.

Definition store : Type := list (list point).

Definition M (A : Type) : Type := store -> option (A * store).

Definition ret {A} (a : A) : M A := fun st => Some (a, st).

Definition bind {A B} (m : M A) (f : A -> M B) : M B :=
  fun st => match m st with
            | Some (a, st') => f a st'
            | None => None
            end.

Notation "x <- m ;; f" := (bind m (fun x => f))
  (at level 61, m at next level, right associativity).

(** The elements of the array at [l]. *)
Definition read (l : loc) : M (list point) :=
  fun st => match nth_error st l with
            | Some a => Some (a, st)
            | None => None
            end.

Fixpoint replace_nth (st : store) (l : loc) (a : list point) : store :=
  match st, l with
  | [], _ => []
  | _ :: rest, O => a :: rest
  | x :: rest, S l' => x :: replace_nth rest l' a
  end.

(** The array at [l] becomes [a]. *)
Definition write (l : loc) (a : list point) : M unit :=
  fun st => match nth_error st l with
            | Some _ => Some (tt, replace_nth st l a)
            | None => None
            end.

(** A new array, [[]] or an array literal. *)
Definition alloc (a : list point) : M loc :=
  fun st => Some (List.length st, st ++ [a]).

(** [arr.push(p)] *)
Definition push (arr : loc) (p : point) : M unit :=
  a <- read arr ;; write arr (a ++ [p]).

(** [arr.splice(i, 1)] *)
Definition splice1 (arr : loc) (i : nat) : M unit :=
  a <- read arr ;; write arr (firstn i a ++ skipn (S i) a).

(** What [calculate] hands back when arrays are named by address. *)
Inductive outcome_ref : Type :=
| NullRef
| HullRef (hull : loc)
| TypeErrorRef.

(** The variables of the main loop, the two arrays by address. *)
Record state_ref : Type :=
  { hull_ref : loc;
    dataset_ref : loc;
    currentPoint_ref : point;
    previousAngle_ref : float;
    step_ref : Z }.

(** The loop of [multiDimensionalUnique], reading [arr[i]] and pushing on
    [uniques]; [n] rounds remain. *)
Fixpoint multiDimensionalUnique_loop_ref (n : nat) (arr uniques : loc) (i : nat)
  (itemsFound : list (option float * option float)) : M unit :=
  match n with
  | O => ret tt
  | S n' =>
      a <- read arr ;;
      match nth_error a i with
      | None => ret tt
      | Some p =>
          let stringified := stringify p in
          if existsb (key_eqb stringified) itemsFound
          then multiDimensionalUnique_loop_ref n' arr uniques (S i) itemsFound
          else
            _ <- push uniques p ;;
            multiDimensionalUnique_loop_ref n' arr uniques (S i) (stringified :: itemsFound)
      end
  end.

(** [multiDimensionalUnique(arr)] and [CleanList(points)] *)
Definition multiDimensionalUnique_ref (arr : loc) : M loc :=
  uniques <- alloc [] ;;
  a <- read arr ;;
  _ <- multiDimensionalUnique_loop_ref (List.length a) arr uniques 0 [] ;;
  ret uniques.

Definition CleanList_ref (points : loc) : M loc := multiDimensionalUnique_ref points.

(** The [for] loop of [RemovePoint]: [Some points] when a match was spliced
    out, [None] when the function falls off its end. *)
Fixpoint RemovePoint_loop_ref (n : nat) (points : loc) (pt : point) (i : nat)
  : M (option loc) :=
  match n with
  | O => ret None
  | S n' =>
      a <- read points ;;
      match nth_error a i with
      | None => ret None
      | Some p =>
          if pointEquals p pt
          then _ <- splice1 points i ;; ret (Some points)
          else RemovePoint_loop_ref n' points pt (S i)
      end
  end.

Definition RemovePoint_ref (points : loc) (pt : point) : M (option loc) :=
  a <- read points ;; RemovePoint_loop_ref (List.length a) points pt 0.

(** [AddPoint(points, point)]: the array is updated and handed back. *)
Definition AddPoint_ref (points : loc) (pt : point) : M loc :=
  _ <- push points pt ;; ret points.

Inductive loop_result_ref : Type :=
| FinishedRef (hull dataset : loc)
| RetryRef
| CrashRef.

Inductive attempt_ref : Type :=
| ReturnRef (r : outcome_ref)
| EscalateRef (k : Z)
| UnfinishedRef.

Section AlgorithmRef.

Variable atan2 : float -> float -> float.
Variable sort : forall A : Type, (A -> A -> float) -> list A -> list A.

(** [NearestPoints] builds and returns a new array [nearest_points]. *)
Definition NearestPoints_ref (points : loc) (pt : point) (k : Z) : M loc :=
  a <- read points ;; alloc (NearestPoints sort a pt k).

(** [SortByAngle] builds and returns a new array [sorted_points]. *)
Definition SortByAngle_ref (points : loc) (pt : point) (prev_angle : float) : M loc :=
  a <- read points ;; alloc (SortByAngle atan2 sort a pt prev_angle).

Definition loop_test_ref (firstPoint : point) (s : state_ref) : M bool :=
  d <- read (dataset_ref s) ;;
  ret ((negb (pointEquals (currentPoint_ref s) firstPoint) || (step_ref s =? 2)%Z)
       && (0 <? JS.length d)%Z).

Definition loop_round_ref (firstPoint : point) (kk stop : Z) (s : state_ref)
  : M (state_ref + loop_result_ref) :=
  dataset1 <- (if (step_ref s =? stop)%Z
               then AddPoint_ref (dataset_ref s) firstPoint
               else ret (dataset_ref s)) ;;
  kNearestPoints <- NearestPoints_ref dataset1 (currentPoint_ref s) kk ;;
  cPoints <- SortByAngle_ref kNearestPoints (currentPoint_ref s) (previousAngle_ref s) ;;
  h <- read (hull_ref s) ;;
  cs <- read cPoints ;;
  match select_candidate h (step_ref s) firstPoint cs with
  | AllIntersect => ret (inr RetryRef)
  | SelectionError => ret (inr CrashRef)
  | Selected c =>
      hull1 <- AddPoint_ref (hull_ref s) c ;;
      h1 <- read hull1 ;;
      match JS.index h1 (step_ref s - 2), JS.index h1 (step_ref s - 1) with
      | Some a, Some b =>
          r <- RemovePoint_ref dataset1 c ;;
          match r with
          | None => ret (inr CrashRef)
          | Some dataset2 =>
              ret (inl {| hull_ref := hull1; dataset_ref := dataset2;
                          currentPoint_ref := c; previousAngle_ref := Angle atan2 a b;
                          step_ref := (step_ref s + 1)%Z |})
          end
      | _, _ => ret (inr CrashRef)
      end
  end.

Fixpoint main_loop_ref (fuel : nat) (firstPoint : point) (kk stop : Z) (s : state_ref)
  : M (option loop_result_ref) :=
  match fuel with
  | O => ret None
  | S fuel' =>
      continue <- loop_test_ref firstPoint s ;;
      if continue : bool then
        r <- loop_round_ref firstPoint kk stop s ;;
        match r with
        | inl s' => main_loop_ref fuel' firstPoint kk stop s'
        | inr res => ret (Some res)
        end
      else ret (Some (FinishedRef (hull_ref s) (dataset_ref s)))
  end.

(** One activation of [calculate(pointsList, k)] on the store. *)
Definition attempt_of_ref (pointsList : loc) (k : Z) : M attempt_ref :=
  let kk := Z.max k 3 in
  pl <- read pointsList ;;
  if (kk >=? JS.length pl)%Z then ret (ReturnRef NullRef)
  else
    dataset <- CleanList_ref pointsList ;;
    d0 <- read dataset ;;
    if (JS.length d0 <? 3)%Z then ret (ReturnRef NullRef)
    else if (JS.length d0 =? 3)%Z then ret (ReturnRef (HullRef dataset))
    else
      let kk := Z.min kk (JS.length d0 - 1) in
      let firstPointId := FindMinYPoint d0 in
      match JS.index d0 firstPointId with
      | None => ret (ReturnRef TypeErrorRef)
      | Some firstPoint =>
          hull <- alloc [] ;;
          _ <- push hull firstPoint ;;
          r <- RemovePoint_ref dataset firstPoint ;;
          match r with
          | None => ret (ReturnRef TypeErrorRef)
          | Some dataset1 =>
              d1 <- read dataset1 ;;
              let step0 := 2%Z in
              let stop := (step0 + kk)%Z in
              res <- main_loop_ref (main_loop_fuel (List.length d1)) firstPoint kk stop
                       {| hull_ref := hull; dataset_ref := dataset1;
                          currentPoint_ref := firstPoint;
                          previousAngle_ref := JS.Math_PI; step_ref := step0 |} ;;
              match res with
              | None => ret UnfinishedRef
              | Some RetryRef => ret (EscalateRef (kk + 1))
              | Some CrashRef => ret (ReturnRef TypeErrorRef)
              | Some (FinishedRef hull1 dataset2) =>
                  h <- read hull1 ;;
                  d <- read dataset2 ;;
                  if all_inside d h then ret (ReturnRef (HullRef hull1))
                  else ret (EscalateRef (kk + 1))
              end
          end
      end.

(** [calculate(pointsList, k)] on the store; [None] inside the result means
    the recursion is still going on after [fuel] activations. *)
Fixpoint calculate_ref (fuel : nat) (pointsList : loc) (k : Z) : M (option outcome_ref) :=
  match fuel with
  | O => ret None
  | S fuel' =>
      a <- attempt_of_ref pointsList k ;;
      match a with
      | ReturnRef r => ret (Some r)
      | EscalateRef k' => calculate_ref fuel' pointsList k'
      | UnfinishedRef => ret None
      end
  end.

End AlgorithmRef.

(** ** A reference host

    To run the algorithm on concrete inputs the two host functions need a
    definition.  [Engine.sort] is the insertion sort engines use on short
    arrays: each element is inserted before the first element [y] of the
    sorted prefix with [comparefn(x, y) < 0].  [Engine.atan2] follows the
    case analysis of ECMAScript's [Math.atan2] on signs and zeros, with the
    arc tangent computed by two half-angle reductions and its power
    series.  It stands in for the host's function and is not a model of
    it: its results can differ from an engine's in the last bits, and for
    two infinite arguments it is NaN where ECMAScript has an odd multiple
    of [pi / 4].  Only the runs on the sample inputs use it; the general
    theorems hold for any host function. *)

Module Engine.

Fixpoint insert {A} (cmp : A -> A -> float) (x : A) (sorted : list A) : list A :=
  match sorted with
  | [] => [x]
  | y :: rest => if cmp x y <? 0 then x :: y :: rest else y :: insert cmp x rest
  end.

Definition sort (A : Type) (cmp : A -> A -> float) (arr : list A) : list A :=
  fold_left (fun sorted x => insert cmp x sorted) arr [].

(** The other insertion sort: each element moves left past every element
    [y] of the sorted prefix with [comparefn(y, x) > 0].  [rsorted] is the
    sorted prefix, last element first.  On ties the two sorts differ: with
    a comparator that answers [-1] on ties [sort] reverses them and
    [sort_right] keeps them, with one that answers [1] it is the other way
    round. *)
Fixpoint insert_right {A} (cmp : A -> A -> float) (x : A) (rsorted : list A) : list A :=
  match rsorted with
  | [] => [x]
  | y :: rest => if 0 <? cmp y x then y :: insert_right cmp x rest else x :: y :: rest
  end.

Definition sort_right (A : Type) (cmp : A -> A -> float) (arr : list A) : list A :=
  rev (fold_left (fun rsorted x => insert_right cmp x rsorted) arr []).

(** [x - x^3/3 + x^5/5 - ...] up to [x^25], by Horner's rule. *)
Definition atan_series (x : float) : float :=
  let x2 := x * x in
  let h := fold_right (fun c acc => c - x2 * acc) 0
             [1; 1/3; 1/5; 1/7; 1/9; 1/11; 1/13; 1/15; 1/17; 1/19; 1/21; 1/23; 1/25] in
  x * h.

Definition half_angle (x : float) : float := x / (1 + sqrt (1 + x * x)).

(** The arc tangent of a number in [[0, 1]]. *)
Definition atan_unit (x : float) : float :=
  4 * atan_series (half_angle (half_angle x)).

(** The arc tangent of a number [>= 0]. *)
Definition atan_pos (x : float) : float :=
  if 1 <? x then JS.Math_PI / 2 - atan_unit (1 / x) else atan_unit x.

Definition atan (x : float) : float :=
  if x <? 0 then - atan_pos (- x) else atan_pos x.

Definition is_negative (y : float) : bool :=
  (y <? 0) || match classify y with FloatClass.NZero => true | _ => false end.

Definition atan2 (y x : float) : float :=
  if is_nan y || is_nan x then nan
  else if 0 <? x then atan (y / x)
  else if x <? 0 then
    if is_negative y then atan (y / x) - JS.Math_PI else atan (y / x) + JS.Math_PI
  else if 0 <? y then JS.Math_PI / 2
  else if y <? 0 then - (JS.Math_PI / 2)
  else match classify x, classify y with
       | FloatClass.NZero, FloatClass.NZero => - JS.Math_PI
       | FloatClass.NZero, _ => JS.Math_PI
       | _, _ => y
       end.

(** [calculate] on the reference host. *)
Definition calculate := calculate atan2 sort.
Definition attempt_of := attempt_of atan2 sort.

End Engine.

(** ** Sample inputs *)

Module Sample.

(** Three distinct points. *)
Definition triangle : list point := [(0, 0); (1, 0); (0, 1)].

(** The same three points with the first one listed twice. *)
Definition triangle_dup : list point := [(0, 0); (1, 0); (0, 1); (0, 0)].

(** The corners of a square. *)
Definition square : list point := [(0, 0); (0, 10); (10, 10); (10, 0)].

(** The corners of a square listed with one repeat. *)
Definition square_dup : list point := [(0, 0); (0, 10); (10, 10); (10, 0); (0, 0)].


(** The square with its centre. *)
Definition square_centre : list point := [(0, 0); (0, 10); (10, 10); (10, 0); (5, 5)].

(** A far point and three points near the origin.  Seen from the far
    point the three others are at the same distance and in the same
    direction: subtracting [1e17] absorbs their coordinates. *)
Definition far : list point := [(1e17, 1e17); (0, 0); (0, 1); (1, 0)].

(** The same four points with the last one listed twice. *)
Definition far_dup : list point := [(1e17, 1e17); (0, 0); (0, 1); (1, 0); (1, 0)].


(** Four points on the Y axis and two on the X axis. *)
Definition ell : list point := [(0, 0); (0, 1); (0, 2); (0, 3); (1, 0); (2, 0)].

(** Two overlapping segments of the X axis. *)
Definition overlapA : segment := ((0, 0), (2, 0)).
Definition overlapB : segment := ((1, 0), (3, 0)).

(** Two overlapping segments of the line [y = 3 x]; the far end of the
    second is [(2^53, 3 * 2^53)]. *)
Definition collinearA : segment := ((-6, -18), (-4, -12)).
Definition collinearB : segment := ((-5, -15), (0x1p+53, 0x1.8p+54)).

(** A third segment of the same line, with small coordinates. *)
Definition collinearC : segment := ((-5, -15), (7, 21)).

(** Two parallel segments whose coordinates are not integers. *)
Definition slantA : segment := ((0, 0), (0.5, 1.5)).
Definition slantB : segment := ((0.25, 0.125), (1.25, 3.125)).

(** Two distinct points, listed five times in all. *)
Definition two_repeated : list point := [(0, 0); (0, 0); (1, 1); (1, 1); (0, 0)].

(** The square with a fifth point whose Y is NaN. *)
Definition square_nan : list point := [(0, 0); (0, 10); (10, 10); (10, 0); (5, nan)].

End Sample.

(** * Properties *)

(** ** Numbers and keys *)

Lemma finite_compare_eq s1 m1 e1 s2 m2 e2 :
  SFeqb (S754_finite s1 m1 e1) (S754_finite s2 m2 e2) = true ->
  S754_finite s1 m1 e1 = S754_finite s2 m2 e2.
Proof.
  unfold SFeqb, SFcompare.
  destruct s1, s2; try discriminate;
    destruct (Z.compare e1 e2) eqn:He; try discriminate;
    destruct (Pos.compare_cont Eq m1 m2) eqn:Hm; try discriminate; intros _;
    apply Z.compare_eq in He; apply Pos.compare_eq in Hm; subst; reflexivity.
Qed.

(** Two numbers that are [===] have the same JSON text. *)
Lemma strict_eq_stringify f g :
  JS.strict_eq f g = true -> JS.stringify_number f = JS.stringify_number g.
Proof.
  unfold JS.strict_eq, JS.stringify_number, is_nan, is_infinity, is_zero.
  rewrite !FloatAxioms.eqb_spec, !abs_spec.
  change (Prim2SF zero) with (S754_zero false).
  change (Prim2SF infinity) with (S754_infinity false).
  intros H.
  destruct (Prim2SF f) as [sf| sf| |sf mf ef] eqn:Ef,
           (Prim2SF g) as [sg| sg| |sg mg eg] eqn:Eg;
    try (destruct sf); try (destruct sg); try discriminate H; try reflexivity.
  all: apply finite_compare_eq in H; inversion H; subst;
    assert (f = g) by (apply Prim2SF_inj; congruence); subst; reflexivity.
Qed.

Lemma pointEquals_true a b :
  pointEquals a b = true <->
  JS.strict_eq (fst a) (fst b) = true /\ JS.strict_eq (snd a) (snd b) = true.
Proof.
  unfold pointEquals.
  destruct (JS.strict_eq (fst a) (fst b)), (JS.strict_eq (snd a) (snd b));
    simpl; intuition discriminate.
Qed.

(** Value-equal points have the same key in [itemsFound]. *)
Lemma pointEquals_stringify a b :
  pointEquals a b = true -> stringify a = stringify b.
Proof.
  intros H. apply pointEquals_true in H. destruct H as [H1 H2].
  unfold stringify. f_equal; apply strict_eq_stringify; assumption.
Qed.

Lemma key_eqb_eq a b : key_eqb a b = true <-> a = b.
Proof.
  destruct a as [a1 a2], b as [b1 b2]. unfold key_eqb. simpl.
  rewrite andb_true_iff.
  assert (E : forall x y : option float,
             match x, y with
             | None, None => true
             | Some u, Some v => Leibniz.eqb u v
             | _, _ => false
             end = true <-> x = y).
  { intros [u|] [v|]; try (split; [discriminate | congruence]).
    - rewrite Leibniz.eqb_spec. split; congruence.
    - split; reflexivity. }
  rewrite !E. split; [intros [-> ->]; reflexivity | intros H; inversion H; auto].
Qed.

(** ** Deduplication *)

(** The JSON texts of the points of an array. *)
Definition keys (l : list point) : list (option float * option float) :=
  map stringify l.

Lemma found_iff k seen : existsb (key_eqb k) seen = true <-> In k seen.
Proof.
  rewrite existsb_exists. split.
  - intros [x [Hx E]]. apply key_eqb_eq in E. subst. assumption.
  - intros H. exists k. split; [assumption | apply key_eqb_eq; reflexivity].
Qed.

Lemma unique_loop_app arr : forall uniques seen,
  multiDimensionalUnique_loop arr uniques seen
  = uniques ++ multiDimensionalUnique_loop arr [] seen.
Proof.
  induction arr as [|a rest IH]; intros uniques seen; simpl.
  - rewrite app_nil_r. reflexivity.
  - destruct (existsb (key_eqb (stringify a)) seen).
    + apply IH.
    + rewrite IH. rewrite (IH [a]). rewrite <- app_assoc. reflexivity.
Qed.

Lemma unique_loop_cons a rest seen :
  multiDimensionalUnique_loop (a :: rest) [] seen
  = if existsb (key_eqb (stringify a)) seen
    then multiDimensionalUnique_loop rest [] seen
    else a :: multiDimensionalUnique_loop rest [] (stringify a :: seen).
Proof.
  simpl. destruct (existsb (key_eqb (stringify a)) seen); [reflexivity|].
  rewrite unique_loop_app. reflexivity.
Qed.

Lemma unique_loop_In arr : forall seen p,
  In p (multiDimensionalUnique_loop arr [] seen) ->
  In p arr /\ ~ In (stringify p) seen.
Proof.
  induction arr as [|a rest IH]; intros seen p.
  - simpl. tauto.
  - rewrite unique_loop_cons.
    destruct (existsb (key_eqb (stringify a)) seen) eqn:E.
    + intros H. apply IH in H. simpl. tauto.
    + intros [<- | H].
      * split; [left; reflexivity|]. rewrite <- found_iff, E. discriminate.
      * apply IH in H. simpl in *. tauto.
Qed.

Lemma unique_loop_NoDup arr : forall seen,
  NoDup (keys (multiDimensionalUnique_loop arr [] seen)).
Proof.
  induction arr as [|a rest IH]; intros seen.
  - constructor.
  - rewrite unique_loop_cons.
    destruct (existsb (key_eqb (stringify a)) seen); [apply IH|].
    simpl. constructor; [|apply IH].
    unfold keys. rewrite in_map_iff. intros [q [Eq Hq]].
    apply unique_loop_In in Hq. destruct Hq as [_ Hq]. apply Hq.
    rewrite Eq. left. reflexivity.
Qed.

Lemma unique_loop_fixed arr : forall seen,
  NoDup (keys arr) -> (forall p, In p arr -> ~ In (stringify p) seen) ->
  multiDimensionalUnique_loop arr [] seen = arr.
Proof.
  induction arr as [|a rest IH]; intros seen Hnd Hseen; [reflexivity|].
  rewrite unique_loop_cons. simpl in Hnd. inversion Hnd as [|k ks Hk Hks]; subst.
  destruct (existsb (key_eqb (stringify a)) seen) eqn:E.
  - apply found_iff in E. exfalso. apply (Hseen a); [left; reflexivity | assumption].
  - f_equal. apply IH; [assumption|].
    intros p Hp [Ek | Hin].
    + apply Hk. rewrite Ek. apply in_map. assumption.
    + apply (Hseen p); [right; assumption | assumption].
Qed.

Lemma unique_loop_length arr : forall seen,
  (List.length (multiDimensionalUnique_loop arr [] seen) <= List.length arr)%nat.
Proof.
  induction arr as [|a rest IH]; intros seen; [simpl; lia|].
  rewrite unique_loop_cons.
  destruct (existsb (key_eqb (stringify a)) seen); simpl.
  - specialize (IH seen). lia.
  - specialize (IH (stringify a :: seen)). lia.
Qed.

Lemma unique_loop_same_length arr : forall seen,
  List.length (multiDimensionalUnique_loop arr [] seen) = List.length arr ->
  multiDimensionalUnique_loop arr [] seen = arr.
Proof.
  induction arr as [|a rest IH]; intros seen; [reflexivity|].
  rewrite unique_loop_cons.
  destruct (existsb (key_eqb (stringify a)) seen); simpl.
  - pose proof (unique_loop_length rest seen). lia.
  - intros H. f_equal. apply IH. lia.
Qed.

(** [CleanList] keeps points of its input, with pairwise different keys. *)
Lemma CleanList_In pts p : In p (CleanList pts) -> In p pts.
Proof. intros H. apply unique_loop_In in H. tauto. Qed.

Lemma CleanList_NoDup pts : NoDup (keys (CleanList pts)).
Proof. apply unique_loop_NoDup. Qed.

Lemma CleanList_fixed pts : NoDup (keys pts) -> CleanList pts = pts.
Proof. intros H. apply unique_loop_fixed; [assumption | intros p _ []]. Qed.

Lemma CleanList_idempotent pts : CleanList (CleanList pts) = CleanList pts.
Proof. apply CleanList_fixed, CleanList_NoDup. Qed.


Lemma CleanList_same_length pts :
  JS.length (CleanList pts) = JS.length pts -> CleanList pts = pts.
Proof.
  unfold JS.length. intros H. apply unique_loop_same_length.
  unfold CleanList, multiDimensionalUnique in H. lia.
Qed.

(** Points with different keys are not value-equal. *)
Lemma NoDup_keys_pointEquals l p q :
  NoDup (keys l) -> In p l -> In q l -> pointEquals p q = true -> p = q.
Proof.
  intros Hnd Hp Hq E. apply pointEquals_stringify in E.
  induction l as [|a rest IH]; [contradiction|].
  simpl in Hnd. inversion Hnd as [|k ks Hk Hks]; subst.
  destruct Hp as [<- | Hp], Hq as [<- | Hq].
  - reflexivity.
  - exfalso. apply Hk. rewrite E. apply in_map. assumption.
  - exfalso. apply Hk. rewrite <- E. apply in_map. assumption.
  - apply IH; assumption.
Qed.

(** ** The working set *)

Lemma RemovePoint_Some points pt rest :
  RemovePoint points pt = Some rest ->
  exists l1 q l2, points = l1 ++ q :: l2 /\ rest = l1 ++ l2 /\ pointEquals q pt = true.
Proof.
  revert rest. induction points as [|p ps IH]; intros rest; simpl; [discriminate|].
  destruct (pointEquals p pt) eqn:E.
  - intros H. inversion H; subst. exists [], p, rest. auto.
  - destruct (RemovePoint ps pt) as [r|]; simpl; [|discriminate].
    intros H. inversion H; subst.
    destruct (IH r eq_refl) as [l1 [q [l2 [-> [-> Hq]]]]].
    exists (p :: l1), q, l2. auto.
Qed.

Lemma RemovePoint_length points pt rest :
  RemovePoint points pt = Some rest -> List.length points = S (List.length rest).
Proof.
  intros H. apply RemovePoint_Some in H.
  destruct H as [l1 [q [l2 [-> [-> _]]]]].
  rewrite !length_app. simpl. lia.
Qed.

(** ** Termination of the main loop *)

Section MainLoop.

Variable atan2 : float -> float -> float.
Variable sort : forall A : Type, (A -> A -> float) -> list A -> list A.

(** Rounds left before the working set is used up: its size, and one more
    while the first point has still to be put back. *)
Definition rounds_left (stop : Z) (s : state) : nat :=
  (List.length (dataset s) + if (step s <=? stop)%Z then 1 else 0)%nat.

Lemma loop_round_decreases firstPoint kk stop s s' :
  loop_round atan2 sort firstPoint kk stop s = inl s' ->
  (rounds_left stop s' < rounds_left stop s)%nat.
Proof.
  unfold loop_round, rounds_left.
  destruct (select_candidate _ _ _ _) as [c| |]; try discriminate.
  destruct (JS.index _ _); try discriminate.
  destruct (JS.index _ _); try discriminate.
  destruct (RemovePoint _ c) as [d2|] eqn:Hrem; try discriminate.
  intros H. inversion H; subst; clear H. simpl.
  apply RemovePoint_length in Hrem.
  destruct (Z.eqb_spec (step s) stop) as [E|E].
  - unfold AddPoint in Hrem. rewrite length_app in Hrem. simpl in Hrem.
    destruct (Z.leb_spec (step s) stop), (Z.leb_spec (step s + 1) stop); lia.
  - destruct (Z.leb_spec (step s) stop), (Z.leb_spec (step s + 1) stop); lia.
Qed.

(** The main loop ends within [rounds_left] rounds and the exit test. *)
Lemma main_loop_total firstPoint kk stop : forall fuel s,
  (rounds_left stop s < fuel)%nat ->
  main_loop atan2 sort fuel firstPoint kk stop s <> None.
Proof.
  induction fuel as [|fuel IH]; intros s Hlt; [lia|].
  simpl. destruct (loop_test firstPoint s); [|discriminate].
  destruct (loop_round atan2 sort firstPoint kk stop s) as [s'|r] eqn:E; [|discriminate].
  apply IH. apply loop_round_decreases in E. lia.
Qed.

(** An activation of [calculate] always reaches one of its [return]s. *)
Lemma attempt_of_finishes pts k : attempt_of atan2 sort pts k <> Unfinished.
Proof.
  unfold attempt_of.
  destruct (_ >=? _)%Z; [discriminate|].
  destruct (_ <? 3)%Z; [discriminate|].
  destruct (_ =? 3)%Z; [discriminate|].
  unfold build_hull.
  destruct (JS.index _ _) as [firstPoint|]; [|discriminate].
  destruct (RemovePoint _ _) as [d1|]; [|discriminate].
  match goal with
  | |- context [main_loop atan2 sort ?f ?p ?kk ?stop ?s] =>
      pose proof (main_loop_total p kk stop f s) as Htot;
      destruct (main_loop atan2 sort f p kk stop s) as [[h d| |]|]
  end; try discriminate.
  - destruct (all_inside d h); discriminate.
  - exfalso. apply Htot; [|reflexivity].
    unfold rounds_left, main_loop_fuel. simpl.
    destruct (2 <=? _)%Z; lia.
Qed.

End MainLoop.

(** ** Guards, clamping and escalation *)

Section Escalation.

Variable atan2 : float -> float -> float.
Variable sort : forall A : Type, (A -> A -> float) -> list A -> list A.

Lemma calculate_S fuel pts k :
  calculate atan2 sort (S fuel) pts k
  = match attempt_of atan2 sort pts k with
    | Return r => Some r
    | Escalate k' => calculate atan2 sort fuel pts k'
    | Unfinished => None
    end.
Proof. reflexivity. Qed.

Lemma attempt_of_guard pts k :
  (Z.max k 3 >= JS.length pts)%Z -> attempt_of atan2 sort pts k = Return Null.
Proof.
  intros H. unfold attempt_of.
  destruct (Z.geb_spec (Z.max k 3) (JS.length pts)); [reflexivity | lia].
Qed.

Lemma attempt_of_three pts k :
  (Z.max k 3 < JS.length pts)%Z -> JS.length (CleanList pts) = 3%Z ->
  attempt_of atan2 sort pts k = Return (Hull (CleanList pts)).
Proof.
  intros Hk Hn. unfold attempt_of.
  destruct (Z.geb_spec (Z.max k 3) (JS.length pts)); [lia|].
  rewrite Hn. reflexivity.
Qed.

(** Past the guards only the clamped [k] matters. *)
Lemma attempt_of_hull pts k :
  (Z.max k 3 < JS.length pts)%Z -> (4 <= JS.length (CleanList pts))%Z ->
  attempt_of atan2 sort pts k
  = build_hull atan2 sort (CleanList pts)
      (Z.min (Z.max k 3) (JS.length (CleanList pts) - 1)).
Proof.
  intros Hk Hn. unfold attempt_of.
  destruct (Z.geb_spec (Z.max k 3) (JS.length pts)); [lia|].
  destruct (Z.ltb_spec (JS.length (CleanList pts)) 3); [lia|].
  destruct (Z.eqb_spec (JS.length (CleanList pts)) 3); [lia|].
  reflexivity.
Qed.

Lemma build_hull_Escalate d kk k' :
  build_hull atan2 sort d kk = Escalate k' -> k' = (kk + 1)%Z.
Proof.
  unfold build_hull.
  destruct (JS.index _ _); [|discriminate].
  destruct (RemovePoint _ _); [|discriminate].
  destruct (main_loop _ _ _ _ _ _ _) as [[h ds| |]|]; try discriminate.
  - destruct (all_inside ds h); [discriminate|]. intros H; inversion H; reflexivity.
  - intros H; inversion H; reflexivity.
Qed.

(** A retry is only asked for with four distinct points or more, below the
    length of the list, and for the clamped [k] plus one. *)
Lemma attempt_of_Escalate pts k k' :
  attempt_of atan2 sort pts k = Escalate k' ->
  (Z.max k 3 < JS.length pts)%Z /\ (4 <= JS.length (CleanList pts))%Z
  /\ k' = (Z.min (Z.max k 3) (JS.length (CleanList pts) - 1) + 1)%Z.
Proof.
  unfold attempt_of.
  destruct (Z.geb_spec (Z.max k 3) (JS.length pts)); [discriminate|].
  destruct (Z.ltb_spec (JS.length (CleanList pts)) 3); [discriminate|].
  destruct (Z.eqb_spec (JS.length (CleanList pts)) 3); [discriminate|].
  intros HE. apply build_hull_Escalate in HE. lia.
Qed.

(** A call that asks for itself again never returns. *)
Lemma calculate_loops pts k :
  attempt_of atan2 sort pts k = Escalate k ->
  forall fuel, calculate atan2 sort fuel pts k = None.
Proof.
  intros H. induction fuel as [|fuel IH]; [reflexivity|].
  rewrite calculate_S, H. exact IH.
Qed.

(** On a list without duplicates every retry raises [k], and the guard
    stops the recursion within [length - max(k, 3) + 1] activations. *)
Lemma calculate_terminates_distinct pts : forall fuel k,
  JS.length (CleanList pts) = JS.length pts ->
  (JS.length pts - Z.max k 3 <= Z.of_nat fuel)%Z ->
  exists r, calculate atan2 sort (S fuel) pts k = Some r.
Proof.
  induction fuel as [|fuel IH]; intros k Hn Hfuel; rewrite calculate_S.
  - exists Null. rewrite attempt_of_guard; [reflexivity | lia].
  - destruct (attempt_of atan2 sort pts k) as [r|k'|] eqn:E.
    + exists r. reflexivity.
    + apply attempt_of_Escalate in E. apply IH; [assumption | lia].
    + exfalso. exact (attempt_of_finishes atan2 sort pts k E).
Qed.

End Escalation.

(** ** The guard on [k] *)




(** ** Three distinct points *)

(** C3 fails on the code: three distinct points listed once each are
    refused.  The guard on the length of the list comes first, and
    [max(k, 3)] is never below the length of a list of three, so for every
    [k] the call returns [null] and the branch that returns a dataset of
    three points is never reached.  That branch is only reached, and the
    same three points are only returned, when the list gives one of them
    more than once. *)
Theorem calculate_refuses_three_points atan2 sort (pts : list point) :
  JS.length pts = 3%Z -> JS.length (CleanList pts) = 3%Z ->
  CleanList pts = pts
  /\ (forall k fuel, calculate atan2 sort (S fuel) pts k = Some Null)
  /\ (forall listed k fuel,
        CleanList listed = pts -> (Z.max k 3 < JS.length listed)%Z ->
        calculate atan2 sort (S fuel) listed k = Some (Hull pts)).
Proof.
  intros Hlen Hn. split; [|split].
  - apply CleanList_same_length. congruence.
  - intros k fuel. rewrite calculate_S, attempt_of_guard; [reflexivity | lia].
  - intros listed k fuel Hclean Hk.
    rewrite calculate_S, attempt_of_three; [rewrite Hclean; reflexivity | exact Hk |].
    rewrite Hclean. exact Hlen.
Qed.

Lemma calculate_refuses_triangle :
  CleanList Sample.triangle = Sample.triangle
  /\ Engine.calculate 1 Sample.triangle 3 = Some Null
  /\ Engine.calculate 1 Sample.triangle_dup 3 = Some (Hull Sample.triangle).
Proof.
  destruct (calculate_refuses_three_points Engine.atan2 Engine.sort Sample.triangle)
    as [H1 [H2 H3]]; [reflexivity | reflexivity |].
  split; [exact H1|]. split; [exact (H2 3%Z 0%nat)|].
  apply (H3 Sample.triangle_dup 3%Z 0%nat); reflexivity.
Defined.

(** ** Escalation without end *)

(** On [Sample.far] the only attempt, with [k = 3], finds that the edge to
    the last point crosses the first edge; the retry with [k = 4] meets the
    guard, four points for [k = 4], and returns [null]. *)
Example calculate_far :
  Engine.attempt_of Sample.far 3 = Escalate 4
  /\ Engine.calculate 2 Sample.far 3 = Some Null.
Proof. split; vm_compute; reflexivity. Qed.

(** C1 fails on the code: with one point listed twice the list is longer
    than the cleaned list, the guard lets [k = 4] through, the clamp takes
    it back to [3], and the same failing attempt is made again and again:
    [calculate(far_dup, 3)] has no result after any number of activations,
    with either insertion sort. *)
Theorem calculate_far_dup_never_returns :
  forall fuel,
    Engine.calculate fuel Sample.far_dup 3 = None
    /\ calculate Engine.atan2 Engine.sort_right fuel Sample.far_dup 3 = None.
Proof.
  assert (E3 : attempt_of Engine.atan2 Engine.sort Sample.far_dup 3 = Escalate 4)
    by (vm_compute; reflexivity).
  assert (E4 : attempt_of Engine.atan2 Engine.sort Sample.far_dup 4 = Escalate 4)
    by (vm_compute; reflexivity).
  assert (R3 : attempt_of Engine.atan2 Engine.sort_right Sample.far_dup 3 = Escalate 4)
    by (vm_compute; reflexivity).
  assert (R4 : attempt_of Engine.atan2 Engine.sort_right Sample.far_dup 4 = Escalate 4)
    by (vm_compute; reflexivity).
  intros [|fuel]; [split; reflexivity|].
  unfold Engine.calculate. rewrite !calculate_S, E3, R3.
  split; apply calculate_loops; assumption.
Qed.

(** ** Deduplication invariance *)

Section Dedupe.

Variable atan2 : float -> float -> float.
Variable sort : forall A : Type, (A -> A -> float) -> list A -> list A.








End Dedupe.



(** ** What a returned hull went through *)

Section Returned.

Variable atan2 : float -> float -> float.
Variable sort : forall A : Type, (A -> A -> float) -> list A -> list A.

(** The state the main loop starts from. *)
Definition initial_state (firstPoint : point) (dataset1 : list point) : state :=
  {| hull := [firstPoint]; dataset := dataset1; currentPoint := firstPoint;
     previousAngle := JS.Math_PI; step := 2 |}.

(** A property kept by every round holds when the loop is left by its test. *)
Lemma main_loop_invariant (I : state -> Prop) firstPoint kk stop :
  (forall s s', I s -> loop_test firstPoint s = true ->
                loop_round atan2 sort firstPoint kk stop s = inl s' -> I s') ->
  forall fuel s h ds,
    I s ->
    main_loop atan2 sort fuel firstPoint kk stop s = Some (Finished h ds) ->
    exists s', I s' /\ loop_test firstPoint s' = false /\ hull s' = h /\ dataset s' = ds.
Proof.
  intros Hstep. induction fuel as [|fuel IH]; intros s h ds Hs; simpl; [discriminate|].
  destruct (loop_test firstPoint s) eqn:Htest.
  - destruct (loop_round atan2 sort firstPoint kk stop s) as [s'|r] eqn:Hround.
    + apply IH. apply (Hstep s s'); assumption.
    + intros Hr. inversion Hr; subst.
      unfold loop_round in Hround.
      destruct (select_candidate _ _ _ _); try discriminate.
      destruct (JS.index _ _); try discriminate.
      destruct (JS.index _ _); try discriminate.
      destruct (RemovePoint _ _); discriminate.
  - intros Hr. inversion Hr; subst. exists s. auto.
Qed.

(** A hull built by [build_hull] is what the main loop left behind, and the
    points left in the working set passed the containment scan. *)
Lemma build_hull_Hull d kk h :
  build_hull atan2 sort d kk = Return (Hull h) ->
  exists firstPoint dataset1 fuel ds,
    JS.index d (FindMinYPoint d) = Some firstPoint
    /\ RemovePoint d firstPoint = Some dataset1
    /\ main_loop atan2 sort fuel firstPoint kk (2 + kk)
         (initial_state firstPoint dataset1) = Some (Finished h ds)
    /\ all_inside ds h = true.
Proof.
  unfold build_hull.
  destruct (JS.index d (FindMinYPoint d)) as [firstPoint|] eqn:Hfirst; [|discriminate].
  destruct (RemovePoint d firstPoint) as [dataset1|] eqn:Hrem; [|discriminate].
  destruct (main_loop _ _ _ _ _ _ _) as [[h1 ds| |]|] eqn:Hloop; try discriminate.
  destruct (all_inside ds h1) eqn:Hin; [|discriminate].
  intros Hr. inversion Hr; subst.
  exists firstPoint, dataset1, (main_loop_fuel (List.length dataset1)), ds.
  repeat split; try reflexivity; assumption.
Qed.

(** With four distinct points or more, a hull returned by [calculate] was
    built by [build_hull] from the cleaned list, for some clamped [k]. *)
Lemma calculate_Hull pts h : forall fuel k,
  (4 <= JS.length (CleanList pts))%Z ->
  calculate atan2 sort fuel pts k = Some (Hull h) ->
  exists kk, (3 <= kk < JS.length (CleanList pts))%Z
             /\ build_hull atan2 sort (CleanList pts) kk = Return (Hull h).
Proof.
  induction fuel as [|fuel IH]; intros k Hn; [discriminate|].
  rewrite calculate_S.
  destruct (attempt_of atan2 sort pts k) as [r|k'|] eqn:E; [|apply IH; assumption|discriminate].
  intros Hr. inversion Hr; subst. clear Hr.
  destruct (Z.geb_spec (Z.max k 3) (JS.length pts)) as [Hge|Hlt].
  - rewrite attempt_of_guard in E by lia. discriminate.
  - rewrite attempt_of_hull in E by lia.
    eexists. split; [|exact E]. lia.
Qed.

End Returned.

(** ** The candidate scan *)

Lemma index_of_nat {A} (l : list A) (i : nat) : JS.index l (Z.of_nat i) = nth_error l i.
Proof.
  unfold JS.index. destruct (Z.ltb_spec (Z.of_nat i) 0); [lia|].
  rewrite Nat2Z.id. reflexivity.
Qed.

Lemma j_range_In h lastPoint j :
  In j (j_range h lastPoint) <-> (2 <= j < JS.length h - lastPoint)%Z.
Proof.
  unfold j_range. rewrite in_map_iff. split.
  - intros [i [<- Hi]]. apply in_seq in Hi. lia.
  - intros Hj. exists (Z.to_nat j). split; [lia|]. apply in_seq. lia.
Qed.


(** The selected candidate is one of the candidates, and its scan ended
    with [intersects = false]. *)
Lemma select_candidate_Selected h st firstPoint cs c :
  select_candidate h st firstPoint cs = Selected c ->
  In c cs
  /\ scan_edges h st c (j_range h (if pointEquals c firstPoint then 1 else 0)%Z)
     = Some false.
Proof.
  induction cs as [|c0 cs IH]; simpl; [discriminate|].
  destruct (scan_edges h st c0 _) as [[|]|] eqn:E; [| |discriminate].
  - intros H. apply IH in H. tauto.
  - intros H. inversion H; subst. auto.
Qed.

Section Rounds.

Variable atan2 : float -> float -> float.
Variable sort : forall A : Type, (A -> A -> float) -> list A -> list A.

(** The working set a round draws its candidates from. *)
Definition round_dataset (firstPoint : point) (stop : Z) (s : state) : list point :=
  if (step s =? stop)%Z then AddPoint (dataset s) firstPoint else dataset s.

(** The ranked candidates of a round. *)
Definition round_candidates (firstPoint : point) (kk stop : Z) (s : state) : list point :=
  SortByAngle atan2 sort
    (NearestPoints sort (round_dataset firstPoint stop s) (currentPoint s) kk)
    (currentPoint s) (previousAngle s).

(** What a round that goes on has done. *)
Lemma loop_round_inl firstPoint kk stop s s' :
  loop_round atan2 sort firstPoint kk stop s = inl s' ->
  exists c,
    select_candidate (hull s) (step s) firstPoint (round_candidates firstPoint kk stop s)
    = Selected c
    /\ hull s' = hull s ++ [c]
    /\ RemovePoint (round_dataset firstPoint stop s) c = Some (dataset s')
    /\ currentPoint s' = c
    /\ step s' = (step s + 1)%Z.
Proof.
  unfold loop_round. fold (round_dataset firstPoint stop s).
  fold (round_candidates firstPoint kk stop s).
  destruct (select_candidate _ _ _ _) as [c| |]; try discriminate.
  destruct (JS.index _ _); try discriminate.
  destruct (JS.index _ _); try discriminate.
  destruct (RemovePoint _ c) as [d2|] eqn:Hrem; try discriminate.
  intros H. inversion H; subst; clear H. simpl.
  exists c. repeat split; auto.
Qed.

End Rounds.

(** ** Edges against earlier edges *)



Section Edges.

Variable atan2 : float -> float -> float.
Variable sort : forall A : Type, (A -> A -> float) -> list A -> list A.





End Edges.



(** ** Candidates come from the working set *)

Lemma collect_map {A} (mk : Z -> point -> A) (f : A -> point) :
  (forall p x, f (mk p x) = x) ->
  forall points p, map f (collect mk points p) = points.
Proof.
  intros Hf. induction points as [|x rest IH]; intros p; simpl; [reflexivity|].
  rewrite Hf, IH. reflexivity.
Qed.

Lemma firstn_In {A} (n : nat) (l : list A) (x : A) : In x (firstn n l) -> In x l.
Proof.
  intros H. rewrite <- (firstn_skipn n l). apply in_or_app. left. assumption.
Qed.

Lemma insert_perm {A} (cmp : A -> A -> float) x sorted :
  Permutation (Engine.insert cmp x sorted) (x :: sorted).
Proof.
  induction sorted as [|y rest IH]; simpl; [reflexivity|].
  destruct (cmp x y <? 0); [reflexivity|].
  rewrite IH. apply perm_swap.
Qed.

(** The reference sort returns a permutation of its input. *)
Lemma Engine_sort_perm (A : Type) (cmp : A -> A -> float) (arr : list A) :
  Permutation (Engine.sort A cmp arr) arr.
Proof.
  unfold Engine.sort.
  assert (H : forall acc, Permutation (fold_left (fun s x => Engine.insert cmp x s) arr acc)
                                      (acc ++ arr)).
  { induction arr as [|x rest IH]; intros acc; simpl.
    - rewrite app_nil_r. reflexivity.
    - rewrite IH, insert_perm. apply Permutation_middle. }
  apply (H []).
Qed.

Section Candidates.

Variable atan2 : float -> float -> float.
Variable sort : forall A : Type, (A -> A -> float) -> list A -> list A.
Hypothesis sort_perm : forall A cmp l, Permutation (sort A cmp l) l.

Lemma NearestPoints_In points pt k c :
  In c (NearestPoints sort points pt k) -> In c points.
Proof.
  unfold NearestPoints. intros H. apply in_map_iff in H.
  destruct H as [cand [<- Hcand]].
  apply firstn_In in Hcand.
  apply (Permutation_in _ (sort_perm _ _ _)) in Hcand.
  apply (in_map dc_point) in Hcand.
  rewrite collect_map in Hcand by reflexivity. assumption.
Qed.

Lemma SortByAngle_perm points pt prev :
  Permutation (SortByAngle atan2 sort points pt prev) points.
Proof.
  unfold SortByAngle.
  rewrite (Permutation_map ac_point (sort_perm _ _ _)).
  rewrite collect_map by reflexivity. reflexivity.
Qed.

Lemma round_candidates_In firstPoint kk stop s c :
  In c (round_candidates atan2 sort firstPoint kk stop s) ->
  In c (round_dataset firstPoint stop s).
Proof.
  unfold round_candidates. intros H.
  apply (Permutation_in _ (SortByAngle_perm _ _ _)) in H.
  apply NearestPoints_In in H. assumption.
Qed.

End Candidates.

(** Removing a point that is the only value-match of itself. *)
Lemma RemovePoint_perm points c rest :
  RemovePoint points c = Some rest ->
  (forall q, In q points -> pointEquals q c = true -> q = c) ->
  Permutation points (c :: rest).
Proof.
  intros Hrem Huniq. apply RemovePoint_Some in Hrem.
  destruct Hrem as [l1 [q [l2 [-> [-> Hq]]]]].
  rewrite (Huniq q) by (try apply in_elt; assumption).
  symmetry. apply Permutation_middle.
Qed.

Lemma all_inside_In ds h :
  all_inside ds h = true -> forall p, In p ds -> PointInPolygonQ p h = true.
Proof.
  unfold all_inside. intros H p Hp. apply in_rev in Hp.
  induction (rev ds) as [|q rest IH]; [contradiction|].
  simpl in H. destruct (PointInPolygonQ q h) eqn:E; [|discriminate].
  destruct Hp as [<- | Hp]; [assumption | apply IH; assumption].
Qed.

Lemma all_inside_false ds h :
  all_inside ds h = false -> exists p, In p ds /\ PointInPolygonQ p h = false.
Proof.
  unfold all_inside. intros H.
  assert (Hex : exists p, In p (rev ds) /\ PointInPolygonQ p h = false).
  { induction (rev ds) as [|q rest IH]; [discriminate|].
    simpl in H. destruct (PointInPolygonQ q h) eqn:E.
    - destruct (IH H) as [p [Hp Hout]]. exists p. split; [right|]; assumption.
    - exists q. split; [left; reflexivity | assumption]. }
  destruct Hex as [p [Hp Hout]]. exists p. split; [apply in_rev|]; assumption.
Qed.

(** ** The shape of the hull *)

Section Shape.

Variable atan2 : float -> float -> float.
Variable sort : forall A : Type, (A -> A -> float) -> list A -> list A.
Hypothesis sort_perm : forall A cmp l, Permutation (sort A cmp l) l.

(** The cleaned list, its first point, and the round at which the first
    point is put back in the working set. *)
Variable D0 : list point.
Variable seed : point.
Variables kk stop : Z.
Hypothesis D0_keys : NoDup (keys D0).
Hypothesis seed_In : In seed D0.
Hypothesis seed_refl : pointEquals seed seed = true.
Hypothesis stop_ge : (2 <= stop)%Z.

Lemma D0_NoDup : NoDup D0.
Proof. exact (NoDup_map_inv stringify D0 D0_keys). Qed.

Lemma D0_value_eq p q : In p D0 -> In q D0 -> pointEquals p q = true -> p = q.
Proof. apply NoDup_keys_pointEquals. exact D0_keys. Qed.

(** Before the first point is put back: hull and working set share out the
    cleaned list. *)
Definition growing (s : state) (mid : list point) : Prop :=
  hull s = seed :: mid
  /\ currentPoint s = last mid seed
  /\ step s = (Z.of_nat (List.length mid) + 2)%Z
  /\ (step s <= stop)%Z
  /\ Permutation (seed :: mid ++ dataset s) D0.

(** After it was put back and before it is chosen: the working set holds the
    first point again. *)
Definition closing (s : state) (mid : list point) : Prop :=
  hull s = seed :: mid
  /\ currentPoint s = last mid seed
  /\ mid <> []
  /\ (stop < step s)%Z
  /\ In seed (dataset s)
  /\ Permutation (mid ++ dataset s) D0.

(** Once the first point was chosen: the hull is closed. *)
Definition closed (s : state) (mid : list point) : Prop :=
  hull s = seed :: mid ++ [seed]
  /\ currentPoint s = seed
  /\ step s <> 2%Z
  /\ Permutation (seed :: mid ++ dataset s) D0.

Definition shape (s : state) : Prop :=
  exists mid, growing s mid \/ closing s mid \/ closed s mid.

Lemma shape_initial d1 :
  RemovePoint D0 seed = Some d1 -> shape (initial_state seed d1).
Proof.
  intros Hrem. exists []. left. unfold growing. simpl.
  repeat split; try reflexivity; try lia.
  symmetry. apply RemovePoint_perm; [assumption|].
  intros q Hq E. apply D0_value_eq; assumption.
Qed.

Lemma last_In (mid : list point) : mid <> [] -> In (last mid seed) mid.
Proof.
  intros H. destruct (exists_last H) as [l [x ->]].
  rewrite last_last. apply in_elt.
Qed.

(** When the test ends the loop, the hull is either open with an empty
    working set, or closed. *)
Lemma shape_exit s :
  shape s -> loop_test seed s = false ->
  (exists mid, hull s = seed :: mid /\ dataset s = []
               /\ Permutation (seed :: mid) D0)
  \/ (exists mid, hull s = seed :: mid ++ [seed]
                  /\ Permutation (seed :: mid ++ dataset s) D0).
Proof.
  intros [mid [Hg | [Hc | Hd]]] Htest; unfold loop_test in Htest.
  - destruct Hg as [Hh [Hcur [Hst [Hle Hperm]]]].
    destruct (dataset s) as [|x ds] eqn:Eds.
    + left. exists mid. rewrite app_nil_r in Hperm. auto.
    + exfalso.
      assert (Hlen : (0 <? JS.length (x :: ds))%Z = true)
        by (unfold JS.length; simpl; apply Z.ltb_lt; lia).
      rewrite Hlen, andb_true_r in Htest.
      apply orb_false_elim in Htest. destruct Htest as [Heq Hst2].
      apply negb_false_iff in Heq. apply Z.eqb_neq in Hst2.
      assert (Hmid : mid <> []) by (intros ->; simpl in Hst; lia).
      pose proof (last_In mid Hmid) as Hlast. rewrite <- Hcur in Hlast.
      pose proof D0_NoDup as Hnd. rewrite <- Hperm in Hnd.
      inversion Hnd as [|? ? Hnotin _]; subst. apply Hnotin.
      apply in_or_app. left.
      rewrite (D0_value_eq (currentPoint s) seed) in Hlast; try assumption.
      rewrite <- Hperm. right. apply in_or_app. left. assumption.
  - exfalso. destruct Hc as [Hh [Hcur [Hmid [Hlt [Hin Hperm]]]]].
    assert (Hlen : (0 <? JS.length (dataset s))%Z = true).
    { destruct (dataset s); [contradiction|].
      unfold JS.length; simpl; apply Z.ltb_lt; lia. }
    rewrite Hlen, andb_true_r in Htest.
    apply orb_false_elim in Htest. destruct Htest as [Heq _].
    apply negb_false_iff in Heq.
    pose proof (last_In mid Hmid) as Hlast. rewrite <- Hcur in Hlast.
    assert (Ecur : currentPoint s = seed).
    { apply D0_value_eq; try assumption.
      rewrite <- Hperm. apply in_or_app. left. assumption. }
    rewrite Ecur in Hlast.
    pose proof D0_NoDup as Hnd. rewrite <- Hperm in Hnd.
    apply NoDup_app_remove_l in Hnd as Hnd2.
    clear Hnd2. revert Hnd Hlast Hin. clear. intros Hnd Hlast Hin.
    induction mid as [|y mid IH]; [contradiction|].
    simpl in Hnd. inversion Hnd as [|? ? Hnotin Hnd']; subst.
    destruct Hlast as [-> | Hlast].
    + apply Hnotin. apply in_or_app. right. assumption.
    + apply IH; assumption.
  - right. exists mid. destruct Hd as [Hh [_ [_ Hperm]]]. auto.
Qed.

Lemma round_dataset_In s mid q :
  growing s mid \/ closing s mid ->
  In q (round_dataset seed stop s) -> In q D0.
Proof.
  unfold round_dataset, AddPoint. intros Hs Hq.
  assert (Hds : In q (dataset s) -> In q D0).
  { intros H. destruct Hs as [[_ [_ [_ [_ Hperm]]]] | [_ [_ [_ [_ [_ Hperm]]]]]];
      rewrite <- Hperm; [right|]; apply in_or_app; right; assumption. }
  destruct (step s =? stop)%Z; [|auto].
  apply in_app_or in Hq. destruct Hq as [Hq | [<- | []]]; auto.
Qed.

(** What a round does to the working set: the chosen point leaves it. *)
Lemma round_removes s s' mid :
  growing s mid \/ closing s mid ->
  loop_round atan2 sort seed kk stop s = inl s' ->
  exists c,
    In c D0
    /\ hull s' = hull s ++ [c]
    /\ currentPoint s' = c
    /\ step s' = (step s + 1)%Z
    /\ Permutation (round_dataset seed stop s) (c :: dataset s').
Proof.
  intros Hs Hround. apply loop_round_inl in Hround.
  destruct Hround as [c [Hsel [Hhull [Hrem [Hcur Hstep]]]]].
  apply select_candidate_Selected in Hsel. destruct Hsel as [Hc _].
  apply (round_candidates_In atan2 sort sort_perm) in Hc.
  assert (HcD : In c D0) by (apply (round_dataset_In s mid c); assumption).
  exists c. repeat split; try assumption.
  apply RemovePoint_perm; [assumption|].
  intros q Hq E. apply D0_value_eq; try assumption.
  apply (round_dataset_In s mid q); assumption.
Qed.

Lemma last_snoc (mid : list point) c : last (mid ++ [c]) seed = c.
Proof. apply last_last. Qed.

(** Every round keeps the shape. *)
Lemma shape_round s s' :
  shape s -> loop_test seed s = true ->
  loop_round atan2 sort seed kk stop s = inl s' ->
  shape s'.
Proof.
  intros [mid [Hg | [Hc | Hd]]] Htest Hround.
  - (* before the first point is put back *)
    destruct (round_removes s s' mid (or_introl Hg) Hround)
      as [c [HcD [Hhull [Hcur [Hstep HP]]]]].
    destruct Hg as [Hh [_ [Hst [Hle Hperm]]]].
    unfold round_dataset, AddPoint in HP.
    destruct (Z.eqb_spec (step s) stop) as [Estop|Nstop].
    + destruct (pointEquals c seed) eqn:Ec.
      * (* the first point is chosen at once *)
        assert (Ecs : c = seed) by (apply D0_value_eq; assumption).
        rewrite Ecs in *. clear Ecs c.
        exists mid. right. right. unfold closed.
        rewrite Hhull, Hh, Hcur, Hstep. repeat split; try lia.
        rewrite <- Hperm. apply perm_skip. apply Permutation_app_head.
        rewrite <- Permutation_cons_append in HP.
        apply Permutation_cons_inv in HP. symmetry. exact HP.
      * exists (mid ++ [c]). right. left. unfold closing.
        rewrite Hhull, Hh, Hcur, Hstep, last_snoc.
        repeat split; try lia.
        -- intros E. destruct mid; discriminate.
        -- assert (Hs : In seed (c :: dataset s')).
           { apply (Permutation_in _ HP). apply in_or_app. right. left. reflexivity. }
           destruct Hs as [-> | Hs]; [congruence | exact Hs].
        -- rewrite <- app_assoc. simpl. rewrite <- HP, <- Hperm.
           rewrite app_assoc. rewrite <- Permutation_cons_append. reflexivity.
    + exists (mid ++ [c]). left. unfold growing.
      rewrite Hhull, Hh, Hcur, Hstep, last_snoc.
      repeat split; try lia.
      * rewrite length_app. simpl. lia.
      * rewrite <- app_assoc. simpl. rewrite <- HP. exact Hperm.
  - (* the first point is in the working set *)
    destruct (round_removes s s' mid (or_intror Hc) Hround)
      as [c [HcD [Hhull [Hcur [Hstep HP]]]]].
    destruct Hc as [Hh [_ [Hmid [Hlt [Hin Hperm]]]]].
    unfold round_dataset in HP.
    destruct (Z.eqb_spec (step s) stop) as [Estop|_]; [lia|].
    destruct (pointEquals c seed) eqn:Ec.
    + assert (Ecs : c = seed) by (apply D0_value_eq; assumption).
        rewrite Ecs in *. clear Ecs c.
      exists mid. right. right. unfold closed.
      rewrite Hhull, Hh, Hcur, Hstep. repeat split; try lia.
      rewrite <- Hperm, HP. apply Permutation_middle.
    + exists (mid ++ [c]). right. left. unfold closing.
      rewrite Hhull, Hh, Hcur, Hstep, last_snoc.
      repeat split; try lia.
      * intros E. destruct mid; discriminate.
      * assert (Hs : In seed (c :: dataset s')) by (apply (Permutation_in _ HP); exact Hin).
        destruct Hs as [-> | Hs]; [congruence | exact Hs].
      * rewrite <- app_assoc. simpl. rewrite <- HP. exact Hperm.
  - (* a closed hull ends the loop *)
    exfalso. destruct Hd as [_ [Hcur [Hst _]]].
    unfold loop_test in Htest. rewrite Hcur, seed_refl in Htest.
    apply Z.eqb_neq in Hst. rewrite Hst in Htest. discriminate.
Qed.

(** The two ways the main loop hands over a hull. *)
Lemma main_loop_shape fuel d1 h ds :
  RemovePoint D0 seed = Some d1 ->
  main_loop atan2 sort fuel seed kk stop (initial_state seed d1)
  = Some (Finished h ds) ->
  (exists mid, h = seed :: mid /\ ds = [] /\ Permutation (seed :: mid) D0)
  \/ (exists mid, h = seed :: mid ++ [seed] /\ Permutation (seed :: mid ++ ds) D0).
Proof.
  intros Hrem Hloop.
  destruct (main_loop_invariant atan2 sort shape seed kk stop shape_round
              fuel _ h ds (shape_initial d1 Hrem) Hloop)
    as [s' [Hshape [Htest [<- <-]]]].
  apply shape_exit; assumption.
Qed.

End Shape.

(** ** Closed polygons and leftover points *)

(** No two positions of the list hold value-equal points. *)
Definition distinct_points (l : list point) : Prop :=
  forall (i j : nat) (p q : point),
    i <> j -> nth_error l i = Some p -> nth_error l j = Some q ->
    pointEquals p q = false.

Lemma NoDup_keys_distinct l : NoDup (keys l) -> distinct_points l.
Proof.
  intros Hnd i j p q Hij Hp Hq.
  destruct (pointEquals p q) eqn:E; [|reflexivity].
  exfalso. apply Hij. apply pointEquals_stringify in E.
  apply (proj1 (NoDup_nth_error (keys l)) Hnd).
  - apply nth_error_Some. unfold keys. rewrite nth_error_map, Hp. discriminate.
  - unfold keys. rewrite !nth_error_map, Hp, Hq. simpl. congruence.
Qed.

Lemma index_In {A} (l : list A) z x : JS.index l z = Some x -> In x l.
Proof.
  unfold JS.index. destruct (z <? 0)%Z; [discriminate|]. apply nth_error_In.
Qed.

Section Polygon.

Variable atan2 : float -> float -> float.
Variable sort : forall A : Type, (A -> A -> float) -> list A -> list A.
Hypothesis sort_perm : forall A cmp l, Permutation (sort A cmp l) l.

(** A hull returned for four distinct points or more starts at the point of
    maximum Y, every point left in the working set passed the containment
    test, and the hull is open with nothing left, or closed. *)
Lemma calculate_Hull_shape pts fuel k h :
  (4 <= JS.length (CleanList pts))%Z ->
  calculate atan2 sort fuel pts k = Some (Hull h) ->
  exists seed ds,
    JS.index (CleanList pts) (FindMinYPoint (CleanList pts)) = Some seed
    /\ pointEquals seed seed = true
    /\ all_inside ds h = true
    /\ ((exists mid, h = seed :: mid /\ ds = []
                     /\ Permutation (seed :: mid) (CleanList pts))
        \/ (exists mid, h = seed :: mid ++ [seed]
                        /\ Permutation (seed :: mid ++ ds) (CleanList pts))).
Proof.
  intros Hn Hcalc.
  destruct (calculate_Hull atan2 sort pts h fuel k Hn Hcalc) as [kk [Hkk Hbuild]].
  destruct (build_hull_Hull atan2 sort _ _ _ Hbuild)
    as [seed [d1 [fuel' [ds [Hidx [Hrem [Hloop Hin]]]]]]].
  pose proof (index_In _ _ _ Hidx) as Hseed.
  assert (Hrefl : pointEquals seed seed = true).
  { destruct (RemovePoint_Some _ _ _ Hrem) as [l1 [q [l2 [Hd [_ Hq]]]]].
    assert (Hq' : In q (CleanList pts)) by (rewrite Hd; apply in_elt).
    rewrite <- (NoDup_keys_pointEquals _ q seed (CleanList_NoDup pts) Hq' Hseed Hq) at 1.
    exact Hq. }
  exists seed, ds. repeat split; try assumption.
  apply (main_loop_shape atan2 sort sort_perm (CleanList pts) seed kk (2 + kk)
           (CleanList_NoDup pts) Hseed Hrefl ltac:(lia) fuel' d1 h ds Hrem Hloop).
Qed.


(** C6: in a hull returned for four distinct points or more, every point of
    the cleaned list that is not a vertex of the hull passes the
    point-in-polygon test on the hull; and an activation whose main loop
    leaves a point that fails the test does not return: it calls
    [calculate] again with the clamped [k] plus one. *)
Theorem leftover_points_inside (pts : list point) (k : Z) :
  (4 <= JS.length (CleanList pts))%Z ->
  (forall fuel h,
      calculate atan2 sort fuel pts k = Some (Hull h) ->
      forall p, In p (CleanList pts) -> ~ In p h -> PointInPolygonQ p h = true)
  /\ (forall seed d1 h ds p,
         (Z.max k 3 < JS.length pts)%Z ->
         let kk := Z.min (Z.max k 3) (JS.length (CleanList pts) - 1) in
         JS.index (CleanList pts) (FindMinYPoint (CleanList pts)) = Some seed ->
         RemovePoint (CleanList pts) seed = Some d1 ->
         main_loop atan2 sort (main_loop_fuel (List.length d1)) seed kk (2 + kk)
           (initial_state seed d1) = Some (Finished h ds) ->
         In p ds -> PointInPolygonQ p h = false ->
         attempt_of atan2 sort pts k = Escalate (kk + 1)).
Proof.
  intros Hn. split.
  - intros fuel h Hcalc p Hp Hnot.
    destruct (calculate_Hull_shape pts fuel k h Hn Hcalc)
      as [seed [ds [_ [_ [Hin [[mid [Hh [_ Hperm]]] | [mid [Hh Hperm]]]]]]]].
    + exfalso. apply Hnot. rewrite Hh. apply (Permutation_in _ (Permutation_sym Hperm)). exact Hp.
    + apply (all_inside_In ds h Hin).
      apply (Permutation_in _ (Permutation_sym Hperm)) in Hp.
      destruct Hp as [<- | Hp]; [exfalso; apply Hnot; rewrite Hh; left; reflexivity|].
      apply in_app_or in Hp. destruct Hp as [Hp | Hp]; [|exact Hp].
      exfalso. apply Hnot. rewrite Hh. right. apply in_or_app. left. exact Hp.
  - intros seed d1 h ds p Hk kk Hidx Hrem Hloop Hp Hout.
    rewrite attempt_of_hull by assumption. fold kk.
    unfold build_hull. rewrite Hidx, Hrem.
    unfold initial_state in Hloop. rewrite Hloop.
    destruct (all_inside ds h) eqn:Hall; [|reflexivity].
    rewrite (all_inside_In ds h Hall p Hp) in Hout. discriminate.
Qed.

End Polygon.

(** Two points with different coordinates are different. *)
Ltac different_points H :=
  match type of H with
  | ?p = ?q =>
      apply (f_equal (fun r : point => pointEquals r q)) in H;
      vm_compute in H; discriminate H
  end.



Lemma leftover_points_inside_examples :
  PointInPolygonQ (5, 5) [(0, 10); (10, 10); (10, 0); (0, 0); (0, 10)] = true
  /\ Engine.attempt_of Sample.ell 3 = Escalate 4.
Proof.
  split.
  - refine (proj1 (leftover_points_inside Engine.atan2 Engine.sort Engine_sort_perm
                     Sample.square_centre 3 _) 1%nat _ _ (5, 5) _ _).
    + vm_compute. discriminate.
    + vm_compute. reflexivity.
    + vm_compute. do 4 right. left. reflexivity.
    + intros H. simpl in H.
      repeat (destruct H as [H|H]; [different_points H|]). exact H.
  - refine (proj2 (leftover_points_inside Engine.atan2 Engine.sort Engine_sort_perm
                     Sample.ell 3 _)
              (0, 3) [(0, 0); (0, 1); (0, 2); (1, 0); (2, 0)]
              [(0, 3); (0, 2); (1, 0); (2, 0); (0, 3)] [(0, 0); (0, 1)] (0, 0)
              _ _ _ _ _ _).
    + vm_compute. discriminate.
    + vm_compute. reflexivity.
    + vm_compute. reflexivity.
    + vm_compute. reflexivity.
    + vm_compute. reflexivity.
    + left. reflexivity.
    + vm_compute. reflexivity.
Defined.

(** ** The caller's arrays are left alone *)

(** [m] only writes to arrays created at or after address [n]: it leaves the
    arrays below [n] as they are, and what it returns satisfies [Q]. *)
Definition keeps (n : nat) {A} (m : M A) (Q : A -> Prop) : Prop :=
  forall st a st',
    (n <= List.length st)%nat ->
    m st = Some (a, st') ->
    (n <= List.length st')%nat
    /\ (forall l, (l < n)%nat -> nth_error st' l = nth_error st l)
    /\ Q a.

Lemma keeps_ret n {A} (a : A) (Q : A -> Prop) : Q a -> keeps n (ret a) Q.
Proof.
  intros HQ st a' st' Hn H. unfold ret in H. inversion H; subst. auto.
Qed.

Lemma keeps_bind n {A B} (m : M A) (f : A -> M B) (P : A -> Prop) (Q : B -> Prop) :
  keeps n m P -> (forall a, P a -> keeps n (f a) Q) -> keeps n (bind m f) Q.
Proof.
  intros Hm Hf st b st' Hn H. unfold bind in H.
  destruct (m st) as [[a st1]|] eqn:E; [|discriminate].
  destruct (Hm st a st1 Hn E) as [Hn1 [Hsame1 HP]].
  destruct (Hf a HP st1 b st' Hn1 H) as [Hn2 [Hsame2 HQ]].
  repeat split; try assumption.
  intros l Hl. rewrite Hsame2, Hsame1 by assumption. reflexivity.
Qed.

Lemma keeps_weaken n {A} (m : M A) (P Q : A -> Prop) :
  keeps n m P -> (forall a, P a -> Q a) -> keeps n m Q.
Proof.
  intros Hm HPQ st a st' Hn H. destruct (Hm st a st' Hn H) as [? [? ?]]. auto.
Qed.

Lemma keeps_read n l : keeps n (read l) (fun _ => True).
Proof.
  intros st a st' Hn H. unfold read in H.
  destruct (nth_error st l); [|discriminate]. inversion H; subst. auto.
Qed.

Lemma keeps_alloc n a : keeps n (alloc a) (fun l => (n <= l)%nat).
Proof.
  intros st l st' Hn H. unfold alloc in H. inversion H; subst.
  rewrite length_app. simpl. repeat split; try lia.
  intros l Hl. apply nth_error_app1. lia.
Qed.

Lemma replace_nth_length st : forall l a,
  List.length (replace_nth st l a) = List.length st.
Proof.
  induction st as [|x rest IH]; intros [|l] a; simpl; try reflexivity.
  rewrite IH. reflexivity.
Qed.

Lemma replace_nth_other st : forall l a l',
  l' <> l -> nth_error (replace_nth st l a) l' = nth_error st l'.
Proof.
  induction st as [|x rest IH]; intros [|l] a [|l'] Hne; simpl; try reflexivity.
  - contradiction.
  - apply IH. congruence.
Qed.

Lemma replace_nth_same st : forall l a,
  (l < List.length st)%nat -> nth_error (replace_nth st l a) l = Some a.
Proof.
  induction st as [|x rest IH]; intros [|l] a Hl; simpl in *; try lia; [reflexivity|].
  apply IH. lia.
Qed.

Lemma keeps_write n l a : (n <= l)%nat -> keeps n (write l a) (fun _ => True).
Proof.
  intros Hl st u st' Hn H. unfold write in H.
  destruct (nth_error st l); [|discriminate]. inversion H; subst.
  rewrite replace_nth_length. repeat split; try assumption.
  intros l' Hl'. apply replace_nth_other. lia.
Qed.

Lemma keeps_push n arr p : (n <= arr)%nat -> keeps n (push arr p) (fun _ => True).
Proof.
  intros Harr. unfold push.
  apply (keeps_bind n _ _ (fun _ => True)); [apply keeps_read|].
  intros a _. apply keeps_write. assumption.
Qed.

Lemma keeps_splice1 n arr i : (n <= arr)%nat -> keeps n (splice1 arr i) (fun _ => True).
Proof.
  intros Harr. unfold splice1.
  apply (keeps_bind n _ _ (fun _ => True)); [apply keeps_read|].
  intros a _. apply keeps_write. assumption.
Qed.

Ltac keeps_next P := apply (keeps_bind _ _ _ P); [|intros ? ?].

Tactic Notation "keeps_then" constr(P) "as" ident(x) :=
  apply (keeps_bind _ _ _ P); [|intros x ?].

(** A round leaves the loop by a retry or an error, never by [FinishedRef]. *)
Definition round_post (n : nat) (own : state_ref -> Prop)
  (r : state_ref + loop_result_ref) : Prop :=
  match r with
  | inl s' => own s'
  | inr (FinishedRef _ _) => False
  | inr _ => True
  end.

Lemma keeps_unique_loop n arr uniques : (n <= uniques)%nat ->
  forall m i seen,
    keeps n (multiDimensionalUnique_loop_ref m arr uniques i seen) (fun _ => True).
Proof.
  intros Hu. induction m as [|m IH]; intros i seen; simpl.
  - apply keeps_ret. exact I.
  - keeps_next (fun _ : list point => True); [apply keeps_read|].
    destruct (nth_error a i) as [p|]; [|apply keeps_ret; exact I].
    destruct (existsb _ seen); [apply IH|].
    keeps_next (fun _ : unit => True); [apply keeps_push; assumption | apply IH].
Qed.

Lemma keeps_CleanList n points :
  keeps n (CleanList_ref points) (fun l => (n <= l)%nat).
Proof.
  unfold CleanList_ref, multiDimensionalUnique_ref.
  keeps_next (fun l => (n <= l)%nat); [apply keeps_alloc|].
  keeps_next (fun _ : list point => True); [apply keeps_read|].
  keeps_next (fun _ : unit => True); [apply keeps_unique_loop; assumption|].
  apply keeps_ret. assumption.
Qed.

Lemma keeps_RemovePoint_loop n points pt : (n <= points)%nat ->
  forall m i,
    keeps n (RemovePoint_loop_ref m points pt i)
          (fun r => forall l, r = Some l -> (n <= l)%nat).
Proof.
  intros Hp. induction m as [|m IH]; intros i; simpl.
  - apply keeps_ret. discriminate.
  - keeps_next (fun _ : list point => True); [apply keeps_read|].
    destruct (nth_error a i) as [p|]; [|apply keeps_ret; discriminate].
    destruct (pointEquals p pt); [|apply IH].
    keeps_next (fun _ : unit => True); [apply keeps_splice1; assumption|].
    apply keeps_ret. intros l E. inversion E; subst. assumption.
Qed.

Lemma keeps_RemovePoint n points pt : (n <= points)%nat ->
  keeps n (RemovePoint_ref points pt) (fun r => forall l, r = Some l -> (n <= l)%nat).
Proof.
  intros Hp. unfold RemovePoint_ref.
  keeps_next (fun _ : list point => True); [apply keeps_read|].
  apply keeps_RemovePoint_loop. assumption.
Qed.

Lemma keeps_AddPoint n points pt : (n <= points)%nat ->
  keeps n (AddPoint_ref points pt) (fun l => (n <= l)%nat).
Proof.
  intros Hp. unfold AddPoint_ref.
  keeps_next (fun _ : unit => True); [apply keeps_push; assumption|].
  apply keeps_ret. assumption.
Qed.

Section Frame.

Variable atan2 : float -> float -> float.
Variable sort : forall A : Type, (A -> A -> float) -> list A -> list A.

Lemma keeps_NearestPoints n points pt k :
  keeps n (NearestPoints_ref sort points pt k) (fun l => (n <= l)%nat).
Proof.
  unfold NearestPoints_ref.
  keeps_next (fun _ : list point => True); [apply keeps_read | apply keeps_alloc].
Qed.

Lemma keeps_SortByAngle n points pt prev :
  keeps n (SortByAngle_ref atan2 sort points pt prev) (fun l => (n <= l)%nat).
Proof.
  unfold SortByAngle_ref.
  keeps_next (fun _ : list point => True); [apply keeps_read | apply keeps_alloc].
Qed.

(** The two arrays of the loop were created by [calculate]. *)
Definition own_arrays (n : nat) (s : state_ref) : Prop :=
  (n <= hull_ref s)%nat /\ (n <= dataset_ref s)%nat.

Lemma keeps_loop_round n firstPoint kk stop s :
  own_arrays n s ->
  keeps n (loop_round_ref atan2 sort firstPoint kk stop s)
        (round_post n (own_arrays n)).
Proof.
  intros [Hh Hd]. unfold loop_round_ref.
  keeps_next (fun l => (n <= l)%nat).
  { destruct (step_ref s =? stop)%Z;
      [apply keeps_AddPoint | apply keeps_ret]; assumption. }
  keeps_next (fun l => (n <= l)%nat); [apply keeps_NearestPoints|].
  keeps_next (fun l => (n <= l)%nat); [apply keeps_SortByAngle|].
  keeps_then (fun _ : list point => True) as h; [apply keeps_read|].
  keeps_then (fun _ : list point => True) as cs; [apply keeps_read|].
  destruct (select_candidate _ _ _ _) as [c| |]; try (apply keeps_ret; exact I).
  keeps_next (fun l => (n <= l)%nat); [apply keeps_AddPoint; assumption|].
  keeps_then (fun _ : list point => True) as h1; [apply keeps_read|].
  destruct (JS.index _ _); [|apply keeps_ret; exact I].
  destruct (JS.index _ _); [|apply keeps_ret; exact I].
  keeps_then (fun r : option loc => forall l, r = Some l -> (n <= l)%nat) as removed;
    [apply keeps_RemovePoint; assumption|].
  destruct removed as [dataset2|]; apply keeps_ret; [|exact I].
  split; simpl; auto.
Qed.

Lemma keeps_main_loop n firstPoint kk stop : forall fuel s,
  own_arrays n s ->
  keeps n (main_loop_ref atan2 sort fuel firstPoint kk stop s)
        (fun r => forall h d, r = Some (FinishedRef h d) -> (n <= h)%nat /\ (n <= d)%nat).
Proof.
  induction fuel as [|fuel IH]; intros s Hs; simpl.
  - apply keeps_ret. discriminate.
  - keeps_then (fun _ : bool => True) as continue.
    { unfold loop_test_ref.
      keeps_next (fun _ : list point => True); [apply keeps_read|].
      apply keeps_ret. exact I. }
    destruct continue.
    + keeps_then (round_post n (own_arrays n)) as r;
        [apply keeps_loop_round; assumption|].
      destruct r as [s'|res]; [apply IH; assumption|].
      apply keeps_ret. intros h d E. inversion E; subst. contradiction.
    + apply keeps_ret. intros h d E. inversion E; subst. exact Hs.
Qed.

(** An activation only writes to arrays it created itself. *)
Lemma keeps_attempt n pointsList k :
  keeps n (attempt_of_ref atan2 sort pointsList k) (fun _ => True).
Proof.
  unfold attempt_of_ref.
  keeps_then (fun _ : list point => True) as pl; [apply keeps_read|].
  destruct (_ >=? _)%Z; [apply keeps_ret; exact I|].
  keeps_then (fun l => (n <= l)%nat) as dataset0; [apply keeps_CleanList|].
  keeps_then (fun _ : list point => True) as d0; [apply keeps_read|].
  destruct (_ <? 3)%Z; [apply keeps_ret; exact I|].
  destruct (_ =? 3)%Z; [apply keeps_ret; exact I|].
  destruct (JS.index _ _) as [firstPoint|]; [|apply keeps_ret; exact I].
  keeps_then (fun l => (n <= l)%nat) as hull0; [apply keeps_alloc|].
  keeps_next (fun _ : unit => True); [apply keeps_push; assumption|].
  keeps_then (fun r : option loc => forall l, r = Some l -> (n <= l)%nat) as removed;
    [apply keeps_RemovePoint; assumption|].
  destruct removed as [dataset1|]; [|apply keeps_ret; exact I].
  keeps_then (fun _ : list point => True) as d1; [apply keeps_read|].
  keeps_then (fun r => forall h d, r = Some (FinishedRef h d) -> (n <= h)%nat /\ (n <= d)%nat)
    as res.
  { apply keeps_main_loop. split; simpl; auto. }
  destruct res as [[hull1 dataset2| |]|]; try (apply keeps_ret; exact I).
  keeps_then (fun _ : list point => True) as h; [apply keeps_read|].
  keeps_then (fun _ : list point => True) as d; [apply keeps_read|].
  destruct (all_inside d h); apply keeps_ret; exact I.
Qed.

Lemma keeps_calculate n pointsList : forall fuel k,
  keeps n (calculate_ref atan2 sort fuel pointsList k) (fun _ => True).
Proof.
  induction fuel as [|fuel IH]; intros k; simpl.
  - apply keeps_ret. exact I.
  - keeps_then (fun _ : attempt_ref => True) as a; [apply keeps_attempt|].
    destruct a as [r|k'|]; [apply keeps_ret; exact I | apply IH | apply keeps_ret; exact I].
Qed.

End Frame.

(** ** The store and the lists agree *)

(** The array at address [l] of [st] has the elements [a]. *)
Definition holds (st : store) (l : loc) (a : list point) : Prop :=
  nth_error st l = Some a.

Lemma holds_lt st l a : holds st l a -> (l < List.length st)%nat.
Proof. intros H. apply nth_error_Some. unfold holds in H. congruence. Qed.

Lemma holds_alloc_old st l a b : holds st l a -> holds (st ++ [b]) l a.
Proof.
  intros H. unfold holds. rewrite nth_error_app1 by (eapply holds_lt; eauto). exact H.
Qed.

Lemma holds_alloc_new st b : holds (st ++ [b]) (List.length st) b.
Proof.
  unfold holds. rewrite nth_error_app2 by lia. rewrite Nat.sub_diag. reflexivity.
Qed.

Lemma holds_write_same st l a b : holds st l a -> holds (replace_nth st l b) l b.
Proof. intros H. apply replace_nth_same. eapply holds_lt; eauto. Qed.

Lemma holds_write_other st l l' a b :
  l' <> l -> holds st l' a -> holds (replace_nth st l b) l' a.
Proof. intros Hne H. unfold holds. rewrite replace_nth_other by assumption. exact H. Qed.

Lemma run_bind {A B} (m : M A) (f : A -> M B) st a st1 :
  m st = Some (a, st1) -> bind m f st = f a st1.
Proof. intros H. unfold bind. rewrite H. reflexivity. Qed.

Lemma run_read st l a : holds st l a -> read l st = Some (a, st).
Proof. intros H. unfold read. rewrite H. reflexivity. Qed.

Lemma run_write st l a b :
  holds st l a -> write l b st = Some (tt, replace_nth st l b).
Proof. intros H. unfold write. rewrite H. reflexivity. Qed.

Lemma run_push st arr a p :
  holds st arr a -> push arr p st = Some (tt, replace_nth st arr (a ++ [p])).
Proof.
  intros H. unfold push. rewrite (run_bind _ _ _ _ _ (run_read _ _ _ H)).
  apply (run_write _ _ a). exact H.
Qed.

Lemma run_splice1 st arr a i :
  holds st arr a ->
  splice1 arr i st = Some (tt, replace_nth st arr (firstn i a ++ skipn (S i) a)).
Proof.
  intros H. unfold splice1. rewrite (run_bind _ _ _ _ _ (run_read _ _ _ H)).
  apply (run_write _ _ a). exact H.
Qed.

Lemma run_AddPoint st points a p :
  holds st points a ->
  AddPoint_ref points p st = Some (points, replace_nth st points (AddPoint a p)).
Proof.
  intros H. unfold AddPoint_ref.
  rewrite (run_bind _ _ _ _ _ (run_push _ _ _ p H)). reflexivity.
Qed.

Lemma splice_middle {A} (pre : list A) p suf :
  firstn (List.length pre) (pre ++ p :: suf)
  ++ skipn (S (List.length pre)) (pre ++ p :: suf) = pre ++ suf.
Proof. induction pre as [|x pre IH]; simpl; [reflexivity | f_equal; exact IH]. Qed.

(** [RemovePoint] on the store: the array is spliced in place, or the store
    is left as it is and [undefined] comes back. *)
Lemma run_RemovePoint_loop st points pt : forall suf pre m,
  holds st points (pre ++ suf) ->
  (List.length suf <= m)%nat ->
  RemovePoint_loop_ref m points pt (List.length pre) st
  = match RemovePoint suf pt with
    | Some rest => Some (Some points, replace_nth st points (pre ++ rest))
    | None => Some (None, st)
    end.
Proof.
  induction suf as [|p suf IH]; intros pre m Hst Hm.
  - destruct m; simpl; [reflexivity|].
    rewrite (run_bind _ _ _ _ _ (run_read _ _ _ Hst)).
    rewrite app_nil_r, (proj2 (nth_error_None pre (List.length pre))) by lia.
    reflexivity.
  - destruct m as [|m]; [simpl in Hm; lia|]. simpl.
    rewrite (run_bind _ _ _ _ _ (run_read _ _ _ Hst)).
    rewrite nth_error_app2, Nat.sub_diag by lia. simpl.
    destruct (pointEquals p pt) eqn:E.
    + rewrite (run_bind _ _ _ _ _ (run_splice1 _ _ _ _ Hst)).
      unfold ret. rewrite splice_middle. reflexivity.
    + specialize (IH (pre ++ [p]) m).
      rewrite length_app in IH. simpl in IH.
      replace (List.length pre + 1)%nat with (S (List.length pre)) in IH by lia.
      rewrite IH; [| rewrite <- app_assoc; exact Hst | simpl in Hm; lia].
      destruct (RemovePoint suf pt) as [rest|]; simpl; [|reflexivity].
      rewrite <- app_assoc. reflexivity.
Qed.

Lemma run_RemovePoint st points a pt :
  holds st points a ->
  RemovePoint_ref points pt st
  = match RemovePoint a pt with
    | Some rest => Some (Some points, replace_nth st points rest)
    | None => Some (None, st)
    end.
Proof.
  intros H. unfold RemovePoint_ref.
  rewrite (run_bind _ _ _ _ _ (run_read _ _ _ H)).
  apply (run_RemovePoint_loop st points pt a [] (List.length a)); [exact H | lia].
Qed.

Lemma replace_nth_id st : forall l a, nth_error st l = Some a -> replace_nth st l a = st.
Proof.
  induction st as [|x rest IH]; intros [|l] a H; simpl in *; try reflexivity.
  - inversion H. reflexivity.
  - rewrite IH by assumption. reflexivity.
Qed.

Lemma replace_nth_twice st : forall l a b,
  replace_nth (replace_nth st l a) l b = replace_nth st l b.
Proof.
  induction st as [|x rest IH]; intros [|l] a b; simpl; try reflexivity.
  rewrite IH. reflexivity.
Qed.

Lemma replace_nth_last st a b :
  replace_nth (st ++ [a]) (List.length st) b = st ++ [b].
Proof. induction st as [|x rest IH]; simpl; [reflexivity | rewrite IH; reflexivity]. Qed.

Lemma skipn_nth_error {A} (a : list A) : forall i p,
  nth_error a i = Some p -> skipn i a = p :: skipn (S i) a.
Proof.
  induction a as [|x rest IH]; intros [|i] p H; simpl in *; try discriminate.
  - inversion H. reflexivity.
  - apply IH. assumption.
Qed.

(** [multiDimensionalUnique] on the store fills [uniques] with what the loop
    on lists computes, and writes nowhere else. *)
Lemma run_unique_loop arr uniques a : arr <> uniques ->
  forall m i us seen st,
    holds st arr a -> holds st uniques us ->
    (List.length a - i <= m)%nat ->
    multiDimensionalUnique_loop_ref m arr uniques i seen st
    = Some (tt, replace_nth st uniques
                  (multiDimensionalUnique_loop (skipn i a) us seen)).
Proof.
  intros Hne. induction m as [|m IH]; intros i us seen st Ha Hu Hm.
  - simpl. rewrite skipn_all2 by lia. simpl.
    rewrite (replace_nth_id st uniques us Hu). reflexivity.
  - simpl. rewrite (run_bind _ _ _ _ _ (run_read _ _ _ Ha)).
    destruct (nth_error a i) as [p|] eqn:Ep.
    + rewrite (skipn_nth_error a i p Ep). simpl.
      destruct (existsb (key_eqb (stringify p)) seen).
      * rewrite (IH (S i) us seen st Ha Hu) by lia. reflexivity.
      * rewrite (run_bind _ _ _ _ _ (run_push _ _ _ p Hu)).
        rewrite (IH (S i) (us ++ [p]) (stringify p :: seen)); try lia.
        -- rewrite replace_nth_twice. reflexivity.
        -- apply (holds_write_other _ _ _ _ _ Hne Ha).
        -- apply (holds_write_same _ _ _ _ Hu).
    + apply nth_error_None in Ep. rewrite skipn_all2 by lia. simpl.
      rewrite (replace_nth_id st uniques us Hu). reflexivity.
Qed.

Lemma run_CleanList st points a :
  holds st points a ->
  CleanList_ref points st = Some (List.length st, st ++ [CleanList a]).
Proof.
  intros Ha. unfold CleanList_ref, multiDimensionalUnique_ref.
  unfold bind at 1. unfold alloc.
  pose proof (holds_alloc_old st points a [] Ha) as Ha1.
  rewrite (run_bind _ _ _ _ _ (run_read _ _ _ Ha1)).
  rewrite (run_bind _ _ _ _ _
             (run_unique_loop points (List.length st) a
                ltac:(apply holds_lt in Ha; lia)
                (List.length a) 0 [] [] _ Ha1 (holds_alloc_new st []) ltac:(lia))).
  unfold ret. simpl. rewrite replace_nth_last. reflexivity.
Qed.

(** The variables of the loop on the store stand for those on lists. *)
Definition models (st : store) (r : state_ref) (s : state) : Prop :=
  holds st (hull_ref r) (hull s)
  /\ holds st (dataset_ref r) (dataset s)
  /\ hull_ref r <> dataset_ref r
  /\ currentPoint_ref r = currentPoint s
  /\ previousAngle_ref r = previousAngle s
  /\ step_ref r = step s.

Definition models_round (st : store) (rr : state_ref + loop_result_ref)
  (ps : state + loop_result) : Prop :=
  match rr, ps with
  | inl r, inl s => models st r s
  | inr RetryRef, inr Retry => True
  | inr CrashRef, inr Crash => True
  | _, _ => False
  end.

Definition models_loop (st : store) (rr : option loop_result_ref)
  (ps : option loop_result) : Prop :=
  match rr, ps with
  | None, None => True
  | Some (FinishedRef h d), Some (Finished hull1 dataset2) =>
      holds st h hull1 /\ holds st d dataset2
  | Some RetryRef, Some Retry => True
  | Some CrashRef, Some Crash => True
  | _, _ => False
  end.

Definition models_outcome (st : store) (rr : outcome_ref) (ps : outcome) : Prop :=
  match rr, ps with
  | NullRef, Null => True
  | HullRef l, Hull h => holds st l h
  | TypeErrorRef, TypeError => True
  | _, _ => False
  end.

Definition models_result (st : store) (rr : option outcome_ref)
  (ps : option outcome) : Prop :=
  match rr, ps with
  | None, None => True
  | Some r, Some p => models_outcome st r p
  | _, _ => False
  end.

Definition models_attempt (st : store) (rr : attempt_ref) (ps : attempt) : Prop :=
  match rr, ps with
  | ReturnRef r, Return p => models_outcome st r p
  | EscalateRef k, Escalate k' => k = k'
  | UnfinishedRef, Unfinished => True
  | _, _ => False
  end.

Section Refinement.

Variable atan2 : float -> float -> float.
Variable sort : forall A : Type, (A -> A -> float) -> list A -> list A.

Lemma run_NearestPoints st points a pt k :
  holds st points a ->
  NearestPoints_ref sort points pt k st
  = Some (List.length st, st ++ [NearestPoints sort a pt k]).
Proof.
  intros H. unfold NearestPoints_ref.
  rewrite (run_bind _ _ _ _ _ (run_read _ _ _ H)). reflexivity.
Qed.

Lemma run_SortByAngle st points a pt prev :
  holds st points a ->
  SortByAngle_ref atan2 sort points pt prev st
  = Some (List.length st, st ++ [SortByAngle atan2 sort a pt prev]).
Proof.
  intros H. unfold SortByAngle_ref.
  rewrite (run_bind _ _ _ _ _ (run_read _ _ _ H)). reflexivity.
Qed.

Lemma run_loop_test st firstPoint r s :
  models st r s ->
  loop_test_ref firstPoint r st = Some (loop_test firstPoint s, st).
Proof.
  intros [_ [Hd [_ [Hcur [_ Hstep]]]]]. unfold loop_test_ref, loop_test.
  rewrite (run_bind _ _ _ _ _ (run_read _ _ _ Hd)), Hcur, Hstep. reflexivity.
Qed.

(** The first step of a round: the first point is pushed on the working set
    when [step == stop]. *)
Lemma run_round_dataset st firstPoint stop r s :
  models st r s ->
  exists st1,
    (if (step_ref r =? stop)%Z
     then AddPoint_ref (dataset_ref r) firstPoint
     else ret (dataset_ref r)) st = Some (dataset_ref r, st1)
    /\ holds st1 (hull_ref r) (hull s)
    /\ holds st1 (dataset_ref r) (round_dataset firstPoint stop s).
Proof.
  intros [Hh [Hd [Hne [_ [_ Hstep]]]]]. unfold round_dataset. rewrite Hstep.
  destruct (step s =? stop)%Z.
  - eexists. split; [apply (run_AddPoint _ _ _ _ Hd)|]. split.
    + apply (holds_write_other _ _ _ _ _ Hne Hh).
    + apply (holds_write_same _ _ _ _ Hd).
  - exists st. auto.
Qed.

(** A round on the store does what the round on lists does. *)
Lemma run_loop_round st firstPoint kk stop r s :
  models st r s ->
  exists rr st',
    loop_round_ref atan2 sort firstPoint kk stop r st = Some (rr, st')
    /\ models_round st' rr (loop_round atan2 sort firstPoint kk stop s).
Proof.
  intros Hm.
  destruct (run_round_dataset st firstPoint stop r s Hm) as [st1 [E1 [Hh1 Hd1]]].
  destruct Hm as [Hh [Hd [Hne [Hcur [Hprev Hstep]]]]].
  unfold loop_round_ref, loop_round. fold (round_dataset firstPoint stop s).
  rewrite (run_bind _ _ _ _ _ E1).
  rewrite (run_bind _ _ _ _ _ (run_NearestPoints _ _ _ _ _ Hd1)).
  rewrite Hcur, Hprev, Hstep.
  set (nearest := NearestPoints sort (round_dataset firstPoint stop s) (currentPoint s) kk).
  set (st2 := st1 ++ [nearest]).
  rewrite (run_bind _ _ _ _ _
             (run_SortByAngle st2 (List.length st1) nearest (currentPoint s)
                (previousAngle s) (holds_alloc_new st1 nearest))).
  set (cPoints := SortByAngle atan2 sort nearest (currentPoint s) (previousAngle s)).
  set (st3 := st2 ++ [cPoints]).
  assert (Hh3 : holds st3 (hull_ref r) (hull s))
    by (apply holds_alloc_old, holds_alloc_old; exact Hh1).
  assert (Hd3 : holds st3 (dataset_ref r) (round_dataset firstPoint stop s))
    by (apply holds_alloc_old, holds_alloc_old; exact Hd1).
  rewrite (run_bind _ _ _ _ _ (run_read _ _ _ Hh3)).
  rewrite (run_bind _ _ _ _ _ (run_read _ _ _ (holds_alloc_new st2 cPoints))).
  destruct (select_candidate (hull s) (step s) firstPoint cPoints) as [c| |].
  - rewrite (run_bind _ _ _ _ _ (run_AddPoint _ _ _ c Hh3)).
    set (st4 := replace_nth st3 (hull_ref r) (AddPoint (hull s) c)).
    assert (Hh4 : holds st4 (hull_ref r) (AddPoint (hull s) c))
      by (apply (holds_write_same _ _ _ _ Hh3)).
    assert (Hd4 : holds st4 (dataset_ref r) (round_dataset firstPoint stop s))
      by (apply holds_write_other; [congruence | exact Hd3]).
    rewrite (run_bind _ _ _ _ _ (run_read _ _ _ Hh4)).
    destruct (JS.index (AddPoint (hull s) c) (step s - 2)) as [a|];
      [|exists (inr CrashRef), st4; split; [reflexivity | exact I]].
    destruct (JS.index (AddPoint (hull s) c) (step s - 1)) as [b|];
      [|exists (inr CrashRef), st4; split; [reflexivity | exact I]].
    unfold bind at 1. rewrite (run_RemovePoint _ _ _ c Hd4).
    destruct (RemovePoint (round_dataset firstPoint stop s) c) as [rest|].
    + eexists. eexists. split; [reflexivity|].
      simpl. unfold models. simpl. repeat split; try assumption; try reflexivity.
      * apply holds_write_other; [exact Hne | exact Hh4].
      * apply (holds_write_same _ _ _ _ Hd4).
    + exists (inr CrashRef), st4. split; [reflexivity | exact I].
  - exists (inr RetryRef), st3. split; [reflexivity | exact I].
  - exists (inr CrashRef), st3. split; [reflexivity | exact I].
Qed.

Lemma run_main_loop firstPoint kk stop : forall fuel st r s,
  models st r s ->
  exists rr st',
    main_loop_ref atan2 sort fuel firstPoint kk stop r st = Some (rr, st')
    /\ models_loop st' rr (main_loop atan2 sort fuel firstPoint kk stop s).
Proof.
  induction fuel as [|fuel IH]; intros st r s Hm; simpl.
  - exists None, st. split; [reflexivity | exact I].
  - rewrite (run_bind _ _ _ _ _ (run_loop_test st firstPoint r s Hm)).
    destruct (loop_test firstPoint s).
    + destruct (run_loop_round st firstPoint kk stop r s Hm) as [rr [st1 [E Hrr]]].
      rewrite (run_bind _ _ _ _ _ E).
      destruct rr as [r'|[h d| |]],
               (loop_round atan2 sort firstPoint kk stop s) as [s'|[hull1 dataset2| |]];
        simpl in Hrr; try contradiction.
      * apply IH. exact Hrr.
      * exists (Some RetryRef), st1. split; [reflexivity | exact I].
      * exists (Some CrashRef), st1. split; [reflexivity | exact I].
    + exists (Some (FinishedRef (hull_ref r) (dataset_ref r))), st.
      split; [reflexivity|]. destruct Hm as [Hh [Hd _]]. split; assumption.
Qed.

(** An activation on the store does what the activation on lists does. *)
Lemma run_attempt st pointsList pts k :
  holds st pointsList pts ->
  exists ra st',
    attempt_of_ref atan2 sort pointsList k st = Some (ra, st')
    /\ models_attempt st' ra (attempt_of atan2 sort pts k).
Proof.
  intros Hpl. unfold attempt_of_ref, attempt_of.
  rewrite (run_bind _ _ _ _ _ (run_read _ _ _ Hpl)).
  destruct (Z.max k 3 >=? JS.length pts)%Z;
    [exists (ReturnRef NullRef), st; split; [reflexivity | exact I]|].
  rewrite (run_bind _ _ _ _ _ (run_CleanList _ _ _ Hpl)).
  set (d := List.length st). set (D0 := CleanList pts). set (st1 := st ++ [D0]).
  assert (Hd1 : holds st1 d D0) by apply holds_alloc_new.
  rewrite (run_bind _ _ _ _ _ (run_read _ _ _ Hd1)).
  destruct (JS.length D0 <? 3)%Z;
    [exists (ReturnRef NullRef), st1; split; [reflexivity | exact I]|].
  destruct (JS.length D0 =? 3)%Z;
    [exists (ReturnRef (HullRef d)), st1; split; [reflexivity | exact Hd1]|].
  unfold build_hull.
  destruct (JS.index D0 (FindMinYPoint D0)) as [firstPoint|];
    [|exists (ReturnRef TypeErrorRef), st1; split; [reflexivity | exact I]].
  unfold bind at 1. unfold alloc.
  set (h := List.length st1). set (st2 := st1 ++ [[]]).
  assert (Hh2 : holds st2 h []) by apply holds_alloc_new.
  assert (Hne : h <> d) by (apply holds_lt in Hd1; subst h; lia).
  rewrite (run_bind _ _ _ _ _ (run_push _ _ _ firstPoint Hh2)). simpl app.
  set (st3 := replace_nth st2 h [firstPoint]).
  assert (Hh3 : holds st3 h [firstPoint]) by apply (holds_write_same _ _ _ _ Hh2).
  assert (Hd3 : holds st3 d D0).
  { apply holds_write_other; [congruence|]. apply holds_alloc_old. exact Hd1. }
  unfold bind at 1. rewrite (run_RemovePoint _ _ _ firstPoint Hd3).
  destruct (RemovePoint D0 firstPoint) as [dataset1|];
    [|exists (ReturnRef TypeErrorRef), st3; split; [reflexivity | exact I]].
  set (st4 := replace_nth st3 d dataset1).
  assert (Hd4 : holds st4 d dataset1) by apply (holds_write_same _ _ _ _ Hd3).
  assert (Hh4 : holds st4 h [firstPoint])
    by (apply holds_write_other; [exact Hne | exact Hh3]).
  rewrite (run_bind _ _ _ _ _ (run_read _ _ _ Hd4)).
  match goal with
  | |- context [main_loop_ref atan2 sort ?f ?p ?kk ?stop ?r] =>
      destruct (run_main_loop p kk stop f st4 r (initial_state firstPoint dataset1))
        as [rr [st5 [E Hrr]]]
  end.
  { unfold models. simpl. repeat split; assumption. }
  rewrite (run_bind _ _ _ _ _ E). unfold initial_state in Hrr.
  destruct rr as [[h1 d1| |]|],
           (main_loop atan2 sort (main_loop_fuel (List.length dataset1)) firstPoint _ _ _)
             as [[hull1 dataset2| |]|];
    simpl in Hrr; try contradiction.
  - destruct Hrr as [Hh5 Hd5].
    rewrite (run_bind _ _ _ _ _ (run_read _ _ _ Hh5)).
    rewrite (run_bind _ _ _ _ _ (run_read _ _ _ Hd5)).
    destruct (all_inside dataset2 hull1).
    + exists (ReturnRef (HullRef h1)), st5. split; [reflexivity | exact Hh5].
    + eexists. exists st5. split; reflexivity.
  - eexists. exists st5. split; reflexivity.
  - exists (ReturnRef TypeErrorRef), st5. split; [reflexivity | exact I].
  - exists UnfinishedRef, st5. split; [reflexivity | exact I].
Qed.

Lemma attempt_frame st pointsList k ra st1 :
  attempt_of_ref atan2 sort pointsList k st = Some (ra, st1) ->
  forall l a, holds st l a -> holds st1 l a.
Proof.
  intros E l a Hl.
  destruct (keeps_attempt atan2 sort (List.length st) pointsList k st ra st1
              (Nat.le_refl _) E) as [_ [Hsame _]].
  unfold holds. rewrite Hsame; [exact Hl | eapply holds_lt; eauto].
Qed.

(** C10: [calculate] never modifies its input.  In any store where
    [pointsList] names an array with the elements [pts], a call of
    [calculate] (any number of activations deep) runs without getting
    stuck, leaves every array that existed before the call, the caller's
    among them, with the elements it had, and hands back what [calculate]
    on the list [pts] computes; the arrays it writes to are its own. *)
Theorem calculate_keeps_input (pointsList : loc) (pts : list point) :
  forall (fuel : nat) (k : Z) (st : store),
    holds st pointsList pts ->
    exists r st',
      calculate_ref atan2 sort fuel pointsList k st = Some (r, st')
      /\ holds st' pointsList pts
      /\ (forall l a, holds st l a -> holds st' l a)
      /\ models_result st' r (calculate atan2 sort fuel pts k).
Proof.
  induction fuel as [|fuel IH]; intros k st Hpl.
  - exists None, st. simpl. unfold ret. auto.
  - destruct (run_attempt st pointsList pts k Hpl) as [ra [st1 [E Hra]]].
    pose proof (attempt_frame st pointsList k ra st1 E) as Hframe.
    cbn [calculate_ref calculate]. rewrite (run_bind _ _ _ _ _ E).
    destruct ra as [r|k1|], (attempt_of atan2 sort pts k) as [p|k2|];
      simpl in Hra; try contradiction.
    + exists (Some r), st1. repeat split; auto.
    + subst k2.
      destruct (IH k1 st1 (Hframe _ _ Hpl)) as [r [st' [E' [Hpl' [Hframe' Hres]]]]].
      exists r, st'. repeat split; auto.
    + exists None, st1. repeat split; auto.
Qed.

End Refinement.

Lemma calculate_keeps_input_square_centre :
  exists r st',
    calculate_ref Engine.atan2 Engine.sort 1 0%nat 3 [Sample.square_centre] = Some (r, st')
    /\ holds st' 0%nat Sample.square_centre
    /\ (forall l a, holds [Sample.square_centre] l a -> holds st' l a)
    /\ models_result st' r (Engine.calculate 1 Sample.square_centre 3).
Proof.
  apply (calculate_keeps_input Engine.atan2 Engine.sort 0%nat Sample.square_centre 1 3
           [Sample.square_centre]).
  reflexivity.
Defined.

(** The same call, run: the caller's array is at address [0]; the cleaned
    list, the two candidate arrays of each round and the hull come after. *)
Example calculate_ref_square_centre :
  exists st',
    calculate_ref Engine.atan2 Engine.sort 1 0%nat 3 [Sample.square_centre]
    = Some (Some (HullRef 2%nat), st')
    /\ nth_error st' 0%nat = Some Sample.square_centre
    /\ nth_error st' 1%nat = Some [(5, 5)]
    /\ nth_error st' 2%nat = Some [(0, 10); (10, 10); (10, 0); (0, 0); (0, 10)].
Proof. eexists. vm_compute. repeat split. Qed.

(** ** Angles

    The facts on IEEE-754 subtraction that [Angle] needs, from the
    specification of the primitive operations. *)

Lemma digits2_pos_bound (m : positive) : (Zpos m < 2 ^ Zpos (digits2_pos m))%Z.
Proof.
  induction m as [m IH|m IH|]; simpl digits2_pos.
  - rewrite Pos2Z.inj_succ, Z.pow_succ_r by lia. lia.
  - rewrite Pos2Z.inj_succ, Z.pow_succ_r by lia. lia.
  - reflexivity.
Qed.

Lemma iter_xO_pow (m d : positive) :
  Zpos (Pos.iter xO m d) = (Zpos m * 2 ^ Zpos d)%Z.
Proof.
  induction d as [|d IH] using Pos.peano_ind.
  - simpl. lia.
  - rewrite Pos.iter_succ, Pos2Z.inj_succ, Z.pow_succ_r by lia.
    rewrite Pos2Z.inj_xO, IH. lia.
Qed.

Lemma shr_1_nonneg mrs : (0 <= shr_m mrs)%Z -> (0 <= shr_m (shr_1 mrs))%Z.
Proof.
  destruct mrs as [m r s]. simpl. intros H.
  destruct m as [|[p|p|]|p]; simpl; lia.
Qed.

Lemma iter_pos_nonneg (p : positive) : forall mrs,
  (0 <= shr_m mrs)%Z -> (0 <= shr_m (iter_pos shr_1 p mrs))%Z.
Proof.
  induction p as [p IH|p IH|]; intros mrs H; simpl.
  - apply IH, IH, shr_1_nonneg, H.
  - apply IH, IH, H.
  - apply shr_1_nonneg, H.
Qed.

Lemma shr_fexp_nonneg m e l :
  (0 <= m)%Z -> (0 <= shr_m (fst (shr_fexp prec emax m e l)))%Z.
Proof.
  intros H. unfold shr_fexp, shr.
  assert (H0 : (0 <= shr_m (shr_record_of_loc m l))%Z)
    by (destruct l as [|[| |]]; exact H).
  destruct (_ - e)%Z; simpl; try assumption.
  apply iter_pos_nonneg. assumption.
Qed.

Lemma round_nearest_even_nonneg m l : (0 <= m)%Z -> (0 <= round_nearest_even m l)%Z.
Proof.
  intros H. destruct l as [|[| |]]; simpl; try lia.
  destruct (Z.even m); lia.
Qed.

(** Rounding a positive integer mantissa gives a number that is not
    negative and not NaN. *)
Lemma binary_round_nonneg (m : positive) (e : Z) :
  SFleb (S754_zero false) (binary_round prec emax false m e) = true.
Proof.
  unfold binary_round. destruct (shl_align m e _) as [mz ez].
  unfold binary_round_aux.
  pose proof (shr_fexp_nonneg (Zpos mz) ez loc_Exact ltac:(lia)) as H1.
  destruct (shr_fexp prec emax (Zpos mz) ez loc_Exact) as [mrs' e'].
  simpl in H1.
  pose proof (shr_fexp_nonneg
                (round_nearest_even (shr_m mrs') (loc_of_shr_record mrs')) e' loc_Exact
                (round_nearest_even_nonneg _ _ H1)) as H2.
  destruct (shr_fexp prec emax _ e' loc_Exact) as [mrs'' e''].
  simpl in H2.
  destruct (shr_m mrs''); [reflexivity | | lia].
  destruct (e'' <=? emax - prec)%Z; reflexivity.
Qed.

Lemma binary_normalize_nonneg (m e : Z) :
  (0 <= m)%Z -> SFleb (S754_zero false) (binary_normalize prec emax m e false) = true.
Proof.
  intros H. destruct m; [reflexivity | apply binary_round_nonneg | lia].
Qed.

Lemma Prim2SF_PI : Prim2SF JS.Math_PI = S754_finite false 7074237752028440 (-51).
Proof. vm_compute. reflexivity. Qed.

Lemma Prim2SF_zero : Prim2SF 0 = S754_zero false.
Proof. vm_compute. reflexivity. Qed.

(** A valid mantissa has at most 53 bits. *)
Lemma bounded_mantissa (m : positive) (e : Z) :
  bounded prec emax m e = true -> (Zpos m < 2 ^ 53)%Z.
Proof.
  unfold bounded, canonical_mantissa, fexp. intros H.
  apply andb_true_iff in H. destruct H as [H _]. apply Z.eqb_eq in H.
  pose proof (digits2_pos_bound m) as Hd.
  assert (Hle : (Zpos (digits2_pos m) <= 53)%Z) by (unfold prec in H; lia).
  apply (Z.lt_le_trans _ _ _ Hd). apply Z.pow_le_mono_r; lia.
Qed.

(** The mantissa of [Math.PI], whose exponent is [-51]. *)
Definition PI_mantissa : positive := 7074237752028440.

Lemma finite_leb_cases (m c : positive) (e ec : Z) :
  SFleb (S754_finite false m e) (S754_finite false c ec) = true ->
  (e < ec)%Z \/ (e = ec /\ (Zpos m <= Zpos c)%Z).
Proof.
  unfold SFleb, SFcompare.
  destruct (Z.compare_spec e ec) as [He|He|He]; [| |discriminate].
  - rewrite Pos.compare_cont_spec. unfold Pos.switch_Eq.
    destruct (Pos.compare_spec m c) as [Hm|Hm|Hm]; try discriminate; intros _; right.
    + subst. split; [reflexivity | lia].
    + split; [exact He | lia].
  - intros _. left. exact He.
Qed.

Lemma shl_align_same (m : positive) (e : Z) : fst (shl_align m e e) = m.
Proof. unfold shl_align. rewrite Z.sub_diag. reflexivity. Qed.

Lemma shl_align_down (m : positive) (e e' : Z) :
  (e' < e)%Z -> Zpos (fst (shl_align m e e')) = (Zpos m * 2 ^ (e - e'))%Z.
Proof.
  intros H. unfold shl_align.
  destruct (e' - e)%Z as [|d|d] eqn:Hd; try lia.
  simpl fst. rewrite iter_xO_pow. f_equal. f_equal. lia.
Qed.

Lemma aligned_difference_nonneg (m : positive) (e : Z) :
  (Zpos m < 2 ^ 53)%Z ->
  SFleb (S754_finite false m e) (S754_finite false PI_mantissa (-51)) = true ->
  (0 <= Zpos (fst (shl_align PI_mantissa (-51) (Z.min (-51) e)))
        - Zpos (fst (shl_align m e (Z.min (-51) e))))%Z.
Proof.
  intros Hvalid Hle.
  destruct (finite_leb_cases _ _ _ _ Hle) as [He | [He Hm]].
  - rewrite Z.min_r by lia. rewrite shl_align_same, shl_align_down by exact He.
    assert (H2 : (2 <= 2 ^ (-51 - e))%Z)
      by (apply (Z.pow_le_mono_r 2 1); lia).
    assert (H3 : (2 ^ 53 <= Zpos PI_mantissa * 2)%Z) by (vm_compute; discriminate).
    clear - Hvalid H2 H3. nia.
  - subst e. rewrite Z.min_id, !shl_align_same. lia.
Qed.

(** Subtracting a number that is at most [Math.PI] from [Math.PI] gives a
    number that is at least zero. *)
Lemma PI_minus_nonneg (r : float) :
  (r <=? JS.Math_PI) = true -> (0 <=? JS.Math_PI - r) = true.
Proof.
  rewrite !leb_spec, sub_spec, Prim2SF_PI, Prim2SF_zero.
  pose proof (Prim2SF_valid r) as Hvalid.
  destruct (Prim2SF r) as [s|s| |s m e]; try discriminate.
  - intros _. reflexivity.
  - destruct s; [reflexivity | discriminate].
  - intros Hle. unfold SF64sub, SFsub. apply binary_normalize_nonneg.
    destruct s; [unfold cond_Zopp; lia|].
    apply aligned_difference_nonneg; [|exact Hle].
    apply (bounded_mantissa m e). exact Hvalid.
Qed.

(** *** Rounding stays below a representable bound *)

Section Rounding.

Local Open Scope Z_scope.

Lemma digits2_pos_lower (m : positive) : 2 ^ (Zpos (digits2_pos m) - 1) <= Zpos m.
Proof.
  induction m as [m IH|m IH|]; simpl digits2_pos.
  - rewrite Pos2Z.inj_succ. replace (Z.succ (Zpos (digits2_pos m)) - 1) with (Z.succ (Zpos (digits2_pos m) - 1)) by lia.
    rewrite Z.pow_succ_r by lia. lia.
  - rewrite Pos2Z.inj_succ. replace (Z.succ (Zpos (digits2_pos m)) - 1) with (Z.succ (Zpos (digits2_pos m) - 1)) by lia.
    rewrite Z.pow_succ_r by lia. lia.
  - simpl. lia.
Qed.

Lemma digits2_pos_le (m : positive) (k : Z) :
  0 <= k -> Zpos m < 2 ^ k -> Zpos (digits2_pos m) <= k.
Proof.
  intros Hk Hm. pose proof (digits2_pos_lower m) as Hl.
  assert (H : 2 ^ (Zpos (digits2_pos m) - 1) < 2 ^ k) by lia.
  apply Z.pow_lt_mono_r_iff in H; lia.
Qed.

Lemma digits2_pos_shift (m j : positive) :
  Zpos (digits2_pos (Pos.iter xO m j)) = Zpos (digits2_pos m) + Zpos j.
Proof.
  induction j as [|j IH] using Pos.peano_ind.
  - simpl. lia.
  - rewrite Pos.iter_succ. simpl digits2_pos. rewrite Pos2Z.inj_succ, IH. lia.
Qed.

(** [rec'] is [rec] shifted right by [n] bits. *)
Definition shifted (n : Z) (rec rec' : shr_record) : Prop :=
  shr_m rec' = shr_m rec / 2 ^ n
  /\ (shr_r rec = false -> shr_s rec = false -> shr_m rec mod 2 ^ n = 0 ->
      shr_r rec' = false /\ shr_s rec' = false).

Lemma shifted_shr_1 rec : 0 <= shr_m rec -> shifted 1 rec (shr_1 rec).
Proof.
  destruct rec as [m r s]. unfold shifted. change (2 ^ 1) with 2.
  cbn [shr_m shr_r shr_s]. intros Hm.
  destruct m as [|[p|p|]|p]; cbn [shr_1 shr_m shr_r shr_s]; try lia.
  - split; [reflexivity|]. intros -> ->. auto.
  - split.
    + apply (Z.div_unique _ _ _ 1); lia.
    + intros _ _ H. exfalso.
      rewrite Pos2Z.inj_xI, Z.mul_comm, Z.add_comm, Z.mod_add in H by lia. discriminate.
  - split.
    + apply (Z.div_unique _ _ _ 0); lia.
    + intros -> ->. auto.
  - split; [reflexivity|]. intros _ _ H. discriminate.
Qed.

Lemma shifted_trans a b r1 r2 r3 :
  0 <= a -> 0 <= b -> 0 <= shr_m r1 ->
  shifted a r1 r2 -> shifted b r2 r3 -> shifted (a + b) r1 r3.
Proof.
  intros Ha Hb Hm [E1 X1] [E2 X2].
  assert (Pa : 0 < 2 ^ a) by (apply Z.pow_pos_nonneg; lia).
  assert (Pb : 0 < 2 ^ b) by (apply Z.pow_pos_nonneg; lia).
  split.
  - rewrite E2, E1, Z.pow_add_r by lia. apply Z.div_div; lia.
  - intros Hr Hs Hmod.
    assert (Hdiv : (2 ^ (a + b) | shr_m r1)) by (apply Z.mod_divide; lia).
    destruct Hdiv as [q Hq]. rewrite Z.pow_add_r in Hq by lia.
    assert (H1 : shr_m r1 mod 2 ^ a = 0).
    { rewrite Hq. replace (q * (2 ^ a * 2 ^ b)) with ((q * 2 ^ b) * 2 ^ a) by ring.
      apply Z.mod_mul. lia. }
    destruct (X1 Hr Hs H1) as [Hr2 Hs2].
    apply X2; try assumption.
    rewrite E1, Hq. replace (q * (2 ^ a * 2 ^ b)) with ((q * 2 ^ b) * 2 ^ a) by ring.
    rewrite Z.div_mul by lia. apply Z.mod_mul. lia.
Qed.

Lemma shifted_nonneg n rec rec' : 0 <= n -> 0 <= shr_m rec -> shifted n rec rec' -> 0 <= shr_m rec'.
Proof.
  intros Hn Hm [E _]. rewrite E.
  apply Z.div_pos; [lia | apply Z.pow_pos_nonneg; lia].
Qed.

Lemma shifted_iter (p : positive) : forall rec,
  0 <= shr_m rec -> shifted (Zpos p) rec (iter_pos shr_1 p rec).
Proof.
  induction p as [p IH|p IH|]; intros rec Hm; simpl iter_pos.
  - pose proof (shifted_shr_1 rec Hm) as H1.
    pose proof (shifted_nonneg 1 _ _ ltac:(lia) Hm H1) as Hm1.
    pose proof (IH _ Hm1) as H2.
    pose proof (shifted_nonneg (Zpos p) _ _ ltac:(lia) Hm1 H2) as Hm2.
    pose proof (IH _ Hm2) as H3.
    replace (Zpos p~1) with (1 + (Zpos p + Zpos p)) by lia.
    apply (shifted_trans 1 (Zpos p + Zpos p) rec (shr_1 rec)); try lia; [exact H1|].
    apply (shifted_trans (Zpos p) (Zpos p) _ (iter_pos shr_1 p (shr_1 rec)));
      try lia; assumption.
  - pose proof (IH _ Hm) as H2.
    pose proof (shifted_nonneg (Zpos p) _ _ ltac:(lia) Hm H2) as Hm2.
    pose proof (IH _ Hm2) as H3.
    replace (Zpos p~0) with (Zpos p + Zpos p) by lia.
    apply (shifted_trans (Zpos p) (Zpos p) rec (iter_pos shr_1 p rec)); try lia; assumption.
  - apply shifted_shr_1. exact Hm.
Qed.

Lemma shr_spec mrs e n :
  0 <= shr_m mrs -> 0 <= n ->
  snd (shr mrs e n) = e + n /\ shifted n mrs (fst (shr mrs e n)).
Proof.
  intros Hm Hn. destruct n as [|p|p]; try lia; simpl.
  - split; [lia|]. split; [rewrite Z.div_1_r; reflexivity | auto].
  - split; [reflexivity | apply shifted_iter; exact Hm].
Qed.

Lemma round_nearest_even_exact m : round_nearest_even m loc_Exact = m.
Proof. reflexivity. Qed.

Lemma round_nearest_even_le m l : round_nearest_even m l <= m + 1.
Proof. destruct l as [|[| |]]; simpl; try lia. destruct (Z.even m); lia. Qed.

Lemma loc_exact_of_flags mrs :
  shr_r mrs = false -> shr_s mrs = false -> loc_of_shr_record mrs = loc_Exact.
Proof. destruct mrs as [m r s]. simpl. intros -> ->. reflexivity. Qed.

(** Shifting right and rounding to nearest does not pass a bound that is
    itself a multiple of the unit. *)
Lemma shift_round_le (M K n : Z) (mrs : shr_record) :
  0 <= M -> 0 <= n -> M <= K * 2 ^ n ->
  shifted n (Build_shr_record M false false) mrs ->
  0 <= round_nearest_even (shr_m mrs) (loc_of_shr_record mrs) <= K.
Proof.
  intros HM Hn Hle [Em Hflags]. simpl in Em, Hflags.
  assert (P : 0 < 2 ^ n) by (apply Z.pow_pos_nonneg; lia).
  assert (Hm0 : 0 <= shr_m mrs) by (rewrite Em; apply Z.div_pos; lia).
  split; [apply round_nearest_even_nonneg; exact Hm0|].
  assert (HmK : shr_m mrs <= K).
  { rewrite Em. apply Z.div_le_upper_bound; lia. }
  destruct (Z.eq_dec (shr_m mrs) K) as [E|N].
  - (* the bound is reached: the shift was exact *)
    assert (HMK : M = K * 2 ^ n).
    { pose proof (Z.mul_div_le M (2 ^ n) P) as H. rewrite <- Em, E in H. lia. }
    assert (Hmod : M mod 2 ^ n = 0) by (rewrite HMK; apply Z.mod_mul; lia).
    destruct (Hflags eq_refl eq_refl Hmod) as [Hr Hs].
    rewrite (loc_exact_of_flags mrs Hr Hs). simpl. lia.
  - pose proof (round_nearest_even_le (shr_m mrs) (loc_of_shr_record mrs)). lia.
Qed.

Lemma finite_leb_intro (m c : positive) (e ec : Z) :
  (e < ec)%Z \/ (e = ec /\ (Zpos m <= Zpos c)%Z) ->
  SFleb (S754_finite false m e) (S754_finite false c ec) = true.
Proof.
  unfold SFleb, SFcompare. intros [He | [He Hm]].
  - apply Z.compare_lt_iff in He. rewrite He. reflexivity.
  - subst. rewrite Z.compare_refl, Pos.compare_cont_spec. unfold Pos.switch_Eq.
    destruct (Pos.compare_spec m c) as [H|H|H]; try reflexivity.
    apply Pos2Z.pos_lt_pos in H. lia.
Qed.

Lemma final_le (m e eb : Z) (c : positive) :
  0 <= m -> e <= 971 ->
  e < eb \/ (e = eb /\ m <= Zpos c) ->
  SFleb match m with
        | Z0 => S754_zero false
        | Zpos q => if e <=? emax - prec then S754_finite false q e else S754_infinity false
        | Zneg _ => S754_nan
        end (S754_finite false c eb) = true.
Proof.
  intros Hm He H. destruct m as [|q|q]; [reflexivity| |lia].
  replace (e <=? emax - prec) with true
    by (symmetry; apply Z.leb_le; unfold emax, prec; lia).
  apply finite_leb_intro. exact H.
Qed.

Lemma shl_align_spec (M : positive) (e t : Z) :
  let mz := fst (shl_align M e t) in
  let ez := snd (shl_align M e t) in
  ez <= t /\ ez <= e /\ (t <= e -> ez = t)
  /\ Zpos mz = Zpos M * 2 ^ (e - ez)
  /\ Zpos (digits2_pos mz) + ez = Zpos (digits2_pos M) + e.
Proof.
  unfold shl_align. destruct (t - e) as [|p|p] eqn:Hd; simpl fst; simpl snd.
  - replace (e - e) with 0 by lia. repeat split; lia.
  - replace (e - e) with 0 by lia. repeat split; lia.
  - rewrite iter_xO_pow, digits2_pos_shift.
    replace (e - t) with (Zpos p) by lia. repeat split; lia.
Qed.

Lemma binary_round_le (M c : positive) (e eb : Z) :
  Zpos c < 2 ^ 53 -> -1074 <= eb <= 971 -> e <= eb ->
  Zpos M <= Zpos c * 2 ^ (eb - e) ->
  SFleb (binary_round prec emax false M e) (S754_finite false c eb) = true.
Proof.
  intros Hc Heb He HM.
  set (d := Zpos (digits2_pos M)).
  assert (Hd : d <= 53 + eb - e).
  { apply digits2_pos_le; [lia|].
    replace (53 + eb - e) with (53 + (eb - e)) by lia.
    rewrite Z.pow_add_r by lia.
    assert (P : 0 < 2 ^ (eb - e)) by (apply Z.pow_pos_nonneg; lia).
    nia. }
  unfold binary_round. fold d.
  set (t := fexp prec emax (d + e)).
  assert (Ht : t <= eb /\ -1074 <= t /\ d + e - 53 <= t)
    by (unfold t, fexp, emin, prec, emax; lia).
  pose proof (shl_align_spec M e t) as Hal.
  cbv zeta in Hal. destruct (shl_align M e t) as [mz ez]. cbn [fst snd] in Hal.
  destruct Hal as [Hez [Hez' [_ [Hmz Hdig]]]].
  unfold binary_round_aux.
  (* the first shift, to the exponent [t] *)
  assert (Hs1 : shr_fexp prec emax (Zpos mz) ez loc_Exact
                = shr (Build_shr_record (Zpos mz) false false) ez (t - ez)).
  { unfold shr_fexp. simpl Zdigits2. simpl shr_record_of_loc.
    fold d in Hdig. rewrite Hdig. reflexivity. }
  rewrite Hs1.
  pose proof (shr_spec (Build_shr_record (Zpos mz) false false) ez (t - ez)
                ltac:(simpl; lia) ltac:(lia)) as [He' Hsh].
  destruct (shr (Build_shr_record (Zpos mz) false false) ez (t - ez)) as [mrs' e'].
  simpl in He', Hsh.
  assert (Et : e' = t) by lia. clear He'. subst e'.
  set (K := Zpos c * 2 ^ (eb - t)).
  assert (HK : Zpos mz <= K * 2 ^ (t - ez)).
  { unfold K. rewrite <- Z.mul_assoc, <- Z.pow_add_r by lia.
    replace (eb - t + (t - ez)) with ((eb - e) + (e - ez)) by lia.
    rewrite Z.pow_add_r by lia. rewrite Hmz.
    assert (P : 0 < 2 ^ (e - ez)) by (apply Z.pow_pos_nonneg; lia).
    nia. }
  pose proof (shift_round_le (Zpos mz) K (t - ez) mrs' ltac:(lia) ltac:(lia) HK Hsh)
    as Hm1.
  set (m1 := round_nearest_even (shr_m mrs') (loc_of_shr_record mrs')) in *.
  (* the second shift, when rounding carried into a 54th bit *)
  unfold shr_fexp. simpl shr_record_of_loc.
  set (n2 := fexp prec emax (Zdigits2 m1 + t) - t).
  assert (Hn2 : n2 = Z.max (Zdigits2 m1 + t - 53) (-1074) - t)
    by (unfold n2, fexp, emin, prec, emax; reflexivity).
  assert (Hdig1 : Zdigits2 m1 <= 53 + eb - t).
  { destruct m1 as [|q|q] eqn:Eq1; simpl Zdigits2; try lia.
    apply digits2_pos_le; [lia|].
    assert (P : 0 < 2 ^ (eb - t)) by (apply Z.pow_pos_nonneg; lia).
    replace (53 + eb - t) with (53 + (eb - t)) by lia.
    rewrite Z.pow_add_r by lia.
    unfold K in Hm1. nia. }
  destruct n2 as [|p|p] eqn:En2.
  - simpl. apply final_le; try lia.
    destruct (Z.eq_dec t eb) as [E|N]; [right | left; lia].
    split; [exact E|]. unfold K in Hm1. rewrite E, Z.sub_diag in Hm1. simpl in Hm1. lia.
  - pose proof (shr_spec (Build_shr_record m1 false false) t (Zpos p)
                  ltac:(simpl; lia) ltac:(lia)) as [He'' Hsh2].
    destruct (shr (Build_shr_record m1 false false) t (Zpos p)) as [mrs'' e''].
    simpl in He'', Hsh2. destruct Hsh2 as [Em'' _]. simpl in Em''.
    assert (P : 0 < 2 ^ Zpos p) by (apply Z.pow_pos_nonneg; lia).
    apply final_le.
    + rewrite Em''. apply Z.div_pos; lia.
    + lia.
    + destruct (Z.eq_dec e'' eb) as [E|N]; [right | left; lia].
      split; [exact E|]. rewrite Em''.
      apply Z.div_le_upper_bound; [lia|].
      unfold K in Hm1. replace (eb - t) with (Zpos p) in Hm1 by lia. lia.
  - simpl. apply final_le; try lia.
    destruct (Z.eq_dec t eb) as [E|N]; [right | left; lia].
    split; [exact E|]. unfold K in Hm1. rewrite E, Z.sub_diag in Hm1. simpl in Hm1. lia.
Qed.

Lemma finite_leb_cases_neg (m c : positive) (e ec : Z) :
  SFleb (S754_finite true c ec) (S754_finite true m e) = true ->
  (e < ec)%Z \/ (e = ec /\ (Zpos m <= Zpos c)%Z).
Proof.
  unfold SFleb, SFcompare.
  destruct (Z.compare_spec ec e) as [He|He|He]; [| discriminate |].
  - rewrite Pos.compare_cont_spec. unfold Pos.switch_Eq.
    destruct (Pos.compare_spec c m) as [Hm|Hm|Hm]; try discriminate; intros _; right.
    + subst. split; [reflexivity | lia].
    + apply Pos2Z.pos_lt_pos in Hm. split; [symmetry; exact He | lia].
  - intros _. left. exact He.
Qed.

(** The difference of two numbers of magnitude at most [c * 2^ec], the
    first being [c * 2^ec] itself, rounds to at most [c * 2^(ec+1)]. *)
Lemma sub_le_double (c m : positive) (ec e : Z) (s : bool) :
  2 ^ 52 <= Zpos c < 2 ^ 53 -> -1074 <= ec + 1 <= 971 ->
  Zpos m < 2 ^ 53 ->
  e < ec \/ (e = ec /\ Zpos m <= Zpos c) ->
  SFleb (SFsub prec emax (S754_finite false c ec) (S754_finite s m e))
        (S754_finite false c (ec + 1)) = true.
Proof.
  intros Hc Hec Hm Hcase. unfold SFsub.
  assert (Hmin : Z.min ec e = e) by lia. rewrite Hmin.
  rewrite shl_align_same.
  assert (HA : Zpos (fst (shl_align c ec e)) = Zpos c * 2 ^ (ec - e)).
  { destruct Hcase as [He | [He _]].
    - apply shl_align_down. exact He.
    - subst e. rewrite shl_align_same, Z.sub_diag. simpl. lia. }
  rewrite HA.
  assert (P : 1 <= 2 ^ (ec - e)).
  { change 1 with (2 ^ 0). apply Z.pow_le_mono_r; lia. }
  assert (HmA : Zpos m <= Zpos c * 2 ^ (ec - e)).
  { destruct Hcase as [He | [He Hle]].
    - assert (P2 : 2 ^ 1 <= 2 ^ (ec - e)) by (apply Z.pow_le_mono_r; lia).
      change (2 ^ 1) with 2 in P2.
      assert (H53 : 2 ^ 53 = 2 * 2 ^ 52) by reflexivity. nia.
    - subst e. rewrite Z.sub_diag. simpl. lia. }
  assert (Hdouble : Zpos c * 2 ^ (ec + 1 - e) = 2 * (Zpos c * 2 ^ (ec - e))).
  { replace (ec + 1 - e) with (Z.succ (ec - e)) by lia.
    rewrite Z.pow_succ_r by lia. ring. }
  set (A := Zpos c * 2 ^ (ec - e)) in *.
  set (Mz := cond_Zopp false A - cond_Zopp s (Zpos m)).
  assert (HMz : 0 <= Mz <= 2 * A) by (unfold Mz, cond_Zopp; destruct s; lia).
  destruct Mz as [|M|M]; [reflexivity | | lia].
  unfold binary_normalize.
  apply binary_round_le; try lia.
Qed.

Lemma Prim2SF_two_PI :
  Prim2SF (2 * JS.Math_PI)%float = S754_finite false PI_mantissa (-51 + 1).
Proof. vm_compute. reflexivity. Qed.

Lemma Prim2SF_minus_PI :
  Prim2SF (- JS.Math_PI)%float = S754_finite true PI_mantissa (-51).
Proof. vm_compute. reflexivity. Qed.

Lemma PI_mantissa_bounds : 2 ^ 52 <= Zpos PI_mantissa < 2 ^ 53.
Proof. split; vm_compute; [discriminate | reflexivity]. Qed.

(** Subtracting a number between [-Math.PI] and [Math.PI] from [Math.PI]
    gives at most [2 * Math.PI]. *)
Lemma PI_minus_le_two_PI (r : float) :
  (- JS.Math_PI <=? r)%float = true -> (r <=? JS.Math_PI)%float = true ->
  (JS.Math_PI - r <=? 2 * JS.Math_PI)%float = true.
Proof.
  rewrite !leb_spec, sub_spec, Prim2SF_PI, Prim2SF_two_PI, Prim2SF_minus_PI.
  pose proof (Prim2SF_valid r) as Hvalid.
  destruct (Prim2SF r) as [s|s| |s m e]; try discriminate.
  - intros _ _. reflexivity.
  - destruct s; discriminate.
  - intros Hlow Hup. unfold SF64sub.
    apply sub_le_double.
    + exact PI_mantissa_bounds.
    + lia.
    + apply (bounded_mantissa m e). exact Hvalid.
    + destruct s.
      * apply finite_leb_cases_neg. exact Hlow.
      * apply finite_leb_cases. exact Hup.
Qed.

End Rounding.

Lemma SFleb_zero_not_lt (x : spec_float) :
  SFleb (S754_zero false) x = true -> SFltb x (S754_zero false) = false.
Proof. destruct x as [s|[|]| |[|] m e]; try reflexivity; discriminate. Qed.

Lemma nonneg_not_negative (d : float) : (0 <=? d) = true -> (d <? 0) = false.
Proof. rewrite leb_spec, ltb_spec, Prim2SF_zero. apply SFleb_zero_not_lt. Qed.

(** C9, as the code has it: whenever [Math.atan2] returns a number between
    [-Math.PI] and [Math.PI], [Angle(a, b)] is [Math.PI] minus that number
    (the branch that adds [2 * Math.PI] is never taken) and lies between [0]
    and [2 * Math.PI], both ends included; the upper end is returned when
    [Math.atan2] returns [-Math.PI]. *)
Theorem Angle_range atan2 (a b : point) :
  (- JS.Math_PI <=? atan2 (snd b - snd a) (fst b - fst a)) = true ->
  (atan2 (snd b - snd a) (fst b - fst a) <=? JS.Math_PI) = true ->
  Angle atan2 a b = JS.Math_PI - atan2 (snd b - snd a) (fst b - fst a)
  /\ (0 <=? Angle atan2 a b) = true
  /\ (Angle atan2 a b <=? 2 * JS.Math_PI) = true
  /\ (atan2 (snd b - snd a) (fst b - fst a) = - JS.Math_PI ->
      Angle atan2 a b = 2 * JS.Math_PI).
Proof.
  intros Hlow Hup.
  pose proof (PI_minus_nonneg _ Hup) as H0.
  pose proof (PI_minus_le_two_PI _ Hlow Hup) as H2.
  assert (E : Angle atan2 a b = JS.Math_PI - atan2 (snd b - snd a) (fst b - fst a)).
  { unfold Angle. rewrite (nonneg_not_negative _ H0). reflexivity. }
  rewrite E. repeat split; try assumption.
  intros ->. vm_compute. reflexivity.
Qed.

Lemma Angle_range_diagonal :
  Angle Engine.atan2 (0, 0) (1, 1) = JS.Math_PI - Engine.atan2 1 1
  /\ (0 <=? Angle Engine.atan2 (0, 0) (1, 1)) = true
  /\ (Angle Engine.atan2 (0, 0) (1, 1) <=? 2 * JS.Math_PI) = true.
Proof.
  destruct (Angle_range Engine.atan2 (0, 0) (1, 1)) as [E [H0 [H2 _]]];
    [vm_compute; reflexivity | vm_compute; reflexivity |].
  repeat split; assumption.
Defined.

(** A segment that points along the negative X axis from just below it:
    [Math.atan2] returns [-Math.PI] and [Angle] returns [2 * Math.PI], which
    is not below [2 * Math.PI]. *)
Lemma Angle_reaches_two_PI :
  Engine.atan2 (-0) (-1) = - JS.Math_PI
  /\ Angle Engine.atan2 (0, 0) (-1, -0) = 2 * JS.Math_PI
  /\ (Angle Engine.atan2 (0, 0) (-1, -0) <? 2 * JS.Math_PI) = false
  /\ Angle Engine.atan2 (0, 0) (-1, -0x1p-70) = 2 * JS.Math_PI.
Proof. repeat split; vm_compute; reflexivity. Qed.

(** * Further properties of the source functions *)

(** ** The order on numbers

    [<], [>] and [===] of the source are the comparisons of IEEE-754; what
    the functions below rely on is read off their specification. *)

Ltac compare_cases :=
  repeat match goal with
         | |- context [(?a ?= ?b)%Z] => destruct (Z.compare_spec a b)
         | |- context [Pos.compare_cont Eq ?a ?b] =>
             change (Pos.compare_cont Eq a b) with (Pos.compare a b);
             destruct (Pos.compare_spec a b)
         end;
  simpl; try reflexivity; try discriminate; try lia.

Lemma SFcompare_refl (x : spec_float) : x <> S754_nan -> SFcompare x x = Some Eq.
Proof.
  destruct x as [s|s| |s m e]; intros H; try contradiction; simpl.
  - reflexivity.
  - destruct s; reflexivity.
  - rewrite Z.compare_refl.
    change (Pos.compare_cont Eq m m) with (Pos.compare m m).
    rewrite Pos.compare_refl. destruct s; reflexivity.
Qed.

Lemma SFcompare_sym (x y : spec_float) (c : comparison) :
  SFcompare x y = Some c -> SFcompare y x = Some (CompOpp c).
Proof.
  destruct x as [sx|sx| |sx mx ex], y as [sy|sy| |sy my ey]; simpl;
    try discriminate; intros H; inversion H; subst; clear H;
    try (destruct sx); try (destruct sy); try reflexivity.
  - rewrite (Z.compare_antisym ex ey).
    change (Pos.compare_cont Eq my mx) with (Pos.compare my mx).
    change (Pos.compare_cont Eq mx my) with (Pos.compare mx my).
    rewrite (Pos.compare_antisym mx my).
    destruct (ex ?= ey)%Z, (mx ?= my)%positive; reflexivity.
  - rewrite (Z.compare_antisym ex ey).
    change (Pos.compare_cont Eq my mx) with (Pos.compare my mx).
    change (Pos.compare_cont Eq mx my) with (Pos.compare mx my).
    rewrite (Pos.compare_antisym mx my).
    destruct (ex ?= ey)%Z, (mx ?= my)%positive; reflexivity.
Qed.

Lemma SFcompare_None (x y : spec_float) :
  SFcompare x y = None <-> x = S754_nan \/ y = S754_nan.
Proof.
  destruct x as [sx|sx| |sx mx ex], y as [sy|sy| |sy my ey]; simpl;
    split; intros H; try discriminate; auto;
    destruct H as [H|H]; discriminate.
Qed.

Lemma SFleb_trans (x y z : spec_float) :
  SFleb x y = true -> SFleb y z = true -> SFleb x z = true.
Proof.
  unfold SFleb.
  destruct x as [sx|sx| |sx mx ex], y as [sy|sy| |sy my ey], z as [sz|sz| |sz mz ez];
    simpl; try discriminate; try reflexivity;
    try (destruct sx); try (destruct sy); try (destruct sz);
    try discriminate; try reflexivity; compare_cases.
Qed.

Lemma SFeqb_trans (x y z : spec_float) :
  SFeqb x y = true -> SFeqb y z = true -> SFeqb x z = true.
Proof.
  unfold SFeqb.
  destruct x as [sx|sx| |sx mx ex], y as [sy|sy| |sy my ey], z as [sz|sz| |sz mz ez];
    simpl; try discriminate; try reflexivity;
    try (destruct sx); try (destruct sy); try (destruct sz);
    try discriminate; try reflexivity; compare_cases.
Qed.

Lemma is_nan_spec (x : float) : is_nan x = false <-> Prim2SF x <> S754_nan.
Proof.
  unfold is_nan. rewrite FloatAxioms.eqb_spec, negb_false_iff. unfold SFeqb. split.
  - intros H E. rewrite E in H. discriminate.
  - intros H. rewrite (SFcompare_refl _ H). reflexivity.
Qed.

Lemma is_nan_true (x : float) : is_nan x = true <-> Prim2SF x = S754_nan.
Proof.
  split; intros H.
  - destruct (Prim2SF x) eqn:E; try reflexivity;
      assert (N : is_nan x = false) by (apply is_nan_spec; rewrite E; discriminate);
      congruence.
  - destruct (is_nan x) eqn:E; [reflexivity|]. apply is_nan_spec in E. contradiction.
Qed.

Lemma eqb_sym (a b : float) : (a =? b) = (b =? a).
Proof.
  rewrite !FloatAxioms.eqb_spec. unfold SFeqb.
  destruct (SFcompare (Prim2SF a) (Prim2SF b)) as [c|] eqn:E.
  - rewrite (SFcompare_sym _ _ _ E). destruct c; reflexivity.
  - apply SFcompare_None in E.
    assert (E' : SFcompare (Prim2SF b) (Prim2SF a) = None) by (apply SFcompare_None; tauto).
    rewrite E'. reflexivity.
Qed.

Lemma eqb_trans (a b c : float) : (a =? b) = true -> (b =? c) = true -> (a =? c) = true.
Proof. rewrite !FloatAxioms.eqb_spec. apply SFeqb_trans. Qed.

Lemma eqb_not_nan (a b : float) : (a =? b) = true -> is_nan a = false /\ is_nan b = false.
Proof.
  rewrite FloatAxioms.eqb_spec, !is_nan_spec. unfold SFeqb. intros H.
  split; intros E; rewrite E in H; simpl in H; [discriminate|].
  destruct (Prim2SF a); discriminate.
Qed.

Lemma leb_trans (a b c : float) : (a <=? b) = true -> (b <=? c) = true -> (a <=? c) = true.
Proof. rewrite !leb_spec. apply SFleb_trans. Qed.

Lemma eqb_leb (a b : float) : (a =? b) = true -> (a <=? b) = true.
Proof.
  rewrite FloatAxioms.eqb_spec, leb_spec. unfold SFeqb, SFleb.
  destruct (SFcompare _ _) as [[| |]|]; try discriminate. reflexivity.
Qed.

Lemma ltb_false_leb (a b : float) :
  is_nan a = false -> is_nan b = false -> (a <? b) = false -> (b <=? a) = true.
Proof.
  rewrite !is_nan_spec, ltb_spec, leb_spec. unfold SFltb, SFleb. intros Ha Hb.
  destruct (SFcompare (Prim2SF a) (Prim2SF b)) as [c|] eqn:E.
  - rewrite (SFcompare_sym _ _ _ E). destruct c; try discriminate; reflexivity.
  - apply SFcompare_None in E. tauto.
Qed.

Lemma leb_ltb_false (a b : float) : (a <=? b) = true -> (b <? a) = false.
Proof.
  rewrite ltb_spec, leb_spec. unfold SFltb, SFleb.
  destruct (SFcompare (Prim2SF a) (Prim2SF b)) as [c|] eqn:E; [|discriminate].
  rewrite (SFcompare_sym _ _ _ E). destruct c; try discriminate; reflexivity.
Qed.

Lemma leb_antisym (a b : float) : (a <=? b) = true -> (b <=? a) = true -> (a =? b) = true.
Proof.
  rewrite FloatAxioms.eqb_spec, !leb_spec. unfold SFeqb, SFleb.
  destruct (SFcompare (Prim2SF a) (Prim2SF b)) as [c|] eqn:E; [|discriminate].
  rewrite (SFcompare_sym _ _ _ E). destruct c; try discriminate; reflexivity.
Qed.

Lemma ltb_nan_l (a b : float) : is_nan a = true -> (a <? b) = false.
Proof. rewrite is_nan_true, ltb_spec. intros ->. reflexivity. Qed.

Lemma ltb_nan_r (a b : float) : is_nan b = true -> (a <? b) = false.
Proof.
  rewrite is_nan_true, ltb_spec. intros ->. unfold SFltb.
  destruct (Prim2SF a); reflexivity.
Qed.

Lemma eqb_nan_l (a b : float) : is_nan a = true -> (a =? b) = false.
Proof. rewrite is_nan_true, FloatAxioms.eqb_spec. intros ->. reflexivity. Qed.

Lemma eqb_nan_r (a b : float) : is_nan b = true -> (a =? b) = false.
Proof. intros H. rewrite eqb_sym. apply eqb_nan_l. exact H. Qed.

(** ** Value equality *)

Lemma pointEquals_refl (a : point) :
  pointEquals a a = true <-> is_nan (fst a) = false /\ is_nan (snd a) = false.
Proof.
  rewrite pointEquals_true. unfold JS.strict_eq, is_nan.
  rewrite !negb_false_iff. reflexivity.
Qed.

Lemma pointEquals_sym (a b : point) : pointEquals a b = pointEquals b a.
Proof.
  unfold pointEquals, JS.strict_eq.
  rewrite (eqb_sym (fst a)), (eqb_sym (snd a)). reflexivity.
Qed.

(** X1: [pointEquals] is symmetric and transitive, and a point equals
    itself exactly when neither of its coordinates is NaN. *)
Theorem pointEquals_partial_equivalence :
  (forall a b, pointEquals a b = pointEquals b a)
  /\ (forall a b c, pointEquals a b = true -> pointEquals b c = true ->
                    pointEquals a c = true)
  /\ (forall a, pointEquals a a = true
                <-> is_nan (fst a) = false /\ is_nan (snd a) = false).
Proof.
  split; [exact pointEquals_sym|]. split; [|exact pointEquals_refl].
  intros a b c Hab Hbc. apply pointEquals_true in Hab, Hbc. apply pointEquals_true.
  unfold JS.strict_eq in *. destruct Hab, Hbc. split; eapply eqb_trans; eauto.
Qed.

(** ** Deduplication, continued *)

Lemma unique_loop_seen arr : forall seen seen',
  (forall k, In k seen <-> In k seen') ->
  multiDimensionalUnique_loop arr [] seen = multiDimensionalUnique_loop arr [] seen'.
Proof.
  induction arr as [|a rest IH]; intros seen seen' H; [reflexivity|].
  rewrite !unique_loop_cons.
  assert (E : existsb (key_eqb (stringify a)) seen = existsb (key_eqb (stringify a)) seen').
  { apply eq_true_iff_eq. rewrite !found_iff. apply H. }
  rewrite E. destruct (existsb _ seen').
  - apply IH. exact H.
  - f_equal. apply IH. intros k. simpl. rewrite H. reflexivity.
Qed.

(** Marking a key as found is the same as filtering its points out. *)
Lemma unique_loop_filter arr : forall k seen,
  multiDimensionalUnique_loop arr [] (k :: seen)
  = multiDimensionalUnique_loop
      (filter (fun q => negb (key_eqb k (stringify q))) arr) [] seen.
Proof.
  induction arr as [|a rest IH]; intros k seen; [reflexivity|].
  rewrite unique_loop_cons. cbn [filter existsb].
  destruct (key_eqb k (stringify a)) eqn:Ek.
  - apply key_eqb_eq in Ek. subst k.
    rewrite (proj2 (key_eqb_eq _ _) eq_refl). cbn [orb negb]. apply IH.
  - assert (Ek' : key_eqb (stringify a) k = false).
    { destruct (key_eqb (stringify a) k) eqn:E; [|reflexivity].
      apply key_eqb_eq in E. subst k.
      rewrite (proj2 (key_eqb_eq _ _) eq_refl) in Ek. discriminate. }
    rewrite Ek'. cbn [orb negb]. rewrite unique_loop_cons.
    destruct (existsb (key_eqb (stringify a)) seen); [apply IH|].
    f_equal. rewrite <- IH. apply unique_loop_seen.
    intros k'. simpl. tauto.
Qed.

(** X2: [multiDimensionalUnique] keeps the first occurrence of every point
    and drops each later point whose JSON text is the same, the points kept
    staying in the order of the input. *)
Theorem CleanList_first_occurrence (p : point) (pts : list point) :
  CleanList [] = []
  /\ CleanList (p :: pts)
     = p :: CleanList (filter (fun q => negb (key_eqb (stringify p) (stringify q))) pts).
Proof.
  split; [reflexivity|].
  unfold CleanList, multiDimensionalUnique.
  rewrite unique_loop_cons. simpl. f_equal. apply unique_loop_filter.
Qed.

Lemma unique_loop_complete arr : forall seen p,
  In p arr ->
  In (stringify p) seen \/ In (stringify p) (keys (multiDimensionalUnique_loop arr [] seen)).
Proof.
  induction arr as [|a rest IH]; intros seen p Hp; [contradiction|].
  rewrite unique_loop_cons.
  destruct (existsb (key_eqb (stringify a)) seen) eqn:E.
  - destruct Hp as [<- | Hp]; [left; apply found_iff; exact E | apply IH; exact Hp].
  - destruct Hp as [<- | Hp]; [right; left; reflexivity|].
    destruct (IH (stringify a :: seen) p Hp) as [[Ek | H] | H].
    + right. left. exact Ek.
    + left. exact H.
    + right. right. exact H.
Qed.

(** X3: the points [CleanList] returns are points of its input with
    pairwise different JSON texts, and the text of every input point is the
    text of one of them. *)
Theorem CleanList_keys (pts : list point) :
  NoDup (keys (CleanList pts))
  /\ incl (CleanList pts) pts
  /\ (forall p, In p pts -> In (stringify p) (keys (CleanList pts))).
Proof.
  split; [apply CleanList_NoDup|]. split.
  - intros p. apply CleanList_In.
  - intros p Hp. destruct (unique_loop_complete pts [] p Hp) as [[] | H]. exact H.
Qed.

(** X4: [CleanList] is idempotent, and the lists it leaves unchanged are
    the lists whose points have pairwise different JSON texts: the lists
    that lose no element. *)
Theorem CleanList_fixed_points (pts : list point) :
  CleanList (CleanList pts) = CleanList pts
  /\ (CleanList pts = pts <-> NoDup (keys pts))
  /\ (CleanList pts = pts <-> JS.length (CleanList pts) = JS.length pts).
Proof.
  split; [apply CleanList_idempotent|]. split; split.
  - intros E. rewrite <- E. apply CleanList_NoDup.
  - apply CleanList_fixed.
  - intros E. rewrite E. reflexivity.
  - apply CleanList_same_length.
Qed.

(** A coordinate that JSON prints as [null]. *)
Definition non_finite (x : float) : bool := is_nan x || is_infinity x.

Lemma non_finite_stringify (x : float) :
  non_finite x = true -> JS.stringify_number x = None.
Proof. unfold non_finite, JS.stringify_number. intros ->. reflexivity. Qed.

Lemma non_finite_SF (x : float) :
  non_finite x = true ->
  Prim2SF x = S754_nan \/ exists s, Prim2SF x = S754_infinity s.
Proof.
  unfold non_finite. intros H. apply orb_true_iff in H. destruct H as [H|H].
  - left. apply is_nan_true. exact H.
  - right. unfold is_infinity in H.
    rewrite FloatAxioms.eqb_spec, abs_spec in H.
    change (Prim2SF infinity) with (S754_infinity false) in H.
    destruct (Prim2SF x) as [s|s| |s m e]; try discriminate H.
    exists s. reflexivity.
Qed.

Lemma non_finite_strict_eq (x x' : float) :
  non_finite x = true -> non_finite x' = true -> x <> x' -> JS.strict_eq x x' = false.
Proof.
  intros H H' Hne. unfold JS.strict_eq. rewrite FloatAxioms.eqb_spec.
  destruct (non_finite_SF x H) as [E | [s E]], (non_finite_SF x' H') as [E' | [s' E']];
    rewrite E, E'; try reflexivity.
  destruct s, s'; try reflexivity; exfalso; apply Hne, Prim2SF_inj; congruence.
Qed.

(** X5: JSON prints NaN, [Infinity] and [-Infinity] alike, so of two points
    that differ only in a coordinate with such values [CleanList] keeps the
    first, although [pointEquals] tells them apart. *)
Theorem CleanList_merges_non_finite (x x' y : float) (rest : list point) :
  non_finite x = true -> non_finite x' = true ->
  CleanList ((x, y) :: (x', y) :: rest) = CleanList ((x, y) :: rest)
  /\ CleanList ((y, x) :: (y, x') :: rest) = CleanList ((y, x) :: rest)
  /\ (x <> x' -> pointEquals (x, y) (x', y) = false
                 /\ pointEquals (y, x) (y, x') = false).
Proof.
  intros H H'.
  assert (K : forall p q, stringify p = stringify q ->
                CleanList (p :: q :: rest) = CleanList (p :: rest)).
  { intros p q E. unfold CleanList, multiDimensionalUnique.
    rewrite (unique_loop_cons p (q :: rest)), (unique_loop_cons p rest). cbn [existsb].
    rewrite (unique_loop_cons q rest [stringify p]). cbn [existsb].
    rewrite E, (proj2 (key_eqb_eq _ _) eq_refl). reflexivity. }
  split; [|split].
  - apply K. unfold stringify. simpl.
    rewrite (non_finite_stringify x H), (non_finite_stringify x' H'). reflexivity.
  - apply K. unfold stringify. simpl.
    rewrite (non_finite_stringify x H), (non_finite_stringify x' H'). reflexivity.
  - intros Hne. unfold pointEquals. simpl.
    rewrite (non_finite_strict_eq x x' H H' Hne), andb_false_r. split; reflexivity.
Qed.

Lemma CleanList_merges_non_finite_example :
  CleanList [(nan, 1); (infinity, 1); (2, 3)] = CleanList [(nan, 1); (2, 3)]
  /\ CleanList [(1, nan); (1, infinity); (2, 3)] = CleanList [(1, nan); (2, 3)]
  /\ (nan <> infinity -> pointEquals (nan, 1) (infinity, 1) = false
                         /\ pointEquals (1, nan) (1, infinity) = false).
Proof.
  apply (CleanList_merges_non_finite nan infinity 1 [(2, 3)]); reflexivity.
Defined.

Lemma finite_stringify (x x' : float) :
  non_finite x = false -> non_finite x' = false ->
  JS.stringify_number x = JS.stringify_number x' -> JS.strict_eq x x' = true.
Proof.
  unfold non_finite, JS.stringify_number, JS.strict_eq. intros H H'. rewrite H, H'.
  apply orb_false_elim in H, H'. destruct H as [N _], H' as [N' _].
  unfold is_nan in N, N'. apply negb_false_iff in N, N'.
  unfold is_zero.
  destruct (x =? zero) eqn:Z, (x' =? zero) eqn:Z'; intros E.
  - rewrite (eqb_sym x' zero) in Z'. eapply eqb_trans; eauto.
  - inversion E; subst. vm_compute in Z'. discriminate Z'.
  - inversion E; subst. vm_compute in Z. discriminate Z.
  - inversion E; subst. exact N'.
Qed.

(** X6: no two positions of the list [CleanList] returns hold points that
    [pointEquals] finds equal; and a list of points with finite coordinates
    that has this property is returned as it is. *)
Theorem CleanList_pointEquals (pts : list point) :
  distinct_points (CleanList pts)
  /\ ((forall p, In p pts -> non_finite (fst p) = false /\ non_finite (snd p) = false) ->
      distinct_points pts -> CleanList pts = pts).
Proof.
  split; [apply NoDup_keys_distinct, CleanList_NoDup|].
  intros Hfin Hd. apply CleanList_fixed.
  apply (proj2 (NoDup_nth_error (keys pts))). intros i j Hi E.
  unfold keys in *. rewrite length_map in Hi. rewrite !nth_error_map in E.
  destruct (nth_error pts i) as [p|] eqn:Ep; [|apply nth_error_None in Ep; lia].
  destruct (nth_error pts j) as [q|] eqn:Eq; [|discriminate].
  simpl in E. inversion E as [[E1 E2]].
  destruct (Nat.eq_dec i j) as [|Hne]; [assumption|]. exfalso.
  pose proof (Hd i j p q Hne Ep Eq) as Hpq.
  destruct (Hfin p (nth_error_In _ _ Ep)) as [P1 P2].
  destruct (Hfin q (nth_error_In _ _ Eq)) as [Q1 Q2].
  assert (T : pointEquals p q = true).
  { apply pointEquals_true. split; apply finite_stringify; assumption. }
  congruence.
Qed.

Lemma CleanList_pointEquals_square :
  distinct_points (CleanList Sample.square)
  /\ CleanList Sample.square = Sample.square.
Proof.
  split; [apply (CleanList_pointEquals Sample.square)|].
  apply (proj2 (CleanList_pointEquals Sample.square)).
  - intros p Hp. simpl in Hp.
    repeat (destruct Hp as [<- | Hp]; [split; reflexivity|]). contradiction.
  - intros i j p q Hij Hp Hq.
    destruct i as [|[|[|[|[|i]]]]], j as [|[|[|[|[|j]]]]]; simpl in Hp, Hq;
      try discriminate Hp; try discriminate Hq;
      try (exfalso; apply Hij; reflexivity);
      inversion Hp; inversion Hq; subst; reflexivity.
Defined.

(** ** The working set, continued *)

(** X7: [RemovePoint] splices out the first point that [pointEquals] finds
    equal to the one given and leaves the others in their order; when no
    point of the array is equal to it, the function yields [undefined]. *)
Theorem RemovePoint_first_match (points : list point) (pt : point) :
  (RemovePoint points pt = None /\ forall q, In q points -> pointEquals q pt = false)
  \/ (exists l1 q l2,
         points = l1 ++ q :: l2
         /\ RemovePoint points pt = Some (l1 ++ l2)
         /\ pointEquals q pt = true
         /\ forall r, In r l1 -> pointEquals r pt = false).
Proof.
  induction points as [|p ps IH]; simpl.
  - left. split; [reflexivity | intros q []].
  - destruct (pointEquals p pt) eqn:E.
    + right. exists [], p, ps. repeat split; auto. intros r [].
    + destruct IH as [[HN Hall] | [l1 [q [l2 [Hps [HS [Hq Hl1]]]]]]].
      * left. rewrite HN. split; [reflexivity|].
        intros q [<- | Hq]; [exact E | apply Hall; exact Hq].
      * right. exists (p :: l1), q, l2. rewrite HS, Hps. repeat split; auto.
        intros r [<- | Hr]; [exact E | apply Hl1; exact Hr].
Qed.

(** X8: [RemovePoint] after [AddPoint] of the same point.  When the array
    already held an equal point, that earlier one is removed and the point
    added stays at the end; otherwise the array is back as it was, unless
    the point has a NaN coordinate: it is then never found, and the result
    is [undefined]. *)
Theorem RemovePoint_AddPoint (points : list point) (pt : point) :
  RemovePoint (AddPoint points pt) pt
  = match RemovePoint points pt with
    | Some rest => Some (AddPoint rest pt)
    | None => if pointEquals pt pt then Some points else None
    end.
Proof.
  unfold AddPoint. induction points as [|p ps IH]; simpl.
  - destruct (pointEquals pt pt); reflexivity.
  - destruct (pointEquals p pt); [reflexivity|].
    rewrite IH. destruct (RemovePoint ps pt) as [rest|]; [reflexivity|].
    destruct (pointEquals pt pt); reflexivity.
Qed.

(** ** The first point *)

Lemma ltb_leb (a b : float) : (a <? b) = true -> (a <=? b) = true.
Proof.
  rewrite ltb_spec, leb_spec. unfold SFltb, SFleb.
  destruct (SFcompare _ _) as [[| |]|]; try discriminate; reflexivity.
Qed.

Lemma leb_refl (a : float) : is_nan a = false -> (a <=? a) = true.
Proof.
  intros H. apply eqb_leb. unfold is_nan in H. apply negb_false_iff in H. exact H.
Qed.

Lemma neg_infinity_leb (y : float) : is_nan y = false -> (neg_infinity <=? y) = true.
Proof.
  rewrite is_nan_spec, leb_spec.
  change (Prim2SF neg_infinity) with (S754_infinity true).
  destruct (Prim2SF y) as [s|s| |s m e]; intros H; try reflexivity.
  - destruct s; reflexivity.
  - contradiction.
Qed.

Lemma Math_max2_spec (a b : float) :
  is_nan a = false -> is_nan b = false ->
  (JS.Math_max2 a b = a \/ JS.Math_max2 a b = b)
  /\ (a <=? JS.Math_max2 a b) = true /\ (b <=? JS.Math_max2 a b) = true.
Proof.
  intros Ha Hb. unfold JS.Math_max2. rewrite Ha, Hb. simpl.
  destruct (a <? b) eqn:L.
  - repeat split; [right; reflexivity | apply ltb_leb; exact L | apply leb_refl; exact Hb].
  - destruct (b <? a) eqn:G.
    + repeat split; [left; reflexivity | apply leb_refl; exact Ha | apply ltb_leb; exact G].
    + pose proof (ltb_false_leb a b Ha Hb L) as Hba.
      pose proof (ltb_false_leb b a Hb Ha G) as Hab.
      destruct (classify a); repeat split; auto using leb_refl.
Qed.

Lemma Math_max2_nan (a b : float) :
  is_nan a = true \/ is_nan b = true -> is_nan (JS.Math_max2 a b) = true.
Proof.
  intros H. unfold JS.Math_max2.
  assert (E : is_nan a || is_nan b = true) by (apply orb_true_iff; exact H).
  rewrite E. reflexivity.
Qed.

Lemma Math_max_fold (ys : list float) : forall acc,
  is_nan acc = false -> (forall y, In y ys -> is_nan y = false) ->
  is_nan (fold_left JS.Math_max2 ys acc) = false
  /\ (fold_left JS.Math_max2 ys acc = acc \/ In (fold_left JS.Math_max2 ys acc) ys)
  /\ (acc <=? fold_left JS.Math_max2 ys acc) = true
  /\ forall y, In y ys -> (y <=? fold_left JS.Math_max2 ys acc) = true.
Proof.
  induction ys as [|y0 ys IH]; intros acc Hacc Hys; simpl.
  - repeat split; auto using leb_refl; try contradiction.
  - assert (Hy0 : is_nan y0 = false) by (apply Hys; left; reflexivity).
    destruct (Math_max2_spec acc y0 Hacc Hy0) as [Hsel [Hle1 Hle2]].
    assert (Hm : is_nan (JS.Math_max2 acc y0) = false)
      by (destruct Hsel as [-> | ->]; assumption).
    destruct (IH (JS.Math_max2 acc y0) Hm (fun y H => Hys y (or_intror H)))
      as [Hn [Hin [Hle Hall]]].
    repeat split.
    + exact Hn.
    + destruct Hin as [E | Hin]; [|right; right; exact Hin].
      rewrite E. destruct Hsel as [-> | ->]; [left; reflexivity | right; left; reflexivity].
    + eapply leb_trans; eauto.
    + intros y [<- | Hy]; [eapply leb_trans; eauto | apply Hall; exact Hy].
Qed.

Lemma Math_max_fold_nan (ys : list float) : forall acc,
  is_nan acc = true \/ (exists y, In y ys /\ is_nan y = true) ->
  is_nan (fold_left JS.Math_max2 ys acc) = true.
Proof.
  induction ys as [|y0 ys IH]; intros acc H; simpl.
  - destruct H as [H | [y [[] _]]]. exact H.
  - apply IH. destruct H as [H | [y [[<- | Hy] Hn]]].
    + left. apply Math_max2_nan. left. exact H.
    + left. apply Math_max2_nan. right. exact Hn.
    + right. exists y. split; assumption.
Qed.

Lemma indexOf_from_found (arr : list float) (v : float) : forall i0,
  (exists y, In y arr /\ JS.strict_eq y v = true) ->
  exists k y,
    JS.indexOf_from arr v i0 = (i0 + Z.of_nat k)%Z
    /\ nth_error arr k = Some y
    /\ JS.strict_eq y v = true
    /\ forall j z, (j < k)%nat -> nth_error arr j = Some z -> JS.strict_eq z v = false.
Proof.
  induction arr as [|a rest IH]; intros i0 [y [Hy E]]; [contradiction|]. simpl.
  destruct (JS.strict_eq a v) eqn:Ea.
  - exists 0%nat, a. repeat split; auto; [lia | intros j z Hj; lia].
  - destruct Hy as [-> | Hy]; [congruence|].
    destruct (IH (i0 + 1)%Z (ex_intro _ y (conj Hy E))) as [k [y' [Hk [Hn [Hy' Hbefore]]]]].
    exists (S k), y'. repeat split; auto; [lia|].
    intros [|j] z Hj Hz; simpl in Hz.
    + inversion Hz; subst. exact Ea.
    + apply (Hbefore j z); [lia | exact Hz].
Qed.

Lemma indexOf_from_absent (arr : list float) (v : float) : forall i0,
  (forall y, In y arr -> JS.strict_eq y v = false) ->
  JS.indexOf_from arr v i0 = (-1)%Z.
Proof.
  induction arr as [|a rest IH]; intros i0 H; [reflexivity|]. simpl.
  rewrite (H a (or_introl eq_refl)). apply IH. intros y Hy. apply H. right. exact Hy.
Qed.

Lemma FindMinYPoint_spec (points : list point) :
  points <> [] -> (forall p, In p points -> is_nan (snd p) = false) ->
  exists i seed,
    FindMinYPoint points = Z.of_nat i
    /\ nth_error points i = Some seed
    /\ (forall p, In p points -> (snd p <=? snd seed) = true)
    /\ (forall j q, (j < i)%nat -> nth_error points j = Some q ->
                    JS.strict_eq (snd q) (snd seed) = false).
Proof.
  intros Hne Hnan. unfold FindMinYPoint, arrayMax, arrayColumn1, JS.Math_max, JS.indexOf.
  set (ys := map snd points).
  assert (Hys : forall y, In y ys -> is_nan y = false).
  { intros y Hy. apply in_map_iff in Hy. destruct Hy as [p [<- Hp]]. apply Hnan, Hp. }
  destruct (Math_max_fold ys neg_infinity eq_refl Hys) as [Hn [Hin [_ Hall]]].
  set (m := fold_left JS.Math_max2 ys neg_infinity) in *.
  assert (Hex : exists y, In y ys /\ JS.strict_eq y m = true).
  { destruct Hin as [E | Hin].
    - destruct points as [|p0 ps]; [contradiction|].
      exists (snd p0). split; [left; reflexivity|].
      apply leb_antisym; [apply Hall; left; reflexivity|].
      rewrite E. apply neg_infinity_leb. apply Hys. left. reflexivity.
    - exists m. split; [exact Hin|]. unfold JS.strict_eq.
      unfold is_nan in Hn. apply negb_false_iff in Hn. exact Hn. }
  destruct (indexOf_from_found ys m 0%Z Hex) as [k [y [Hk [Hnth [Hy Hbefore]]]]].
  unfold ys in Hnth. rewrite nth_error_map in Hnth.
  change (option_map snd (nth_error points k) = Some y) in Hnth.
  destruct (nth_error points k) as [seed|] eqn:Eseed; simpl in Hnth; [|discriminate Hnth].
  inversion Hnth; subst y. clear Hnth.
  unfold JS.strict_eq in Hy.
  exists k, seed. split; [|split; [|split]].
  - rewrite Hk. lia.
  - exact Eseed.
  - intros p Hp. apply (leb_trans _ m).
    + apply Hall. apply in_map. exact Hp.
    + apply eqb_leb. rewrite eqb_sym. exact Hy.
  - intros j q Hj Hq.
    assert (Hqm : JS.strict_eq (snd q) m = false).
    { apply (Hbefore j); [exact Hj|]. unfold ys. rewrite nth_error_map.
      change (option_map snd (nth_error points j) = Some (snd q)).
      rewrite Hq. reflexivity. }
    unfold JS.strict_eq in *.
    destruct (snd q =? snd seed) eqn:E; [|reflexivity].
    rewrite (eqb_trans _ _ _ E Hy) in Hqm. discriminate.
Qed.

(** X9: on a non-empty array without a NaN among the Y coordinates,
    [FindMinYPoint] returns an index of the array; the point there has a Y
    that is at least the Y of every point, and it is the first such
    point. *)
Theorem FindMinYPoint_first_maximum (points : list point) :
  points <> [] -> (forall p, In p points -> is_nan (snd p) = false) ->
  exists seed,
    (0 <= FindMinYPoint points < JS.length points)%Z
    /\ JS.index points (FindMinYPoint points) = Some seed
    /\ (forall p, In p points -> (snd p <=? snd seed) = true)
    /\ (forall j q, (0 <= j < FindMinYPoint points)%Z -> JS.index points j = Some q ->
                    JS.strict_eq (snd q) (snd seed) = false).
Proof.
  intros Hne Hnan.
  destruct (FindMinYPoint_spec points Hne Hnan) as [i [seed [Hi [Hnth [Hmax Hfirst]]]]].
  exists seed. rewrite Hi, index_of_nat. split; [|split; [exact Hnth | split; [exact Hmax|]]].
  - assert (i < List.length points)%nat by (apply nth_error_Some; congruence).
    unfold JS.length. lia.
  - intros j q Hj Hq. apply (Hfirst (Z.to_nat j) q); [lia|].
    rewrite <- index_of_nat, Z2Nat.id by lia. exact Hq.
Qed.

Lemma FindMinYPoint_first_maximum_square :
  exists seed,
    (0 <= FindMinYPoint Sample.square < JS.length Sample.square)%Z
    /\ JS.index Sample.square (FindMinYPoint Sample.square) = Some seed
    /\ (forall p, In p Sample.square -> (snd p <=? snd seed) = true)
    /\ (forall j q, (0 <= j < FindMinYPoint Sample.square)%Z ->
                    JS.index Sample.square j = Some q ->
                    JS.strict_eq (snd q) (snd seed) = false).
Proof.
  apply (FindMinYPoint_first_maximum Sample.square); [discriminate|].
  intros p Hp. simpl in Hp.
  repeat (destruct Hp as [<- | Hp]; [reflexivity|]). contradiction.
Defined.

Lemma FindMinYPoint_nan (points : list point) :
  (exists p, In p points /\ is_nan (snd p) = true) -> FindMinYPoint points = (-1)%Z.
Proof.
  intros [p [Hp Hn]].
  unfold FindMinYPoint, arrayMax, arrayColumn1, JS.Math_max, JS.indexOf.
  apply indexOf_from_absent. intros y _. apply eqb_nan_r.
  apply Math_max_fold_nan. right. exists (snd p). split; [apply in_map|]; assumption.
Qed.

(** X10: when the array is empty or one of the Y coordinates is NaN,
    [FindMinYPoint] returns [-1], and reading the array there gives
    [undefined]. *)
Theorem FindMinYPoint_not_found (points : list point) :
  points = [] \/ (exists p, In p points /\ is_nan (snd p) = true) ->
  FindMinYPoint points = (-1)%Z /\ JS.index points (FindMinYPoint points) = None.
Proof.
  intros H.
  assert (E : FindMinYPoint points = (-1)%Z)
    by (destruct H as [-> | H]; [reflexivity | apply FindMinYPoint_nan; exact H]).
  rewrite E. split; reflexivity.
Qed.

Lemma FindMinYPoint_not_found_example :
  FindMinYPoint [(0, 0); (1, nan); (2, 2)] = (-1)%Z
  /\ JS.index [(0, 0); (1, nan); (2, 2)] (FindMinYPoint [(0, 0); (1, nan); (2, 2)]) = None.
Proof.
  apply (FindMinYPoint_not_found [(0, 0); (1, nan); (2, 2)]).
  right. exists (1, nan). split; [right; left; reflexivity | reflexivity].
Defined.

(** ** Point in polygon, continued *)

(** Whether the edge between [vi] and [vj] toggles [inside]. *)
Definition crosses (x y : float) (vi vj : point) : bool :=
  JS.bool_neq (JS.gt (snd vi) y) (JS.gt (snd vj) y)
  && (x <? (fst vj - fst vi) * (y - snd vi) / (snd vj - snd vi) + fst vi).

Lemma pip_step_xor x y vi vj b : pip_step x y vi vj b = xorb b (crosses x y vi vj).
Proof.
  unfold pip_step, crosses. cbv zeta.
  destruct (_ && _); destruct b; reflexivity.
Qed.

Lemma pip_loop_xor x y rest : forall vj b,
  pip_loop x y vj rest b = xorb b (pip_loop x y vj rest false).
Proof.
  induction rest as [|vi rest IH]; intros vj b; simpl.
  - rewrite xorb_false_r. reflexivity.
  - rewrite IH, (IH vi (pip_step x y vi vj false)), !pip_step_xor.
    rewrite xorb_false_l, xorb_assoc. reflexivity.
Qed.

Lemma last_cons_default {A} (l : list A) : forall a d, last (a :: l) d = last l a.
Proof.
  induction l as [|x l IH]; intros a d; [reflexivity|].
  change (last (a :: x :: l) d) with (last (x :: l) d). rewrite !IH. reflexivity.
Qed.

Lemma pip_loop_snoc x y rest : forall vj w b,
  pip_loop x y vj (rest ++ [w]) b
  = pip_step x y w (last rest vj) (pip_loop x y vj rest b).
Proof.
  induction rest as [|vi rest IH]; intros vj w b; [reflexivity|].
  cbn [app pip_loop]. rewrite IH, last_cons_default. reflexivity.
Qed.

Lemma pip_loop_same_side x y (side : bool) : forall rest vj b,
  JS.gt (snd vj) y = side ->
  (forall v, In v rest -> JS.gt (snd v) y = side) ->
  pip_loop x y vj rest b = b.
Proof.
  induction rest as [|vi rest IH]; intros vj b Hj Hall; [reflexivity|]. simpl.
  assert (Hi : JS.gt (snd vi) y = side) by (apply Hall; left; reflexivity).
  rewrite IH; [|exact Hi | intros v Hv; apply Hall; right; exact Hv].
  rewrite pip_step_xor. unfold crosses, JS.bool_neq. rewrite Hi, Hj, xorb_nilpotent.
  apply xorb_false_r.
Qed.

Lemma last_In_cons {A} (l : list A) (d : A) : l <> [] -> In (last l d) l.
Proof.
  intros H. destruct (exists_last H) as [l' [x ->]]. rewrite last_last. apply in_elt.
Qed.

Lemma PointInPolygonQ_same_side (side : bool) (pt : point) (points : list point) :
  (forall v, In v points -> JS.gt (snd v) (snd pt) = side) ->
  PointInPolygonQ pt points = false.
Proof.
  intros H. unfold PointInPolygonQ, pointInPolygonNested.
  destruct points as [|v0 vs]; [reflexivity|].
  apply (pip_loop_same_side _ _ side); [|exact H].
  apply H. apply last_In_cons. discriminate.
Qed.

(** X11: a point is reported outside a polygon that has no vertex with a
    greater Y, and outside one whose vertices all have a greater Y; the
    empty polygon and a point with a NaN for Y are instances. *)
Theorem PointInPolygonQ_outside_rows (pt : point) (points : list point) :
  (forall v, In v points -> JS.gt (snd v) (snd pt) = false)
  \/ (forall v, In v points -> JS.gt (snd v) (snd pt) = true) ->
  PointInPolygonQ pt points = false.
Proof.
  intros [H | H]; [apply (PointInPolygonQ_same_side false) |
                   apply (PointInPolygonQ_same_side true)]; exact H.
Qed.

Lemma PointInPolygonQ_outside_rows_square :
  PointInPolygonQ (5, 10) Sample.square = false.
Proof.
  apply (PointInPolygonQ_outside_rows (5, 10) Sample.square).
  left. intros v Hv. simpl in Hv.
  repeat (destruct Hv as [<- | Hv]; [reflexivity|]). contradiction.
Defined.

Lemma crosses_same x y v : crosses x y v v = false.
Proof. unfold crosses, JS.bool_neq. rewrite xorb_nilpotent. reflexivity. Qed.

Lemma PointInPolygonQ_snoc (pt v : point) (vs : list point) :
  PointInPolygonQ pt (vs ++ [v]) = pip_loop (fst pt) (snd pt) v (vs ++ [v]) false.
Proof.
  unfold PointInPolygonQ, pointInPolygonNested.
  destruct (vs ++ [v]) as [|w ws] eqn:E; [destruct vs; discriminate|].
  rewrite <- E, last_last. reflexivity.
Qed.

Lemma PointInPolygonQ_rotate (pt v : point) (vs : list point) :
  PointInPolygonQ pt (vs ++ [v]) = PointInPolygonQ pt (v :: vs).
Proof.
  rewrite PointInPolygonQ_snoc. unfold PointInPolygonQ, pointInPolygonNested.
  rewrite pip_loop_snoc. cbn [pip_loop].
  rewrite (pip_loop_xor _ _ vs v (pip_step _ _ _ _ _)), !pip_step_xor.
  rewrite xorb_false_l, last_cons_default.
  apply xorb_comm.
Qed.

(** X12: the answer of [PointInPolygonQ] does not depend on the vertex the
    list of the polygon starts with, and repeating the first vertex at the
    end, as a closed hull does, leaves it unchanged. *)
Theorem PointInPolygonQ_cyclic (pt v : point) (vs : list point) :
  PointInPolygonQ pt (vs ++ [v]) = PointInPolygonQ pt (v :: vs)
  /\ PointInPolygonQ pt (v :: vs ++ [v]) = PointInPolygonQ pt (v :: vs).
Proof.
  split; [apply PointInPolygonQ_rotate|].
  rewrite <- (PointInPolygonQ_rotate pt v vs), PointInPolygonQ_snoc.
  unfold PointInPolygonQ, pointInPolygonNested.
  rewrite last_cons_default, last_last. cbn [pip_loop].
  rewrite pip_step_xor, crosses_same. reflexivity.
Qed.

(** *** A range of the vertex array *)

Lemma pip_range_loop_slice x y (vs : list point) (start : Z) (sl : list point) :
  (0 <= start)%Z ->
  (forall a, (a < List.length sl)%nat ->
             nth_error vs (Z.to_nat start + a) = nth_error sl a) ->
  forall rest a vj j b,
    skipn a sl = rest ->
    JS.index vs (j + start) = Some vj ->
    pip_range_loop x y vs start (List.length rest) (Z.of_nat a) j b
    = Some (pip_loop x y vj rest b).
Proof.
  intros Hstart Hsl. induction rest as [|vi rest IH]; intros a vj j b Hskip Hj.
  - reflexivity.
  - assert (Hnth : nth_error sl a = Some vi).
    { rewrite <- (Nat.add_0_r a), <- nth_error_skipn, Hskip. reflexivity. }
    assert (Ha : (a < List.length sl)%nat) by (apply nth_error_Some; congruence).
    assert (Hi : JS.index vs (Z.of_nat a + start) = Some vi).
    { unfold JS.index. destruct (Z.ltb_spec (Z.of_nat a + start) 0); [lia|].
      replace (Z.to_nat (Z.of_nat a + start)) with (Z.to_nat start + a)%nat by lia.
      rewrite Hsl by exact Ha. exact Hnth. }
    cbn [List.length pip_range_loop pip_loop]. rewrite Hi, Hj.
    replace (Z.of_nat a + 1)%Z with (Z.of_nat (S a)) by lia.
    apply IH; [|exact Hi].
    rewrite (skipn_nth_error sl a vi Hnth) in Hskip. congruence.
Qed.

Lemma nth_error_last {A} (l : list A) (d : A) :
  l <> [] -> nth_error l (List.length l - 1) = Some (last l d).
Proof.
  intros H. destruct (exists_last H) as [l' [x ->]].
  rewrite last_last, length_app. simpl.
  rewrite nth_error_app2 by lia.
  replace (List.length l' + 1 - 1 - List.length l')%nat with 0%nat by lia. reflexivity.
Qed.

Lemma pointInPolygonNested_nonempty (pt : point) (sl : list point) (d : point) :
  sl <> [] ->
  pointInPolygonNested pt sl = pip_loop (fst pt) (snd pt) (last sl d) sl false.
Proof.
  destruct sl as [|v0 sl']; [contradiction|]. intros _.
  unfold pointInPolygonNested. rewrite !last_cons_default. reflexivity.
Qed.

(** Within the bounds of the array the loop sees the slice
    [vs.slice(start, end)]. *)
Lemma pip_range_inside (pt : point) (vs : list point) (s e : Z) :
  (0 <= s)%Z -> (s < e)%Z -> (e <= JS.length vs)%Z ->
  pip_range_loop (fst pt) (snd pt) vs s (Z.to_nat (e - s)) 0 (e - s - 1) false
  = Some (pointInPolygonNested pt (firstn (Z.to_nat (e - s)) (skipn (Z.to_nat s) vs))).
Proof.
  intros Hs Hse He. unfold JS.length in He.
  remember (firstn (Z.to_nat (e - s)) (skipn (Z.to_nat s) vs)) as sl eqn:Esl.
  assert (Hlen : List.length sl = Z.to_nat (e - s)).
  { rewrite Esl, length_firstn, length_skipn. lia. }
  assert (Hsl : forall a, (a < List.length sl)%nat ->
                  nth_error vs (Z.to_nat s + a) = nth_error sl a).
  { intros a Ha. rewrite Esl, nth_error_firstn, nth_error_skipn.
    destruct (Nat.ltb_spec a (Z.to_nat (e - s))); [reflexivity | lia]. }
  assert (Hne : sl <> []) by (intros E; rewrite E in Hlen; simpl in Hlen; lia).
  rewrite (pointInPolygonNested_nonempty pt sl pt Hne), <- Hlen.
  apply (pip_range_loop_slice _ _ vs s sl Hs Hsl sl 0%nat); [reflexivity|].
  unfold JS.index. destruct (Z.ltb_spec (e - s - 1 + s) 0); [lia|].
  replace (Z.to_nat (e - s - 1 + s)) with (Z.to_nat s + (List.length sl - 1))%nat by lia.
  rewrite Hsl by lia. apply nth_error_last. exact Hne.
Qed.

(** X13: [pointInPolygonNested] with [start] and [end].  Left undefined
    they stand for the whole array.  Given as integers, an empty range
    gives [false] without a read; a range that leaves the array raises a
    [TypeError]; any other range is treated as the polygon
    [vs.slice(start, end)]. *)
Theorem pointInPolygonNested_range_slice (pt : point) (vs : list point) (s e : Z) :
  pointInPolygonNested_range pt vs None None = Some (pointInPolygonNested pt vs)
  /\ pointInPolygonNested_range pt vs (Some s) (Some e)
     = if (e <=? s)%Z then Some false
       else if (s <? 0)%Z || (JS.length vs <? e)%Z then None
       else Some (pointInPolygonNested pt
                    (firstn (Z.to_nat (e - s)) (skipn (Z.to_nat s) vs))).
Proof.
  unfold pointInPolygonNested_range. split.
  - destruct vs as [|v0 vs'] eqn:E; [reflexivity|]. rewrite <- E.
    assert (Hpos : (0 < JS.length vs)%Z) by (rewrite E; unfold JS.length; simpl; lia).
    rewrite (pip_range_inside pt vs 0 (JS.length vs)) by lia.
    unfold JS.length. rewrite Z.sub_0_r, Nat2Z.id. simpl skipn. rewrite firstn_all.
    reflexivity.
  - destruct (Z.leb_spec e s) as [Hle | Hlt].
    + replace (Z.to_nat (e - s)) with 0%nat by lia. reflexivity.
    + destruct (Z.ltb_spec s 0) as [Hneg | Hs]; simpl orb.
      * destruct (Z.to_nat (e - s)) as [|n] eqn:En; [lia|]. cbn [pip_range_loop].
        rewrite Z.add_0_l. unfold JS.index at 1.
        destruct (Z.ltb_spec s 0); [reflexivity | lia].
      * destruct (Z.ltb_spec (JS.length vs) e) as [Hout | Hin].
        -- destruct (Z.to_nat (e - s)) as [|n] eqn:En; [lia|]. cbn [pip_range_loop].
           destruct (JS.index vs (0 + s)); [|reflexivity].
           unfold JS.index. destruct (Z.ltb_spec (e - s - 1 + s) 0); [reflexivity|].
           unfold JS.length in Hout.
           rewrite (proj2 (nth_error_None vs (Z.to_nat (e - s - 1 + s)))) by lia.
           reflexivity.
        -- apply pip_range_inside; assumption.
Qed.

(** ** Arithmetic on numbers

    What [distance] and [getLineLineCollision] rely on, from the
    specification of IEEE-754 subtraction, multiplication and square
    root. *)

Definition zero_or_nan (x : spec_float) : Prop :=
  match x with
  | S754_zero _ | S754_nan => True
  | _ => False
  end.

Lemma SFsub_self (x : spec_float) :
  SF64sub x x = S754_zero false \/ SF64sub x x = S754_nan.
Proof.
  destruct x as [s|s| |s m e]; unfold SF64sub, SFsub.
  - left. destruct s; reflexivity.
  - right. destruct s; reflexivity.
  - right. reflexivity.
  - left. cbv zeta. rewrite Z.sub_diag. reflexivity.
Qed.

Lemma sub_self (x : float) : zero_or_nan (Prim2SF (x - x)).
Proof.
  rewrite sub_spec. destruct (SFsub_self (Prim2SF x)) as [-> | ->]; exact I.
Qed.

Lemma SFmul_zero_or_nan_l (x y : spec_float) :
  zero_or_nan x -> zero_or_nan (SF64mul x y).
Proof.
  destruct x as [sx|sx| |sx mx ex]; intros H; try contradiction;
    destruct y as [sy|sy| |sy my ey]; exact I.
Qed.

Lemma SFmul_zero_or_nan_r (x y : spec_float) :
  zero_or_nan y -> zero_or_nan (SF64mul x y).
Proof.
  destruct y as [sy|sy| |sy my ey]; intros H; try contradiction;
    destruct x as [sx|sx| |sx mx ex]; exact I.
Qed.

Lemma SFsub_zero_or_nan (x y : spec_float) :
  zero_or_nan x -> zero_or_nan y -> zero_or_nan (SF64sub x y).
Proof.
  destruct x as [sx|sx| |sx mx ex]; intros Hx; try contradiction;
    destruct y as [sy|sy| |sy my ey]; intros Hy; try contradiction;
    try exact I.
  destruct sx, sy; exact I.
Qed.

Lemma strict_eq_zero (d : float) :
  Prim2SF d <> S754_nan -> zero_or_nan (Prim2SF d) -> JS.strict_eq d 0 = true.
Proof.
  unfold JS.strict_eq. rewrite FloatAxioms.eqb_spec.
  change (Prim2SF 0) with (S754_zero false).
  destruct (Prim2SF d); intros Hn H; try contradiction; reflexivity.
Qed.

(** ** Where the cross product is exact

    Multiplication rounds the exact product to the nearest number, so two
    products with the same exact value are the same number; and
    subtraction and multiplication are exact whenever the exact result is
    a number: here, an integer of magnitude [2^53] at most.  From the
    specification of the IEEE-754 operations. *)

Lemma Some_eq (A : Type) (x y : A) : Some x = Some y -> x = y.
Proof. congruence. Qed.

(** *** The same number from another mantissa and exponent *)

Section Scale.

Local Open Scope Z_scope.

Lemma iter_pos_nat (A : Type) (f : A -> A) (p : positive) : forall x,
  iter_pos f p x = Nat.iter (Pos.to_nat p) f x.
Proof.
  induction p as [p IH|p IH|]; intros x; simpl iter_pos.
  - rewrite !IH, Pos2Nat.inj_xI. simpl Nat.mul. rewrite Nat.add_0_r.
    rewrite Nat.iter_succ_r, Nat.iter_add. reflexivity.
  - rewrite !IH, Pos2Nat.inj_xO. simpl Nat.mul. rewrite Nat.add_0_r.
    rewrite Nat.iter_add. reflexivity.
  - reflexivity.
Qed.

Lemma iter_xO_nat (M : positive) (k : nat) :
  Zpos (Nat.iter k xO M) = Zpos M * 2 ^ Z.of_nat k.
Proof.
  induction k as [|k IH].
  - simpl. lia.
  - rewrite Nat.iter_succ, Pos2Z.inj_xO, IH, Nat2Z.inj_succ, Z.pow_succ_r by lia. ring.
Qed.

Lemma digits2_pos_iter_xO (M : positive) (k : nat) :
  Zpos (digits2_pos (Nat.iter k xO M)) = Zpos (digits2_pos M) + Z.of_nat k.
Proof.
  induction k as [|k IH].
  - simpl. lia.
  - rewrite Nat.iter_succ. simpl digits2_pos. rewrite Pos2Z.inj_succ, IH. lia.
Qed.

(** Shifting out the zero bits that a shift to the left brought in. *)
Lemma shr_zero_bits (k : nat) : forall M : positive,
  Nat.iter k shr_1 (Build_shr_record (Zpos (Nat.iter k xO M)) false false)
  = Build_shr_record (Zpos M) false false.
Proof.
  induction k as [|k IH]; intros M; [reflexivity|].
  rewrite Nat.iter_succ_r. rewrite Nat.iter_succ. simpl shr_1.
  rewrite <- (IH M). reflexivity.
Qed.

(** Rounding depends on the number, not on the mantissa and exponent it is
    given by. *)
Lemma binary_round_aux_scale (s : bool) (M : positive) (E : Z) (k : nat) :
  E <= fexp prec emax (Zpos (digits2_pos M) + E) ->
  binary_round_aux prec emax s (Zpos (Nat.iter k xO M)) (E - Z.of_nat k) loc_Exact
  = binary_round_aux prec emax s (Zpos M) E loc_Exact.
Proof.
  intros Ht. unfold binary_round_aux.
  assert (Hs : shr_fexp prec emax (Zpos (Nat.iter k xO M)) (E - Z.of_nat k) loc_Exact
               = shr_fexp prec emax (Zpos M) E loc_Exact).
  { unfold shr_fexp. simpl Zdigits2. simpl shr_record_of_loc.
    rewrite digits2_pos_iter_xO.
    replace (Zpos (digits2_pos M) + Z.of_nat k + (E - Z.of_nat k))
      with (Zpos (digits2_pos M) + E) by lia.
    set (t := fexp prec emax (Zpos (digits2_pos M) + E)) in *.
    destruct k as [|k].
    - simpl Nat.iter. rewrite Z.sub_0_r. reflexivity.
    - unfold shr.
      destruct (t - (E - Z.of_nat (S k))) as [|p|p] eqn:Ep; try lia.
      rewrite iter_pos_nat.
      destruct (t - E) as [|q|q] eqn:Eq; try lia.
      + replace (Pos.to_nat p) with (S k) by lia.
        rewrite shr_zero_bits. f_equal. lia.
      + rewrite iter_pos_nat.
        replace (Pos.to_nat p) with (Pos.to_nat q + S k)%nat by lia.
        rewrite Nat.iter_add, shr_zero_bits. f_equal. lia. }
  rewrite Hs. reflexivity.
Qed.


(** A valid mantissa has 53 bits, or its exponent is the least one. *)
Lemma bounded_cases (m : positive) (e : Z) :
  bounded prec emax m e = true ->
  -1074 <= e /\ (Zpos (digits2_pos m) = 53 \/ e = -1074).
Proof.
  unfold bounded, canonical_mantissa, fexp, emin, prec, emax. intros H.
  apply andb_true_iff in H. destruct H as [H _]. apply Z.eqb_eq in H. lia.
Qed.

Lemma digits2_pos_mul (m1 m2 : positive) :
  Zpos (digits2_pos m1) <= Zpos (digits2_pos (m1 * m2)).
Proof.
  pose proof (digits2_pos_lower m1) as Hl.
  pose proof (digits2_pos_bound (m1 * m2)) as Hu.
  assert (H : 2 ^ (Zpos (digits2_pos m1) - 1) < 2 ^ Zpos (digits2_pos (m1 * m2))).
  { rewrite Pos2Z.inj_mul in Hu. nia. }
  apply Z.pow_lt_mono_r_iff in H; lia.
Qed.

(** The product of two valid numbers is rounded from a mantissa that is
    not shifted to the left. *)
Lemma product_not_aligned (m1 m2 : positive) (e1 e2 : Z) :
  bounded prec emax m1 e1 = true -> bounded prec emax m2 e2 = true ->
  e1 + e2 <= fexp prec emax (Zpos (digits2_pos (m1 * m2)) + (e1 + e2)).
Proof.
  intros H1 H2.
  destruct (bounded_cases m1 e1 H1) as [L1 C1], (bounded_cases m2 e2 H2) as [L2 C2].
  pose proof (digits2_pos_mul m1 m2) as D1.
  pose proof (digits2_pos_mul m2 m1) as D2. rewrite (Pos.mul_comm m2 m1) in D2.
  unfold fexp, emin, prec, emax. lia.
Qed.

(** Two products of valid numbers with the same sign and the same exact
    value are rounded to the same number. *)
Lemma binary_round_aux_same (s : bool) (m1 m2 m3 m4 : positive) (e1 e2 e3 e4 : Z) :
  bounded prec emax m1 e1 = true -> bounded prec emax m2 e2 = true ->
  bounded prec emax m3 e3 = true -> bounded prec emax m4 e4 = true ->
  Zpos m1 * 2 ^ (e1 + 1074) * (Zpos m2 * 2 ^ (e2 + 1074))
  = Zpos m3 * 2 ^ (e3 + 1074) * (Zpos m4 * 2 ^ (e4 + 1074)) ->
  binary_round_aux prec emax s (Zpos (m1 * m2)) (e1 + e2) loc_Exact
  = binary_round_aux prec emax s (Zpos (m3 * m4)) (e3 + e4) loc_Exact.
Proof.
  intros H1 H2 H3 H4 Heq.
  pose proof (product_not_aligned m1 m2 e1 e2 H1 H2) as A12.
  pose proof (product_not_aligned m3 m4 e3 e4 H3 H4) as A34.
  destruct (bounded_cases m1 e1 H1) as [L1 _], (bounded_cases m2 e2 H2) as [L2 _].
  destruct (bounded_cases m3 e3 H3) as [L3 _], (bounded_cases m4 e4 H4) as [L4 _].
  assert (Hval : Zpos (m1 * m2) * 2 ^ (e1 + e2 + 2148)
                 = Zpos (m3 * m4) * 2 ^ (e3 + e4 + 2148)).
  { rewrite !Pos2Z.inj_mul.
    replace (e1 + e2 + 2148) with ((e1 + 1074) + (e2 + 1074)) by lia.
    replace (e3 + e4 + 2148) with ((e3 + 1074) + (e4 + 1074)) by lia.
    rewrite (Z.pow_add_r 2 (e1 + 1074) (e2 + 1074)) by lia.
    rewrite (Z.pow_add_r 2 (e3 + 1074) (e4 + 1074)) by lia.
    generalize dependent (2 ^ (e1 + 1074)). generalize dependent (2 ^ (e2 + 1074)).
    generalize dependent (2 ^ (e3 + 1074)). generalize dependent (2 ^ (e4 + 1074)).
    intros P4 P3 P2 P1 Heq.
    replace (Zpos m1 * Zpos m2 * (P1 * P2)) with (Zpos m1 * P1 * (Zpos m2 * P2)) by ring.
    rewrite Heq. ring. }
  assert (Hscale : forall (M N : positive) (E F : Z),
             0 <= E + 2148 -> E <= F ->
             Zpos M * 2 ^ (E + 2148) = Zpos N * 2 ^ (F + 2148) ->
             M = Nat.iter (Z.to_nat (F - E)) xO N).
  { intros M N E F HE HF HV.
    apply Pos2Z.inj. rewrite iter_xO_nat, Z2Nat.id by lia.
    replace (F + 2148) with ((F - E) + (E + 2148)) in HV by lia.
    rewrite (Z.pow_add_r 2 (F - E) (E + 2148)) in HV by lia.
    assert (P : 0 < 2 ^ (E + 2148)) by (apply Z.pow_pos_nonneg; lia).
    nia. }
  destruct (Z.le_ge_cases (e1 + e2) (e3 + e4)) as [Hle|Hge].
  - rewrite (Hscale (m1 * m2)%positive (m3 * m4)%positive (e1 + e2) (e3 + e4)
               ltac:(lia) Hle Hval).
    replace (e1 + e2) with (e3 + e4 - Z.of_nat (Z.to_nat (e3 + e4 - (e1 + e2)))) at 2
      by (rewrite Z2Nat.id; lia).
    apply binary_round_aux_scale. exact A34.
  - symmetry.
    rewrite (Hscale (m3 * m4)%positive (m1 * m2)%positive (e3 + e4) (e1 + e2)
               ltac:(lia) ltac:(lia) (eq_sym Hval)).
    replace (e3 + e4) with (e1 + e2 - Z.of_nat (Z.to_nat (e1 + e2 - (e3 + e4)))) at 2
      by (rewrite Z2Nat.id; lia).
    apply binary_round_aux_scale. exact A12.
Qed.

Lemma SFscaled_zero (x : spec_float) :
  valid_binary x = true -> SFscaled x = Some 0 -> zero_or_nan x.
Proof.
  destruct x as [s|s| |s m e]; intros Hv H; try discriminate H; try exact I.
  exfalso. destruct (bounded_cases m e Hv) as [L _].
  assert (P : 0 < 2 ^ (e + 1074)) by (apply Z.pow_pos_nonneg; lia).
  unfold SFscaled in H. apply Some_eq in H. destruct s; nia.
Qed.

(** The two products of a cross product that is zero in exact arithmetic
    are the same number, or both zero. *)
Lemma SFmul_same (x y x' y' : spec_float) (a b c d : Z) :
  valid_binary x = true -> valid_binary y = true ->
  valid_binary x' = true -> valid_binary y' = true ->
  SFscaled x = Some a -> SFscaled y = Some b ->
  SFscaled x' = Some c -> SFscaled y' = Some d ->
  a * b = c * d ->
  zero_or_nan (SF64sub (SF64mul x y) (SF64mul x' y')).
Proof.
  intros Vx Vy Vx' Vy' Ha Hb Hc Hd Heq.
  destruct (Z.eq_dec (a * b) 0) as [Z0|N0].
  - (* both products are zero *)
    assert (Z1 : c * d = 0) by lia.
    apply SFsub_zero_or_nan.
    + apply Z.mul_eq_0 in Z0. destruct Z0 as [-> | ->].
      * apply SFmul_zero_or_nan_l, SFscaled_zero; assumption.
      * apply SFmul_zero_or_nan_r, SFscaled_zero; assumption.
    + apply Z.mul_eq_0 in Z1. destruct Z1 as [-> | ->].
      * apply SFmul_zero_or_nan_l, SFscaled_zero; assumption.
      * apply SFmul_zero_or_nan_r, SFscaled_zero; assumption.
  - assert (N1 : c * d <> 0) by lia.
    destruct x as [sx|sx| |sx mx ex]; try discriminate Ha;
      [apply Some_eq in Ha; subst a; lia|].
    destruct y as [sy|sy| |sy my ey]; try discriminate Hb;
      [apply Some_eq in Hb; subst b; lia|].
    destruct x' as [sx'|sx'| |sx' mx' ex']; try discriminate Hc;
      [apply Some_eq in Hc; subst c; lia|].
    destruct y' as [sy'|sy'| |sy' my' ey']; try discriminate Hd;
      [apply Some_eq in Hd; subst d; lia|].
    unfold SFscaled in Ha, Hb, Hc, Hd.
    apply Some_eq in Ha, Hb, Hc, Hd.
    simpl valid_binary in Vx, Vy, Vx', Vy'.
    destruct (bounded_cases _ _ Vx) as [Lx _], (bounded_cases _ _ Vy) as [Ly _].
    destruct (bounded_cases _ _ Vx') as [Lx' _], (bounded_cases _ _ Vy') as [Ly' _].
    assert (Px : 0 < Zpos mx * 2 ^ (ex + 1074))
      by (apply Z.mul_pos_pos; [lia | apply Z.pow_pos_nonneg; lia]).
    assert (Py : 0 < Zpos my * 2 ^ (ey + 1074))
      by (apply Z.mul_pos_pos; [lia | apply Z.pow_pos_nonneg; lia]).
    assert (Px' : 0 < Zpos mx' * 2 ^ (ex' + 1074))
      by (apply Z.mul_pos_pos; [lia | apply Z.pow_pos_nonneg; lia]).
    assert (Py' : 0 < Zpos my' * 2 ^ (ey' + 1074))
      by (apply Z.mul_pos_pos; [lia | apply Z.pow_pos_nonneg; lia]).
    set (A := Zpos mx * 2 ^ (ex + 1074)) in *. set (B := Zpos my * 2 ^ (ey + 1074)) in *.
    set (C := Zpos mx' * 2 ^ (ex' + 1074)) in *. set (D := Zpos my' * 2 ^ (ey' + 1074)) in *.
    assert (PAB : 0 < A * B) by (apply Z.mul_pos_pos; assumption).
    assert (PCD : 0 < C * D) by (apply Z.mul_pos_pos; assumption).
    assert (Hs : xorb sx sy = xorb sx' sy' /\ A * B = C * D).
    { subst a b c d. destruct sx, sy, sx', sy'; simpl; split; try reflexivity; nia. }
    destruct Hs as [Hs Hv].
    unfold SF64mul, SFmul. rewrite Hs.
    rewrite (binary_round_aux_same (xorb sx' sy') mx my mx' my' ex ey ex' ey'
               Vx Vy Vx' Vy' Hv).
    destruct (SFsub_self (binary_round_aux prec emax (xorb sx' sy') (Zpos (mx' * my'))
                            (ex' + ey') loc_Exact)) as [E | E]; rewrite E; exact I.
Qed.

End Scale.

(** *** Integers *)

Section Exact.

Local Open Scope Z_scope.

Definition signed (s : bool) (n : Z) : Z := if s then - n else n.

Lemma digits2_pos_unique (M : positive) (k : Z) :
  2 ^ (k - 1) <= Zpos M < 2 ^ k -> Zpos (digits2_pos M) = k.
Proof.
  intros [Hl Hu].
  assert (Hk : 0 <= k).
  { destruct (Z.leb_spec 0 k) as [H|H]; [exact H|].
    rewrite (Z.pow_neg_r 2 k) in Hu by lia. lia. }
  pose proof (digits2_pos_le M k Hk Hu) as H1.
  pose proof (digits2_pos_bound M) as H2.
  assert (H : 2 ^ (k - 1) < 2 ^ Zpos (digits2_pos M)) by lia.
  apply Z.pow_lt_mono_r_iff in H; lia.
Qed.

Lemma SFinteger_finite (s : bool) (m : positive) (e n : Z) :
  0 < n -> (e <= 0 -> Zpos m = n * 2 ^ (- e)) -> (0 <= e -> n = Zpos m * 2 ^ e) ->
  SFinteger (S754_finite s m e) = Some (signed s n).
Proof.
  intros Hn Hneg Hpos. unfold SFinteger, signed.
  destruct (Z.leb_spec 0 e) as [He|He].
  - rewrite (Hpos He). reflexivity.
  - assert (P : 0 < 2 ^ (- e)) by (apply Z.pow_pos_nonneg; lia).
    rewrite (Hneg ltac:(lia)), Z.mod_mul, Z.div_mul by lia. reflexivity.
Qed.

Lemma fexp_normal (d e : Z) : -1021 <= d + e -> fexp prec emax (d + e) = d + e - 53.
Proof. unfold fexp, emin, prec, emax. lia. Qed.

(** Rounding is exact on an integer [n] from [1] to [2^53], given by the
    mantissa [n * 2^(-e)] at an exponent [e <= 0]: the bits shifted out are
    all zero, and the result stands for [n]. *)
Lemma binary_round_aux_integer (s : bool) (M : positive) (e n : Z) :
  e <= 0 -> 0 < n <= 2 ^ 53 -> Zpos M = n * 2 ^ (- e) ->
  exists m' e',
    binary_round_aux prec emax s (Zpos M) e loc_Exact = S754_finite s m' e'
    /\ SFinteger (S754_finite s m' e') = Some (signed s n).
Proof.
  intros He Hn HM.
  set (d := Zpos (digits2_pos M)).
  pose proof (digits2_pos_bound M) as Hu. pose proof (digits2_pos_lower M) as Hl.
  fold d in Hu, Hl.
  assert (P : 0 < 2 ^ (- e)) by (apply Z.pow_pos_nonneg; lia).
  assert (Hd1 : 1 <= d + e).
  { assert (H : 2 ^ (- e) < 2 ^ d) by nia. apply Z.pow_lt_mono_r_iff in H; lia. }
  assert (Hd2 : d + e <= 54).
  { assert (H : 2 ^ (d - 1) <= 2 ^ (53 - e)).
    { replace (53 - e) with (53 + - e) by lia. rewrite Z.pow_add_r by lia. nia. }
    apply Z.pow_le_mono_r_iff in H; lia. }
  set (t := d + e - 53).
  unfold binary_round_aux.
  assert (Hs1 : shr_fexp prec emax (Zpos M) e loc_Exact
                = shr (Build_shr_record (Zpos M) false false) e (t - e)).
  { unfold shr_fexp. simpl Zdigits2. simpl shr_record_of_loc. fold d.
    rewrite fexp_normal by lia. reflexivity. }
  rewrite Hs1.
  destruct (Z.leb_spec (t - e) 0) as [Hn0|Hn0].
  - (* no shift *)
    assert (E : shr (Build_shr_record (Zpos M) false false) e (t - e)
                = (Build_shr_record (Zpos M) false false, e)).
    { unfold shr. destruct (t - e); try reflexivity. lia. }
    rewrite E. cbn [shr_m loc_of_shr_record shr_r shr_s].
    change (round_nearest_even (Zpos M) loc_Exact) with (Zpos M).
    rewrite Hs1, E. cbn [shr_m].
    replace (e <=? emax - prec) with true
      by (symmetry; apply Z.leb_le; unfold emax, prec; lia).
    exists M, e. split; [reflexivity|].
    apply SFinteger_finite; [lia | intros _; exact HM |].
    intros He0. assert (e = 0) by lia. subst e. simpl in HM. simpl. lia.
  - (* an exact shift to 53 bits *)
    pose proof (shr_spec (Build_shr_record (Zpos M) false false) e (t - e)
                  ltac:(simpl; lia) ltac:(lia)) as [He' Hsh].
    destruct (shr (Build_shr_record (Zpos M) false false) e (t - e)) as [mrs' e'].
    cbn [fst snd] in He', Hsh.
    assert (Et : e' = t) by lia. clear He'. subst e'.
    destruct Hsh as [Em Hflags]. cbn [shr_m shr_r shr_s] in Em, Hflags.
    assert (Pt : 0 < 2 ^ (t - e)) by (apply Z.pow_pos_nonneg; lia).
    (* [M] is a multiple of [2^(t - e)] *)
    assert (Hq : exists q, 0 < q /\ Zpos M = q * 2 ^ (t - e)
                           /\ (t <= 0 -> q = n * 2 ^ (- t))
                           /\ (0 <= t -> n = q * 2 ^ t)).
    { destruct (Z.leb_spec t 0) as [Ht|Ht].
      - exists (n * 2 ^ (- t)).
        assert (P' : 0 < 2 ^ (- t)) by (apply Z.pow_pos_nonneg; lia).
        split; [nia|]. split; [|split; [reflexivity|]].
        + rewrite HM, <- Z.mul_assoc, <- Z.pow_add_r by lia. f_equal. f_equal. lia.
        + intros Ht0. assert (t = 0) by lia. subst t. replace (d + e - 53) with 0 by lia.
          simpl. lia.
      - assert (Et1 : t = 1) by lia.
        assert (En : n = 2 ^ 53).
        { assert (H : 2 ^ (53 - e) <= Zpos M).
          { replace (53 - e) with (d - 1) by lia. exact Hl. }
          replace (53 - e) with (53 + - e) in H by lia. rewrite Z.pow_add_r in H by lia.
          nia. }
        exists (2 ^ 52). split; [lia|]. split; [|split; [lia|]].
        + rewrite HM, En, Et1, <- !Z.pow_add_r by lia. f_equal. lia.
        + intros _. rewrite En, Et1. reflexivity. }
    destruct Hq as [q [Hq0 [HMq [Hqn Hqp]]]].
    assert (Em' : shr_m mrs' = q) by (rewrite Em, HMq, Z.div_mul by lia; reflexivity).
    assert (Hmod : Zpos M mod 2 ^ (t - e) = 0) by (rewrite HMq; apply Z.mod_mul; lia).
    destruct (Hflags eq_refl eq_refl Hmod) as [Hr Hs].
    rewrite (loc_exact_of_flags mrs' Hr Hs), round_nearest_even_exact, Em'.
    destruct q as [|q|q]; try lia.
    assert (Hdq : Zpos (digits2_pos q) = 53).
    { apply digits2_pos_unique.
      assert (A : 2 ^ (d - 1) = 2 ^ 52 * 2 ^ (t - e)).
      { rewrite <- Z.pow_add_r by lia. f_equal. lia. }
      assert (B : 2 ^ d = 2 ^ 53 * 2 ^ (t - e)).
      { rewrite <- Z.pow_add_r by lia. f_equal. lia. }
      rewrite A in Hl. rewrite B in Hu. rewrite HMq in Hl, Hu.
      change (53 - 1) with 52. split; nia. }
    assert (Hs2 : shr_fexp prec emax (Zpos q) t loc_Exact
                  = (Build_shr_record (Zpos q) false false, t)).
    { unfold shr_fexp. simpl Zdigits2. simpl shr_record_of_loc. rewrite Hdq.
      rewrite fexp_normal by lia. replace (53 + t - 53 - t) with 0 by lia. reflexivity. }
    rewrite Hs2. cbn [shr_m].
    replace (t <=? emax - prec) with true
      by (symmetry; apply Z.leb_le; unfold emax, prec; lia).
    exists q, t. split; [reflexivity|].
    apply SFinteger_finite; [lia | | exact Hqp].
    intros Ht. apply Hqn. exact Ht.
Qed.

Lemma binary_round_integer (s : bool) (M : positive) (e n : Z) :
  e <= 0 -> 0 < n <= 2 ^ 53 -> Zpos M = n * 2 ^ (- e) ->
  exists m' e',
    binary_round prec emax s M e = S754_finite s m' e'
    /\ SFinteger (S754_finite s m' e') = Some (signed s n).
Proof.
  intros He Hn HM. unfold binary_round.
  pose proof (shl_align_spec M e (fexp prec emax (Zpos (digits2_pos M) + e))) as Hal.
  cbv zeta in Hal. destruct (shl_align M e _) as [mz ez]. cbn [fst snd] in Hal.
  destruct Hal as [_ [Hez [_ [Hmz _]]]].
  apply binary_round_aux_integer; [lia | exact Hn |].
  rewrite Hmz, HM, <- Z.mul_assoc, <- Z.pow_add_r by lia. f_equal. f_equal. lia.
Qed.

(** [x] is the integer [a], held at an exponent that is not positive. *)
Definition represents (x : spec_float) (a : Z) : Prop :=
  match x with
  | S754_zero _ => a = 0
  | S754_finite s m e => e <= 0 /\ exists n, 0 < n /\ a = signed s n /\ Zpos m = n * 2 ^ (- e)
  | _ => False
  end.

Lemma shl_align_le (m : positive) (e ez : Z) :
  ez <= e -> Zpos (fst (shl_align m e ez)) = Zpos m * 2 ^ (e - ez).
Proof.
  intros H. pose proof (shl_align_spec m e ez) as Hal. cbv zeta in Hal.
  destruct Hal as [_ [_ [E [Hm _]]]]. rewrite Hm, (E H). reflexivity.
Qed.

Lemma binary_normalize_integer (D ez c : Z) :
  ez <= 0 -> Z.abs c <= 2 ^ 53 -> D = c * 2 ^ (- ez) ->
  SFinteger (binary_normalize prec emax D ez false) = Some c.
Proof.
  intros Hez Hc HD.
  assert (P : 0 < 2 ^ (- ez)) by (apply Z.pow_pos_nonneg; lia).
  destruct D as [|p|p]; simpl binary_normalize.
  - assert (c = 0) by nia. subst c. reflexivity.
  - destruct (binary_round_integer false p ez c Hez ltac:(nia) HD)
      as [m' [e' [E1 E2]]].
    rewrite E1. exact E2.
  - destruct (binary_round_integer true p ez (- c) Hez ltac:(nia) ltac:(lia))
      as [m' [e' [E1 E2]]].
    rewrite E1, E2. unfold signed. f_equal. lia.
Qed.

(** Subtraction and multiplication of integers are exact as long as the
    result has magnitude [2^53] at most. *)
Lemma SFsub_integer (x y : spec_float) (a b : Z) :
  represents x a -> represents y b -> Z.abs (a - b) <= 2 ^ 53 ->
  SFinteger (SF64sub x y) = Some (a - b).
Proof.
  destruct x as [sx|sx| |sx mx ex], y as [sy|sy| |sy my ey]; simpl represents;
    try contradiction.
  - intros -> -> _. destruct sx, sy; reflexivity.
  - intros -> [He [n [Hn [-> HM]]]] _. unfold SF64sub, SFsub.
    rewrite (SFinteger_finite (negb sy) my ey n Hn); [| intros _; exact HM |].
    + f_equal. unfold signed. destruct sy; simpl; lia.
    + intros He0. assert (ey = 0) by lia. subst ey. simpl in HM. simpl. lia.
  - intros [He [n [Hn [-> HM]]]] -> _. unfold SF64sub, SFsub.
    rewrite (SFinteger_finite sx mx ex n Hn); [| intros _; exact HM |].
    + f_equal. lia.
    + intros He0. assert (ex = 0) by lia. subst ex. simpl in HM. simpl. lia.
  - intros [Hex [n [Hn [-> HMx]]]] [Hey [k [Hk [-> HMy]]]] Hab.
    unfold SF64sub, SFsub. cbv zeta.
    apply binary_normalize_integer; [lia | exact Hab |].
    rewrite !shl_align_le by lia. rewrite HMx, HMy.
    set (ez := Z.min ex ey).
    assert (Px : n * 2 ^ (- ex) * 2 ^ (ex - ez) = n * 2 ^ (- ez)).
    { rewrite <- Z.mul_assoc, <- Z.pow_add_r by lia. f_equal. f_equal. lia. }
    assert (Py : k * 2 ^ (- ey) * 2 ^ (ey - ez) = k * 2 ^ (- ez)).
    { rewrite <- Z.mul_assoc, <- Z.pow_add_r by lia. f_equal. f_equal. lia. }
    rewrite Px, Py. unfold signed. destruct sx, sy; simpl cond_Zopp; lia.
Qed.

Lemma SFmul_integer (x y : spec_float) (a b : Z) :
  represents x a -> represents y b -> Z.abs (a * b) <= 2 ^ 53 ->
  SFinteger (SF64mul x y) = Some (a * b).
Proof.
  destruct x as [sx|sx| |sx mx ex], y as [sy|sy| |sy my ey]; simpl represents;
    try contradiction.
  - intros -> -> _. reflexivity.
  - intros -> _ _. reflexivity.
  - intros _ -> _. simpl. f_equal. lia.
  - intros [Hex [n [Hn [-> HMx]]]] [Hey [k [Hk [-> HMy]]]] Hab.
    unfold SF64mul, SFmul.
    destruct (binary_round_aux_integer (xorb sx sy) (mx * my) (ex + ey) (n * k))
      as [m' [e' [E1 E2]]].
    + lia.
    + unfold signed in Hab. destruct sx, sy; nia.
    + rewrite Pos2Z.inj_mul, HMx, HMy.
      replace (- (ex + ey)) with (- ex + - ey) by lia.
      rewrite Z.pow_add_r by lia. ring.
    + rewrite E1, E2. f_equal. unfold signed. destruct sx, sy; simpl; lia.
Qed.

(** A valid number that stands for an integer below [2^53] in magnitude
    holds it at an exponent that is not positive. *)
Lemma represents_valid (x : spec_float) (a : Z) :
  valid_binary x = true -> SFinteger x = Some a -> Z.abs a < 2 ^ 53 -> represents x a.
Proof.
  destruct x as [s|s| |s m e]; unfold SFinteger; cbv beta zeta; try discriminate.
  - intros _ H _. inversion H. reflexivity.
  - intros Hv H Ha. simpl represents.
    unfold valid_binary, bounded, canonical_mantissa in Hv.
    apply andb_true_iff in Hv. destruct Hv as [Hc _]. apply Z.eqb_eq in Hc.
    pose proof (digits2_pos_lower m) as Hl.
    destruct (Z.leb_spec 0 e) as [He|He].
    + apply Some_eq in H. rename H into Ea.
      assert (P : 0 < 2 ^ e) by (apply Z.pow_pos_nonneg; lia).
      destruct (Z.eq_dec e 0) as [E0|N0].
      * subst e. split; [lia|]. exists (Zpos m). split; [lia|].
        split; [|simpl; lia]. rewrite Z.pow_0_r, Z.mul_1_r in Ea.
        unfold signed. destruct s; lia.
      * exfalso. unfold fexp, emin, prec, emax in Hc.
        assert (Hd : Zpos (digits2_pos m) = 53) by lia.
        rewrite Hd in Hl. change (53 - 1) with 52 in Hl.
        assert (P2 : 2 ^ 1 <= 2 ^ e) by (apply Z.pow_le_mono_r; lia).
        change (2 ^ 1) with 2 in P2.
        assert (Hbig : 2 ^ 53 <= Zpos m * 2 ^ e).
        { change (2 ^ 53) with (2 ^ 52 * 2). nia. }
        destruct s; lia.
    + destruct (Z.eqb_spec (Zpos m mod 2 ^ (- e)) 0) as [Hmod|Hmod]; [|discriminate].
      apply Some_eq in H. rename H into Ea.
      assert (P : 0 < 2 ^ (- e)) by (apply Z.pow_pos_nonneg; lia).
      split; [lia|]. exists (Zpos m / 2 ^ (- e)).
      assert (Hm : Zpos m = 2 ^ (- e) * (Zpos m / 2 ^ (- e)))
        by (apply Z.div_exact; lia).
      split; [nia|]. split; [unfold signed; destruct s; symmetry; exact Ea | lia].
Qed.

End Exact.

Lemma sub_integer (x y : float) (a b : Z) :
  integer_of x = Some a -> integer_of y = Some b ->
  (Z.abs a <= 2 ^ 52)%Z -> (Z.abs b <= 2 ^ 52)%Z ->
  integer_of (x - y) = Some (a - b)%Z.
Proof.
  intros Hx Hy Ha Hb. unfold integer_of. rewrite sub_spec.
  assert (P : (2 ^ 53 = 2 ^ 52 * 2)%Z) by reflexivity.
  apply SFsub_integer;
    [ apply represents_valid; [apply Prim2SF_valid | exact Hx | lia]
    | apply represents_valid; [apply Prim2SF_valid | exact Hy | lia]
    | lia ].
Qed.

Lemma mul_integer (x y : float) (a b : Z) :
  integer_of x = Some a -> integer_of y = Some b ->
  (Z.abs a <= 2 ^ 26)%Z -> (Z.abs b <= 2 ^ 26)%Z ->
  integer_of (x * y) = Some (a * b)%Z.
Proof.
  intros Hx Hy Ha Hb. unfold integer_of. rewrite mul_spec.
  assert (P : (2 ^ 53 = 2 ^ 26 * 2 ^ 26 * 2)%Z) by reflexivity.
  assert (Q : (0 < 2 ^ 26)%Z) by reflexivity.
  apply SFmul_integer;
    [ apply represents_valid; [apply Prim2SF_valid | exact Hx | lia]
    | apply represents_valid; [apply Prim2SF_valid | exact Hy | lia]
    | rewrite Z.abs_mul; nia ].
Qed.

(** Only [0] and [-0] stand for the integer zero. *)
Lemma integer_zero (x : float) : integer_of x = Some 0%Z -> zero_or_nan (Prim2SF x).
Proof.
  unfold integer_of. destruct (Prim2SF x) as [s|s| |s m e]; unfold SFinteger;
    cbv beta zeta; try discriminate.
  - intros _. exact I.
  - destruct (Z.leb_spec 0 e) as [He|He].
    + intros H. apply Some_eq in H. exfalso.
      assert (P : (0 < 2 ^ e)%Z) by (apply Z.pow_pos_nonneg; lia).
      destruct s; nia.
    + destruct (Z.eqb_spec (Zpos m mod 2 ^ (- e)) 0) as [Hmod|Hmod]; [|discriminate].
      intros H. apply Some_eq in H. exfalso.
      assert (P : (0 < 2 ^ (- e))%Z) by (apply Z.pow_pos_nonneg; lia).
      assert (Hm : (Zpos m = 2 ^ (- e) * (Zpos m / 2 ^ (- e)))%Z)
        by (apply Z.div_exact; lia).
      destruct s; nia.
Qed.

Lemma small_point_spec (p : point) :
  small_point p = true ->
  exists x y, integer_of (fst p) = Some x /\ integer_of (snd p) = Some y
              /\ (Z.abs x <= 2 ^ 25)%Z /\ (Z.abs y <= 2 ^ 25)%Z.
Proof.
  unfold small_point, integer_point.
  destruct (integer_of (fst p)) as [x|]; [|discriminate].
  destruct (integer_of (snd p)) as [y|]; [|discriminate].
  intros H. apply andb_true_iff in H. destruct H as [Hx Hy].
  apply Z.leb_le in Hx, Hy. exists x, y. auto.
Qed.

(** On points with small integer coordinates no operation of the cross
    product rounds: the computed [denom] is the exact one. *)
Lemma denom_of_exact (p0 p1 p2 p3 : point) :
  small_point p0 = true -> small_point p1 = true ->
  small_point p2 = true -> small_point p3 = true ->
  integer_of (denom_of p0 p1 p2 p3) = exact_cross p0 p1 p2 p3.
Proof.
  intros H0 H1 H2 H3.
  destruct (small_point_spec p0 H0) as [x0 [y0 [Ex0 [Ey0 [Bx0 By0]]]]].
  destruct (small_point_spec p1 H1) as [x1 [y1 [Ex1 [Ey1 [Bx1 By1]]]]].
  destruct (small_point_spec p2 H2) as [x2 [y2 [Ex2 [Ey2 [Bx2 By2]]]]].
  destruct (small_point_spec p3 H3) as [x3 [y3 [Ex3 [Ey3 [Bx3 By3]]]]].
  unfold exact_cross, integer_point.
  rewrite Ex0, Ey0, Ex1, Ey1, Ex2, Ey2, Ex3, Ey3.
  unfold denom_of. cbv zeta.
  assert (Hsub : forall a b u v,
             integer_of a = Some u -> integer_of b = Some v ->
             (Z.abs u <= 2 ^ 25)%Z -> (Z.abs v <= 2 ^ 25)%Z ->
             integer_of (b - a) = Some (v - u)%Z /\ (Z.abs (v - u) <= 2 ^ 26)%Z).
  { intros a b u v Ea Eb Bu Bv.
    assert (P26 : (2 ^ 26 = 2 * 2 ^ 25)%Z) by reflexivity.
    assert (P52 : (2 ^ 25 <= 2 ^ 52)%Z) by (apply Z.pow_le_mono_r; lia).
    split; [apply sub_integer; try assumption; lia | lia]. }
  assert (Hmul : forall u v,
             (Z.abs u <= 2 ^ 26)%Z -> (Z.abs v <= 2 ^ 26)%Z -> (Z.abs (u * v) <= 2 ^ 52)%Z).
  { intros u v Bu Bv. rewrite Z.abs_mul. change (2 ^ 52)%Z with (2 ^ 26 * 2 ^ 26)%Z.
    apply Z.mul_le_mono_nonneg; try assumption; apply Z.abs_nonneg. }
  destruct (Hsub _ _ _ _ Ex0 Ex1 Bx0 Bx1) as [Edx10 Bdx10].
  destruct (Hsub _ _ _ _ Ey0 Ey1 By0 By1) as [Edy10 Bdy10].
  destruct (Hsub _ _ _ _ Ex2 Ex3 Bx2 Bx3) as [Edx32 Bdx32].
  destruct (Hsub _ _ _ _ Ey2 Ey3 By2 By3) as [Edy32 Bdy32].
  apply sub_integer.
  - apply mul_integer; assumption.
  - apply mul_integer; assumption.
  - apply Hmul; assumption.
  - apply Hmul; assumption.
Qed.

(** ** Segment intersection, continued *)

(** A cross product that is zero or NaN ends [getLineLineCollision] with
    [false]. *)
Lemma getLineLineCollision_no_denom (p0 p1 p2 p3 : point) :
  zero_or_nan (Prim2SF (denom_of p0 p1 p2 p3)) ->
  getLineLineCollision p0 p1 p2 p3 = None.
Proof.
  intros H. unfold getLineLineCollision. cbv zeta.
  fold (denom_of p0 p1 p2 p3). set (denom := denom_of p0 p1 p2 p3) in *.
  destruct (is_nan denom) eqn:N.
  - assert (E0 : JS.strict_eq denom 0 = false) by (apply eqb_nan_l; exact N).
    assert (Ep : JS.gt denom 0 = false) by (apply ltb_nan_r; exact N).
    rewrite E0, Ep.
    destruct (_ <? 0); [|reflexivity]. simpl.
    destruct (_ <? 0); [|reflexivity]. simpl.
    unfold JS.gt. rewrite (ltb_nan_l denom _ N). reflexivity.
  - rewrite strict_eq_zero; [reflexivity | apply is_nan_spec; exact N | exact H].
Qed.

Lemma strict_eq_cases (a b : float) :
  JS.strict_eq a b = true ->
  (zero_or_nan (Prim2SF a) /\ zero_or_nan (Prim2SF b)) \/ a = b.
Proof.
  unfold JS.strict_eq. rewrite FloatAxioms.eqb_spec. intros H.
  destruct (Prim2SF a) as [sa|sa| |sa ma ea] eqn:Ea,
           (Prim2SF b) as [sb|sb| |sb mb eb] eqn:Eb;
    try (left; split; exact I);
    try (right; apply Prim2SF_inj; rewrite Ea, Eb; apply finite_compare_eq; exact H);
    unfold SFeqb, SFcompare in H; try (destruct sa); try (destruct sb);
    try discriminate H;
    right; apply Prim2SF_inj; rewrite Ea, Eb; reflexivity.
Qed.

Lemma strict_eq_zero_SF (a : float) :
  JS.strict_eq a 0 = true -> zero_or_nan (Prim2SF a).
Proof.
  unfold JS.strict_eq. rewrite FloatAxioms.eqb_spec.
  change (Prim2SF 0) with (S754_zero false).
  destruct (Prim2SF a) as [s|s| |s m e]; try (intros _; exact I);
    unfold SFeqb, SFcompare; try (destruct s); discriminate.
Qed.

Lemma SFmul_opp_swap (x y : spec_float) : SF64mul x (SFopp y) = SF64mul (SFopp x) y.
Proof.
  destruct x as [sx|sx| |sx mx ex], y as [sy|sy| |sy my ey];
    unfold SF64mul, SFmul, SFopp; try (destruct sx); try (destruct sy); reflexivity.
Qed.

(** [denom] in terms of the two direction vectors. *)
Lemma denom_of_direction (p0 p1 p2 p3 : point) :
  Prim2SF (denom_of p0 p1 p2 p3)
  = SF64sub (SF64mul (Prim2SF (fst (direction (p0, p1)))) (Prim2SF (snd (direction (p2, p3)))))
            (SF64mul (Prim2SF (fst (direction (p2, p3)))) (Prim2SF (snd (direction (p0, p1))))).
Proof.
  unfold denom_of, direction. cbv zeta. simpl fst. simpl snd.
  rewrite sub_spec, !mul_spec. reflexivity.
Qed.

(** The cross product of [(ax, ay)] and [(bx, by)] as the code computes it,
    [ax * by - bx * ay], is zero or NaN when both second components or both
    first components are zero (or NaN), and when the second vector is the
    first or its opposite: the two products are then the same number, or
    both zero. *)
Lemma cross_zero_or_nan (dxA dyA dxB dyB : float) :
  (zero_or_nan (Prim2SF dyA) /\ zero_or_nan (Prim2SF dyB))
  \/ (zero_or_nan (Prim2SF dxA) /\ zero_or_nan (Prim2SF dxB))
  \/ (dxB = dxA /\ dyB = dyA)
  \/ (dxB = - dxA /\ dyB = - dyA) ->
  zero_or_nan (SF64sub (SF64mul (Prim2SF dxA) (Prim2SF dyB))
                       (SF64mul (Prim2SF dxB) (Prim2SF dyA))).
Proof.
  intros [[Ha Hb] | [[Ha Hb] | [[-> ->] | [-> ->]]]].
  - apply SFsub_zero_or_nan; apply SFmul_zero_or_nan_r; assumption.
  - apply SFsub_zero_or_nan; apply SFmul_zero_or_nan_l; assumption.
  - destruct (SFsub_self (SF64mul (Prim2SF dxA) (Prim2SF dyA))) as [E | E];
      rewrite E; exact I.
  - rewrite !opp_spec, SFmul_opp_swap.
    destruct (SFsub_self (SF64mul (SFopp (Prim2SF dxA)) (Prim2SF dyA))) as [E | E];
      rewrite E; exact I.
Qed.

(** Two products with the same exact value are rounded alike, so the cross
    product of two computed direction vectors that are parallel in exact
    arithmetic is computed as zero (or as NaN, when both products
    overflow). *)
Lemma exactly_parallel_denom (p0 p1 p2 p3 : point) :
  exactly_parallel (direction (p0, p1)) (direction (p2, p3)) = true ->
  zero_or_nan (Prim2SF (denom_of p0 p1 p2 p3)).
Proof.
  unfold exactly_parallel, scaled. intros H. rewrite denom_of_direction.
  destruct (SFscaled (Prim2SF (fst (direction (p0, p1))))) as [ux|] eqn:Eux; [|discriminate].
  destruct (SFscaled (Prim2SF (snd (direction (p0, p1))))) as [uy|] eqn:Euy; [|discriminate].
  destruct (SFscaled (Prim2SF (fst (direction (p2, p3))))) as [vx|] eqn:Evx; [|discriminate].
  destruct (SFscaled (Prim2SF (snd (direction (p2, p3))))) as [vy|] eqn:Evy; [|discriminate].
  apply Z.eqb_eq in H.
  apply (SFmul_same _ _ _ _ ux vy vx uy); try apply Prim2SF_valid; assumption.
Qed.

(** C8, as the code has it: the test for parallel segments is made on the
    cross product of the two direction vectors as computed in double
    precision.  Two segments are reported as not intersecting whenever that
    computed cross product is zero, or NaN.  It is whenever the computed
    direction vectors, the rounded differences of the coordinates, are
    parallel in exact arithmetic; so it is when both segments are
    horizontal, when both are vertical, and when the computed direction
    vectors are equal or opposite.  And it is for all parallel segments,
    collinear and overlapping ones included, whose end points have integer
    coordinates of magnitude [2^25] at most: the differences of the
    coordinates are exact then. *)
Theorem IntersectsQ_parallel (lineA lineB : segment) (dxA dyA dxB dyB : float) :
  direction lineA = (dxA, dyA) -> direction lineB = (dxB, dyB) ->
  JS.strict_eq (denom_of (fst lineA) (snd lineA) (fst lineB) (snd lineB)) 0 = true
  \/ is_nan (denom_of (fst lineA) (snd lineA) (fst lineB) (snd lineB)) = true
  \/ exactly_parallel (dxA, dyA) (dxB, dyB) = true
  \/ (JS.strict_eq dyA 0 = true /\ JS.strict_eq dyB 0 = true)
  \/ (JS.strict_eq dxA 0 = true /\ JS.strict_eq dxB 0 = true)
  \/ (JS.strict_eq dxB dxA = true /\ JS.strict_eq dyB dyA = true)
  \/ (JS.strict_eq dxB (- dxA) = true /\ JS.strict_eq dyB (- dyA) = true)
  \/ (forallb small_point [fst lineA; snd lineA; fst lineB; snd lineB] = true
      /\ exact_cross (fst lineA) (snd lineA) (fst lineB) (snd lineB) = Some 0%Z) ->
  IntersectsQ lineA lineB = false.
Proof.
  intros EA EB H. unfold IntersectsQ.
  rewrite getLineLineCollision_no_denom; [reflexivity|].
  destruct H as [H | [H | [H | [H | [H | [H | [H | [Hsmall Hcross]]]]]]]].
  - apply strict_eq_zero_SF. exact H.
  - apply is_nan_true in H. rewrite H. exact I.
  - apply exactly_parallel_denom. rewrite <- !surjective_pairing, EA, EB. exact H.
  - rewrite denom_of_direction, <- !surjective_pairing, EA, EB. simpl fst. simpl snd.
    apply cross_zero_or_nan. left. destruct H as [Ha Hb].
    split; apply strict_eq_zero_SF; assumption.
  - rewrite denom_of_direction, <- !surjective_pairing, EA, EB. simpl fst. simpl snd.
    apply cross_zero_or_nan. right. left. destruct H as [Ha Hb].
    split; apply strict_eq_zero_SF; assumption.
  - rewrite denom_of_direction, <- !surjective_pairing, EA, EB. simpl fst. simpl snd.
    apply cross_zero_or_nan. destruct H as [Hx Hy].
    destruct (strict_eq_cases _ _ Hx) as [[Zb Za] | Ex];
      [right; left; split; assumption|].
    destruct (strict_eq_cases _ _ Hy) as [[Zb Za] | Ey];
      [left; split; assumption|].
    right. right. left. split; assumption.
  - rewrite denom_of_direction, <- !surjective_pairing, EA, EB. simpl fst. simpl snd.
    apply cross_zero_or_nan. destruct H as [Hx Hy].
    destruct (strict_eq_cases _ _ Hx) as [[Zb Za] | Ex].
    { right. left. split; [|assumption].
      rewrite opp_spec in Za. destruct (Prim2SF dxA); try contradiction; exact I. }
    destruct (strict_eq_cases _ _ Hy) as [[Zb Za] | Ey].
    { left. split; [|assumption].
      rewrite opp_spec in Za. destruct (Prim2SF dyA); try contradiction; exact I. }
    right. right. right. split; assumption.
  - apply integer_zero. rewrite <- Hcross.
    cbn [forallb] in Hsmall. rewrite !andb_true_iff in Hsmall.
    destruct Hsmall as [H0 [H1 [H2 [H3 _]]]].
    apply denom_of_exact; assumption.
Qed.

Lemma IntersectsQ_parallel_overlap :
  (JS.strict_eq (denom_of (fst Sample.overlapA) (snd Sample.overlapA)
                          (fst Sample.overlapB) (snd Sample.overlapB)) 0 = true
   /\ IntersectsQ Sample.overlapA Sample.overlapB = false)
  /\ (exact_cross (fst Sample.collinearA) (snd Sample.collinearA)
                  (fst Sample.collinearC) (snd Sample.collinearC) = Some 0%Z
      /\ IntersectsQ Sample.collinearA Sample.collinearC = false)
  /\ (exactly_parallel (direction Sample.slantA) (direction Sample.slantB) = true
      /\ IntersectsQ Sample.slantA Sample.slantB = false).
Proof.
  split; [|split]; (split; [vm_compute; reflexivity|]).
  - apply (IntersectsQ_parallel Sample.overlapA Sample.overlapB 2 0 2 0);
      [vm_compute; reflexivity | vm_compute; reflexivity |].
    do 3 right. left. split; vm_compute; reflexivity.
  - apply (IntersectsQ_parallel Sample.collinearA Sample.collinearC 2 6 12 36);
      [vm_compute; reflexivity | vm_compute; reflexivity |].
    do 7 right. split; vm_compute; reflexivity.
  - apply (IntersectsQ_parallel Sample.slantA Sample.slantB 0.5 1.5 1 3);
      [vm_compute; reflexivity | vm_compute; reflexivity |].
    do 2 right. left. vm_compute. reflexivity.
Defined.

(** Parallel in exact arithmetic is not parallel as computed.  The two
    segments of [Sample.collinearA] and [Sample.collinearB] lie on the line
    [y = 3 x] and overlap: the cross product of their direction vectors is
    [0].  The code rounds [2^53 + 5] to [2^53 + 4] and [3 * 2^53 + 15] to
    [3 * 2^53 + 16]: the computed direction vectors are not parallel, the
    computed cross product is [8], and an intersection is reported. *)
Lemma IntersectsQ_collinear_rounding :
  map integer_point [fst Sample.collinearA; snd Sample.collinearA;
                     fst Sample.collinearB; snd Sample.collinearB]
  = [Some (-6, -18); Some (-4, -12); Some (-5, -15); Some (2 ^ 53, 3 * 2 ^ 53)]%Z
  /\ exact_cross (fst Sample.collinearA) (snd Sample.collinearA)
                 (fst Sample.collinearB) (snd Sample.collinearB) = Some 0%Z
  /\ direction Sample.collinearA = (2, 6)
  /\ direction Sample.collinearB = (0x1.0000000000002p+53, 0x1.8000000000004p+54)
  /\ exactly_parallel (direction Sample.collinearA) (direction Sample.collinearB) = false
  /\ denom_of (fst Sample.collinearA) (snd Sample.collinearA)
              (fst Sample.collinearB) (snd Sample.collinearB) = 8
  /\ IntersectsQ Sample.collinearA Sample.collinearB = true.
Proof. repeat split; vm_compute; reflexivity. Qed.

(** X14: a segment of length zero intersects no segment, and no segment
    intersects itself: the cross product of the directions is zero, or NaN
    when a coordinate is not finite. *)
Theorem IntersectsQ_degenerate (p : point) (s : segment) :
  IntersectsQ (p, p) s = false
  /\ IntersectsQ s (p, p) = false
  /\ IntersectsQ s s = false.
Proof.
  unfold IntersectsQ. split; [|split]; rewrite getLineLineCollision_no_denom;
    try reflexivity; unfold denom_of; cbv zeta; simpl fst; simpl snd;
    rewrite sub_spec, !mul_spec.
  - apply SFsub_zero_or_nan.
    + apply SFmul_zero_or_nan_l, sub_self.
    + apply SFmul_zero_or_nan_r, sub_self.
  - apply SFsub_zero_or_nan.
    + apply SFmul_zero_or_nan_r, sub_self.
    + apply SFmul_zero_or_nan_l, sub_self.
  - destruct (SFsub_self (SF64mul (Prim2SF (fst (snd s) - fst (fst s)))
                                   (Prim2SF (snd (snd s) - snd (fst s)))))
      as [E | E]; rewrite E; exact I.
Qed.

(** ** Distances *)

Lemma binary_round_aux_opp (s : bool) (m e : Z) (l : location) :
  binary_round_aux prec emax (negb s) m e l = SFopp (binary_round_aux prec emax s m e l).
Proof.
  unfold binary_round_aux.
  destruct (shr_fexp prec emax m e l) as [mrs' e'].
  destruct (shr_fexp prec emax _ e' loc_Exact) as [mrs'' e''].
  destruct (shr_m mrs''); try reflexivity.
  destruct (e'' <=? emax - prec)%Z; reflexivity.
Qed.

Lemma binary_round_opp (s : bool) (m : positive) (e : Z) :
  binary_round prec emax (negb s) m e = SFopp (binary_round prec emax s m e).
Proof.
  unfold binary_round. destruct (shl_align m e _) as [mz ez].
  apply binary_round_aux_opp.
Qed.

Lemma binary_normalize_opp (m e : Z) :
  m <> 0%Z ->
  binary_normalize prec emax (- m) e false = SFopp (binary_normalize prec emax m e false).
Proof.
  destruct m as [|p|p]; intros H; [contradiction| |]; simpl.
  - apply (binary_round_opp false).
  - rewrite <- (binary_round_opp true). reflexivity.
Qed.

(** [b - a] is the opposite of [a - b], unless both are [+0]. *)
Lemma SFsub_swap (x y : spec_float) :
  SF64sub y x = SFopp (SF64sub x y)
  \/ (SF64sub x y = S754_zero false /\ SF64sub y x = S754_zero false).
Proof.
  destruct x as [sx|sx| |sx mx ex], y as [sy|sy| |sy my ey];
    unfold SF64sub, SFsub;
    try (destruct sx); try (destruct sy); simpl SFopp; auto.
  all: cbv zeta; rewrite (Z.min_comm ey ex);
    match goal with
    | |- context [binary_normalize _ _ (?a - ?b)%Z ?e _] =>
        replace (b - a)%Z with (- (a - b))%Z by lia;
        destruct (Z.eq_dec (a - b) 0) as [E0 | N0];
        [ right; rewrite E0; split; reflexivity
        | left; apply binary_normalize_opp; exact N0 ]
    end.
Qed.

Lemma SFmul_opp_opp (x : spec_float) : SF64mul (SFopp x) (SFopp x) = SF64mul x x.
Proof.
  destruct x as [s|s| |s m e]; unfold SF64mul, SFmul, SFopp;
    try (destruct s); reflexivity.
Qed.

Lemma Math_pow2_swap (a b : float) : JS.Math_pow2 (b - a) = JS.Math_pow2 (a - b).
Proof.
  unfold JS.Math_pow2. apply Prim2SF_inj. rewrite !mul_spec, !sub_spec.
  destruct (SFsub_swap (Prim2SF a) (Prim2SF b)) as [E | [E1 E2]].
  - rewrite E. apply SFmul_opp_opp.
  - rewrite E1, E2. reflexivity.
Qed.

Lemma binary_round_aux_sign (m e : Z) (l : location) :
  SFltb (binary_round_aux prec emax false m e l) (S754_zero false) = false.
Proof.
  unfold binary_round_aux.
  destruct (shr_fexp prec emax m e l) as [mrs' e'].
  destruct (shr_fexp prec emax _ e' loc_Exact) as [mrs'' e''].
  destruct (shr_m mrs''); try reflexivity.
  destruct (e'' <=? emax - prec)%Z; reflexivity.
Qed.

Lemma sqrt_not_negative (z : float) : (sqrt z <? 0) = false.
Proof.
  rewrite ltb_spec, sqrt_spec. change (Prim2SF 0) with (S754_zero false).
  destruct (Prim2SF z) as [s|s| |s m e]; unfold SF64sqrt, SFsqrt; try reflexivity.
  - destruct s; reflexivity.
  - destruct s; [reflexivity|].
    destruct (SFsqrt_core_binary prec emax (Z.pos m) e) as [[mz ez] lz].
    apply binary_round_aux_sign.
Qed.

(** X15: the distance between two points does not depend on their order,
    and it is never a negative number. *)
Theorem distance_symmetric (a b : point) :
  distance a b = distance b a /\ (distance a b <? 0) = false.
Proof.
  unfold distance. split; [|apply sqrt_not_negative].
  rewrite (Math_pow2_swap (fst a) (fst b)), (Math_pow2_swap (snd a) (snd b)).
  reflexivity.
Qed.

Lemma sub_self_finite (x : float) : non_finite x = false -> x - x = 0.
Proof.
  intros H. apply Prim2SF_inj. rewrite sub_spec.
  change (Prim2SF 0) with (S754_zero false).
  unfold non_finite in H. apply orb_false_elim in H. destruct H as [Hn Hi].
  apply is_nan_spec in Hn.
  unfold is_infinity in Hi. rewrite FloatAxioms.eqb_spec, abs_spec in Hi.
  change (Prim2SF infinity) with (S754_infinity false) in Hi.
  destruct (Prim2SF x) as [s|s| |s m e]; unfold SF64sub, SFsub.
  - destruct s; reflexivity.
  - discriminate Hi.
  - contradiction.
  - cbv zeta. rewrite Z.sub_diag. reflexivity.
Qed.

Lemma sub_self_non_finite (x : float) : non_finite x = true -> x - x = nan.
Proof.
  intros H. apply Prim2SF_inj. rewrite sub_spec.
  change (Prim2SF nan) with S754_nan.
  destruct (non_finite_SF x H) as [E | [s E]]; rewrite E; [reflexivity|].
  destruct s; reflexivity.
Qed.

Lemma add_nan_l (y : float) : nan + y = nan.
Proof. apply Prim2SF_inj. rewrite add_spec. reflexivity. Qed.

Lemma add_nan_r (y : float) : y + nan = nan.
Proof.
  apply Prim2SF_inj. rewrite add_spec. change (Prim2SF nan) with S754_nan.
  destruct (Prim2SF y); reflexivity.
Qed.

(** X16: the distance from a point to itself is [0] when its coordinates
    are finite, and NaN when one of them is NaN or infinite. *)
Theorem distance_self (p : point) :
  distance p p = if non_finite (fst p) || non_finite (snd p) then nan else 0.
Proof.
  unfold distance, JS.Math_sqrt, JS.Math_pow2.
  destruct (non_finite (fst p)) eqn:Hx; simpl orb.
  - rewrite (sub_self_non_finite _ Hx).
    change (nan * nan) with nan. rewrite add_nan_l. reflexivity.
  - rewrite (sub_self_finite _ Hx).
    destruct (non_finite (snd p)) eqn:Hy.
    + rewrite (sub_self_non_finite _ Hy).
      change (nan * nan) with nan. rewrite add_nan_r. reflexivity.
    + rewrite (sub_self_finite _ Hy). reflexivity.
Qed.

(** ** Candidates, continued *)

Lemma collect_length {A} (mk : Z -> point -> A) : forall points p,
  List.length (collect mk points p) = List.length points.
Proof.
  induction points as [|x rest IH]; intros p; simpl; [reflexivity|].
  rewrite IH. reflexivity.
Qed.

Section Neighbours.

Variable atan2 : float -> float -> float.
Variable sort : forall A : Type, (A -> A -> float) -> list A -> list A.
Hypothesis sort_perm : forall A cmp l, Permutation (sort A cmp l) l.

(** X17: whatever order the engine's sort gives to ties, [NearestPoints]
    returns [min(k, points.length)] points (none for a negative [k]), and
    they are points of the array, each taken as often as it occurs at
    most; with [k] at least the length of the array they are all its
    points. *)
Theorem NearestPoints_selection (points : list point) (pt : point) (k : Z) :
  JS.length (NearestPoints sort points pt k) = Z.max 0 (Z.min k (JS.length points))
  /\ (exists rest, Permutation (NearestPoints sort points pt k ++ rest) points)
  /\ ((JS.length points <= k)%Z -> Permutation (NearestPoints sort points pt k) points).
Proof.
  unfold NearestPoints.
  set (cs := collect (fun p x => {| dc_id := p; dc_point := x;
                                    dc_distance := distance x pt |}) points 0%Z).
  set (sorted := sort _ _ cs).
  assert (Hperm : Permutation sorted cs) by apply sort_perm.
  assert (Hlen : List.length sorted = List.length points).
  { rewrite (Permutation_length Hperm). apply collect_length. }
  assert (Hall : Permutation (map dc_point sorted) points).
  { rewrite (Permutation_map dc_point Hperm).
    unfold cs. rewrite collect_map by reflexivity. reflexivity. }
  split; [|split].
  - unfold JS.length. rewrite length_map, length_firstn, Hlen. lia.
  - exists (map dc_point (skipn (Z.to_nat (Z.min k (JS.length sorted))) sorted)).
    rewrite <- map_app, firstn_skipn. exact Hall.
  - intros Hk. rewrite firstn_all2; [exact Hall|].
    unfold JS.length in *. lia.
Qed.

(** X18: [SortByAngle] returns the points it was given, in some order. *)
Theorem SortByAngle_permutation (points : list point) (pt : point) (prev_angle : float) :
  Permutation (SortByAngle atan2 sort points pt prev_angle) points
  /\ JS.length (SortByAngle atan2 sort points pt prev_angle) = JS.length points.
Proof.
  assert (H : Permutation (SortByAngle atan2 sort points pt prev_angle) points)
    by (apply SortByAngle_perm; exact sort_perm).
  split; [exact H|]. unfold JS.length. rewrite (Permutation_length H). reflexivity.
Qed.

End Neighbours.

Lemma NearestPoints_selection_square :
  JS.length (NearestPoints Engine.sort Sample.square (0, 0) 3)
  = Z.max 0 (Z.min 3 (JS.length Sample.square))
  /\ (exists rest,
         Permutation (NearestPoints Engine.sort Sample.square (0, 0) 3 ++ rest)
                     Sample.square)
  /\ ((JS.length Sample.square <= 3)%Z ->
      Permutation (NearestPoints Engine.sort Sample.square (0, 0) 3) Sample.square).
Proof.
  apply (NearestPoints_selection Engine.sort Engine_sort_perm Sample.square (0, 0) 3).
Defined.

Lemma SortByAngle_permutation_square :
  Permutation (SortByAngle Engine.atan2 Engine.sort Sample.square (5, 5) JS.Math_PI)
              Sample.square
  /\ JS.length (SortByAngle Engine.atan2 Engine.sort Sample.square (5, 5) JS.Math_PI)
     = JS.length Sample.square.
Proof.
  apply (SortByAngle_permutation Engine.atan2 Engine.sort Engine_sort_perm
           Sample.square (5, 5) JS.Math_PI).
Defined.

(** ** Guards, clamping and escalation, continued *)

Section Calls.

Variable atan2 : float -> float -> float.
Variable sort : forall A : Type, (A -> A -> float) -> list A -> list A.

(** X19: with fewer than three distinct points every call returns [null],
    whatever [k] is. *)
Theorem calculate_few_distinct_points (pts : list point) (k : Z) :
  (JS.length (CleanList pts) < 3)%Z ->
  attempt_of atan2 sort pts k = Return Null
  /\ forall fuel, calculate atan2 sort (S fuel) pts k = Some Null.
Proof.
  intros Hn.
  assert (E : attempt_of atan2 sort pts k = Return Null).
  { unfold attempt_of. destruct (_ >=? _)%Z; [reflexivity|].
    destruct (Z.ltb_spec (JS.length (CleanList pts)) 3); [reflexivity | lia]. }
  split; [exact E|]. intros fuel. rewrite calculate_S, E. reflexivity.
Qed.

Lemma attempt_of_clamp (pts : list point) (k k' : Z) :
  (Z.max k 3 < JS.length pts)%Z -> (Z.max k' 3 < JS.length pts)%Z ->
  Z.min (Z.max k 3) (JS.length (CleanList pts) - 1)
  = Z.min (Z.max k' 3) (JS.length (CleanList pts) - 1) ->
  attempt_of atan2 sort pts k = attempt_of atan2 sort pts k'.
Proof.
  intros Hk Hk' E. unfold attempt_of.
  destruct (Z.geb_spec (Z.max k 3) (JS.length pts)); [lia|].
  destruct (Z.geb_spec (Z.max k' 3) (JS.length pts)); [lia|].
  rewrite E. reflexivity.
Qed.

(** X20: [k] only matters through its clamped value.  A [k] below 3 is
    treated as 3; and among the values of [k] the guard on the length of
    the list lets through, two with the same clamped value
    [min(max(k, 3), distinct - 1)] give the same result. *)
Theorem calculate_clamps_k (pts : list point) (fuel : nat) (k k' : Z) :
  ((k <= 3)%Z -> calculate atan2 sort fuel pts k = calculate atan2 sort fuel pts 3)
  /\ ((Z.max k 3 < JS.length pts)%Z -> (Z.max k' 3 < JS.length pts)%Z ->
      Z.min (Z.max k 3) (JS.length (CleanList pts) - 1)
      = Z.min (Z.max k' 3) (JS.length (CleanList pts) - 1) ->
      calculate atan2 sort fuel pts k = calculate atan2 sort fuel pts k').
Proof.
  split.
  - intros Hk. destruct fuel as [|fuel]; [reflexivity|]. rewrite !calculate_S.
    replace (attempt_of atan2 sort pts k) with (attempt_of atan2 sort pts 3);
      [reflexivity|].
    unfold attempt_of. replace (Z.max k 3) with (Z.max 3 3) by lia. reflexivity.
  - intros Hk Hk' E. destruct fuel as [|fuel]; [reflexivity|]. rewrite !calculate_S.
    rewrite (attempt_of_clamp pts k k' Hk Hk' E). reflexivity.
Qed.

Lemma calculate_more_fuel (pts : list point) (r : outcome) : forall fuel k,
  calculate atan2 sort fuel pts k = Some r ->
  forall fuel', (fuel <= fuel')%nat -> calculate atan2 sort fuel' pts k = Some r.
Proof.
  induction fuel as [|fuel IH]; intros k H fuel' Hle; [discriminate|].
  destruct fuel' as [|fuel']; [lia|]. rewrite calculate_S in *.
  destruct (attempt_of atan2 sort pts k) as [r0|k1|]; [exact H | | discriminate].
  apply (IH k1 H). lia.
Qed.

(** X21: on a list without duplicates [calculate] returns: every retry
    raises [k] by one at least, and the guard on the length of the list ends
    the recursion within [length - max(k, 3) + 1] activations, with the
    same result however many more are allowed. *)
Theorem calculate_terminates_without_duplicates (pts : list point) (k : Z) :
  JS.length (CleanList pts) = JS.length pts ->
  exists r, forall fuel,
    (JS.length pts - Z.max k 3 <= Z.of_nat fuel)%Z ->
    calculate atan2 sort (S fuel) pts k = Some r.
Proof.
  intros Hn.
  set (f0 := Z.to_nat (JS.length pts - Z.max k 3)).
  destruct (calculate_terminates_distinct atan2 sort pts f0 k Hn ltac:(lia)) as [r Hr].
  exists r. intros fuel Hfuel. apply (calculate_more_fuel pts r (S f0) k Hr). lia.
Qed.

Lemma build_hull_not_Null (d : list point) (kk : Z) :
  build_hull atan2 sort d kk <> Return Null.
Proof.
  unfold build_hull.
  destruct (JS.index _ _); [|discriminate].
  destruct (RemovePoint _ _); [|discriminate].
  destruct (main_loop _ _ _ _ _ _ _) as [[h ds| |]|]; try discriminate.
  destruct (all_inside ds h); discriminate.
Qed.

(** X22: on a list that repeats a point and has four distinct points or
    more, a call that passes the guard never returns [null]: every retry
    passes the guard again, so the call returns a hull (or dies on a
    [TypeError]), or it goes on for ever. *)
Theorem calculate_duplicates_never_null (pts : list point) : forall (fuel : nat) (k : Z),
  (JS.length (CleanList pts) < JS.length pts)%Z ->
  (4 <= JS.length (CleanList pts))%Z ->
  (Z.max k 3 < JS.length pts)%Z ->
  calculate atan2 sort fuel pts k = None
  \/ calculate atan2 sort fuel pts k = Some TypeError
  \/ exists h, calculate atan2 sort fuel pts k = Some (Hull h).
Proof.
  induction fuel as [|fuel IH]; intros k Hdup Hn Hk; [left; reflexivity|].
  rewrite calculate_S.
  destruct (attempt_of atan2 sort pts k) as [r|k'|] eqn:E; [| |left; reflexivity].
  - rewrite attempt_of_hull in E by assumption.
    destruct r as [|h|]; [|right; right; exists h; reflexivity | right; left; reflexivity].
    exfalso. exact (build_hull_not_Null _ _ E).
  - apply attempt_of_Escalate in E. apply IH; try assumption. lia.
Qed.

End Calls.

Lemma calculate_few_distinct_points_two_repeated :
  (JS.length (CleanList Sample.two_repeated) < 3)%Z
  /\ Engine.calculate 1 Sample.two_repeated 3 = Some Null.
Proof.
  assert (H : (JS.length (CleanList Sample.two_repeated) < 3)%Z)
    by (vm_compute; reflexivity).
  split; [exact H|].
  exact (proj2 (calculate_few_distinct_points Engine.atan2 Engine.sort _ 3 H) 0%nat).
Defined.

Lemma calculate_clamps_k_square_dup :
  Engine.calculate 1 Sample.square_dup 0 = Engine.calculate 1 Sample.square_dup 3
  /\ Engine.calculate 1 Sample.square_dup 3 = Engine.calculate 1 Sample.square_dup 4.
Proof.
  split.
  - apply (proj1 (calculate_clamps_k Engine.atan2 Engine.sort Sample.square_dup 1 0 3)).
    lia.
  - apply (proj2 (calculate_clamps_k Engine.atan2 Engine.sort Sample.square_dup 1 3 4));
      vm_compute; reflexivity.
Defined.

Lemma calculate_terminates_without_duplicates_far :
  exists r, forall fuel,
    (JS.length Sample.far - Z.max 3 3 <= Z.of_nat fuel)%Z ->
    Engine.calculate (S fuel) Sample.far 3 = Some r.
Proof.
  apply (calculate_terminates_without_duplicates Engine.atan2 Engine.sort Sample.far 3).
  vm_compute. reflexivity.
Defined.

Lemma calculate_duplicates_never_null_far_dup :
  Engine.calculate 7 Sample.far_dup 3 = None
  \/ Engine.calculate 7 Sample.far_dup 3 = Some TypeError
  \/ exists h, Engine.calculate 7 Sample.far_dup 3 = Some (Hull h).
Proof.
  apply (calculate_duplicates_never_null Engine.atan2 Engine.sort Sample.far_dup 7 3);
    vm_compute; try reflexivity; discriminate.
Defined.

(** ** Where a [TypeError] can come from *)

Lemma index_some {A} (l : list A) (z : Z) :
  (0 <= z < JS.length l)%Z -> exists x, JS.index l z = Some x.
Proof.
  unfold JS.index, JS.length. intros H.
  destruct (Z.ltb_spec z 0); [lia|].
  destruct (nth_error l (Z.to_nat z)) as [x|] eqn:E; [exists x; reflexivity|].
  apply nth_error_None in E. lia.
Qed.

(** With [hull.length == step - 1] the inner loop reads inside the hull. *)
Lemma scan_edges_defined (h : list point) (st : Z) (c : point) :
  JS.length h = (st - 1)%Z ->
  forall js, (forall j, In j js -> (2 <= j <= st - 2)%Z) ->
             scan_edges h st c js <> None.
Proof.
  intros Hlen. induction js as [|j js IH]; intros Hjs; simpl; [discriminate|].
  assert (Hj : (2 <= j <= st - 2)%Z) by (apply Hjs; left; reflexivity).
  destruct (index_some h (st - 2) ltac:(lia)) as [a ->].
  destruct (index_some h (st - 2 - j) ltac:(lia)) as [b ->].
  destruct (index_some h (st - 1 - j) ltac:(lia)) as [d ->].
  destruct (IntersectsQ (a, c) (b, d)); [discriminate|].
  apply IH. intros j' Hj'. apply Hjs. right. exact Hj'.
Qed.

Lemma select_candidate_defined (h : list point) (st : Z) (firstPoint : point) :
  JS.length h = (st - 1)%Z ->
  forall cs, select_candidate h st firstPoint cs <> SelectionError.
Proof.
  intros Hlen. induction cs as [|c cs IH]; simpl; [discriminate|].
  destruct (scan_edges h st c _) as [[|]|] eqn:E; [exact IH | discriminate|].
  exfalso. revert E. apply scan_edges_defined; [exact Hlen|].
  intros j Hj. apply j_range_In in Hj. destruct (pointEquals c firstPoint); lia.
Qed.

Lemma RemovePoint_found (l : list point) (c : point) :
  In c l -> pointEquals c c = true -> exists rest, RemovePoint l c = Some rest.
Proof.
  intros Hin Hrefl. induction l as [|p l IH]; [contradiction|]. simpl.
  destruct (pointEquals p c) eqn:E; [exists l; reflexivity|].
  destruct Hin as [-> | Hin]; [congruence|].
  destruct (IH Hin) as [rest ->]. exists (p :: rest). reflexivity.
Qed.

Lemma RemovePoint_incl (l : list point) (c : point) (rest : list point) :
  RemovePoint l c = Some rest -> incl rest l.
Proof.
  intros H. apply RemovePoint_Some in H. destruct H as [l1 [q [l2 [-> [-> _]]]]].
  intros x Hx. apply in_app_or in Hx. apply in_or_app. simpl. tauto.
Qed.

Section Safe.

Variable atan2 : float -> float -> float.
Variable sort : forall A : Type, (A -> A -> float) -> list A -> list A.
Hypothesis sort_perm : forall A cmp l, Permutation (sort A cmp l) l.

Variable D0 : list point.
Variable seed : point.
Variables kk stop : Z.
Hypothesis D0_refl : forall p, In p D0 -> pointEquals p p = true.
Hypothesis seed_In : In seed D0.

(** What keeps every read of a round inside its array: the hull has
    [step - 1] points, and the working set holds points of the cleaned
    list. *)
Definition safe (s : state) : Prop :=
  JS.length (hull s) = (step s - 1)%Z
  /\ (2 <= step s)%Z
  /\ forall q, In q (dataset s) -> In q D0.

Lemma safe_round_dataset s q :
  safe s -> In q (round_dataset seed stop s) -> In q D0.
Proof.
  intros [_ [_ Hd]]. unfold round_dataset, AddPoint.
  destruct (step s =? stop)%Z; [|apply Hd].
  intros H. apply in_app_or in H. destruct H as [H | [<- | []]]; auto.
Qed.

Lemma loop_round_safe s :
  safe s ->
  match loop_round atan2 sort seed kk stop s with
  | inl s' => safe s'
  | inr r => r <> Crash
  end.
Proof.
  intros Hs. pose proof Hs as [Hlen [Hstep Hd]].
  unfold loop_round. fold (round_dataset seed stop s).
  fold (round_candidates atan2 sort seed kk stop s).
  destruct (select_candidate _ _ _ _) as [c| |] eqn:Hsel.
  - apply select_candidate_Selected in Hsel. destruct Hsel as [Hc _].
    apply (round_candidates_In atan2 sort sort_perm) in Hc.
    assert (HcD : In c D0) by (apply (safe_round_dataset s); assumption).
    assert (Hlen1 : JS.length (AddPoint (hull s) c) = step s).
    { unfold AddPoint, JS.length in *. rewrite length_app. simpl. lia. }
    destruct (index_some (AddPoint (hull s) c) (step s - 2) ltac:(lia)) as [a ->].
    destruct (index_some (AddPoint (hull s) c) (step s - 1) ltac:(lia)) as [b ->].
    destruct (RemovePoint_found _ c Hc (D0_refl c HcD)) as [rest Hrem].
    rewrite Hrem. unfold safe. simpl. split; [lia|]. split; [lia|].
    intros q Hq. apply (safe_round_dataset s); [exact Hs|].
    apply (RemovePoint_incl _ _ _ Hrem). exact Hq.
  - discriminate.
  - exfalso. revert Hsel. apply select_candidate_defined. exact Hlen.
Qed.

Lemma main_loop_safe : forall fuel s,
  safe s -> main_loop atan2 sort fuel seed kk stop s <> Some Crash.
Proof.
  induction fuel as [|fuel IH]; intros s Hs; simpl; [discriminate|].
  destruct (loop_test seed s); [|discriminate].
  pose proof (loop_round_safe s Hs) as Hround.
  destruct (loop_round atan2 sort seed kk stop s) as [s'|r].
  - apply IH. exact Hround.
  - intros E. inversion E. contradiction.
Qed.

End Safe.

Section Errors.

Variable atan2 : float -> float -> float.
Variable sort : forall A : Type, (A -> A -> float) -> list A -> list A.

Lemma build_hull_safe (sort_perm : forall A cmp l, Permutation (sort A cmp l) l)
  (d : list point) (kk : Z) :
  d <> [] ->
  (forall p, In p d -> is_nan (fst p) = false /\ is_nan (snd p) = false) ->
  build_hull atan2 sort d kk <> Return TypeError.
Proof.
  intros Hne Hnan. unfold build_hull.
  assert (Hrefl : forall p, In p d -> pointEquals p p = true).
  { intros p Hp. apply pointEquals_refl. apply Hnan. exact Hp. }
  destruct (FindMinYPoint_spec d Hne (fun p Hp => proj2 (Hnan p Hp)))
    as [i [seed [Hi [Hnth _]]]].
  rewrite Hi, index_of_nat, Hnth.
  assert (Hseed : In seed d) by (apply nth_error_In in Hnth; exact Hnth).
  destruct (RemovePoint_found d seed Hseed (Hrefl seed Hseed)) as [d1 Hrem].
  rewrite Hrem.
  match goal with
  | |- context [main_loop atan2 sort ?f ?p ?k ?st ?s] =>
      pose proof (main_loop_safe atan2 sort sort_perm d p k st Hrefl Hseed f s) as Hsafe;
      destruct (main_loop atan2 sort f p k st s) as [[h ds| |]|]
  end; try discriminate.
  - destruct (all_inside ds h); discriminate.
  - exfalso. apply Hsafe; [|reflexivity].
    unfold safe. simpl. split; [reflexivity|]. split; [lia|].
    apply (RemovePoint_incl _ _ _ Hrem).
Qed.

(** X23: on points without a NaN coordinate [calculate] raises no
    [TypeError]: an activation returns [null] or a hull, or calls
    [calculate] again.  The engine's sort is only assumed to return a
    permutation of its input. *)
Theorem calculate_no_TypeError
  (sort_perm : forall A cmp l, Permutation (sort A cmp l) l) (pts : list point) :
  (forall p, In p pts -> is_nan (fst p) = false /\ is_nan (snd p) = false) ->
  forall (fuel : nat) (k : Z),
    calculate atan2 sort fuel pts k = None
    \/ calculate atan2 sort fuel pts k = Some Null
    \/ exists h, calculate atan2 sort fuel pts k = Some (Hull h).
Proof.
  intros Hnan. induction fuel as [|fuel IH]; intros k; [left; reflexivity|].
  rewrite calculate_S.
  destruct (attempt_of atan2 sort pts k) as [r|k'|] eqn:E; [|apply IH | left; reflexivity].
  destruct r as [|h|]; [right; left; reflexivity | right; right; exists h; reflexivity|].
  exfalso. unfold attempt_of in E.
  destruct (_ >=? _)%Z; [discriminate|].
  destruct (Z.ltb_spec (JS.length (CleanList pts)) 3); [discriminate|].
  destruct (_ =? 3)%Z; [discriminate|].
  revert E. apply (build_hull_safe sort_perm).
  - intros E. rewrite E in *. unfold JS.length in *. simpl in *. lia.
  - intros p Hp. apply Hnan. apply CleanList_In. exact Hp.
Qed.

(** X24: a point with a NaN for Y that is left after deduplication makes
    every call past the two guards die on a [TypeError]: [Math.max] is
    NaN, [indexOf] answers [-1], and the first point is [undefined]. *)
Theorem calculate_NaN_Y (pts : list point) (k : Z) :
  (Z.max k 3 < JS.length pts)%Z ->
  (4 <= JS.length (CleanList pts))%Z ->
  (exists p, In p (CleanList pts) /\ is_nan (snd p) = true) ->
  attempt_of atan2 sort pts k = Return TypeError
  /\ forall fuel, calculate atan2 sort (S fuel) pts k = Some TypeError.
Proof.
  intros Hk Hn Hnan.
  assert (E : attempt_of atan2 sort pts k = Return TypeError).
  { rewrite attempt_of_hull by assumption. unfold build_hull.
    rewrite (FindMinYPoint_nan _ Hnan). reflexivity. }
  split; [exact E|]. intros fuel. rewrite calculate_S, E. reflexivity.
Qed.

End Errors.

Lemma calculate_no_TypeError_square_centre :
  Engine.calculate 1 Sample.square_centre 3 = None
  \/ Engine.calculate 1 Sample.square_centre 3 = Some Null
  \/ exists h, Engine.calculate 1 Sample.square_centre 3 = Some (Hull h).
Proof.
  apply (calculate_no_TypeError Engine.atan2 Engine.sort Engine_sort_perm
           Sample.square_centre).
  intros p Hp. simpl in Hp.
  repeat (destruct Hp as [<- | Hp]; [split; reflexivity|]). contradiction.
Defined.

Lemma calculate_NaN_Y_example :
  Engine.attempt_of Sample.square_nan 3 = Return TypeError
  /\ forall fuel, Engine.calculate (S fuel) Sample.square_nan 3 = Some TypeError.
Proof.
  apply (calculate_NaN_Y Engine.atan2 Engine.sort Sample.square_nan 3).
  - vm_compute. reflexivity.
  - vm_compute. discriminate.
  - exists (5, nan). split; [vm_compute; do 4 right; left; reflexivity | reflexivity].
Defined.

(** ** The size of a hull *)

Section Closing.

Variable atan2 : float -> float -> float.
Variable sort : forall A : Type, (A -> A -> float) -> list A -> list A.
Hypothesis sort_perm : forall A cmp l, Permutation (sort A cmp l) l.

Variable seed : point.
Variables kk stop : Z.

(** The first point is in the working set, or in the hull a second time,
    only after the round with [step == stop]. *)
Definition late_seed (s : state) : Prop :=
  JS.length (hull s) = (step s - 1)%Z
  /\ (2 <= step s)%Z
  /\ (In seed (dataset s) \/ In seed (tl (hull s)) -> (stop < step s)%Z).

Lemma late_seed_round s s' :
  late_seed s -> loop_round atan2 sort seed kk stop s = inl s' -> late_seed s'.
Proof.
  intros [Hlen [Hstep Hlate]] Hround.
  apply loop_round_inl in Hround.
  destruct Hround as [c [Hsel [Hhull [Hrem [_ Hst]]]]].
  apply select_candidate_Selected in Hsel. destruct Hsel as [Hc _].
  apply (round_candidates_In atan2 sort sort_perm) in Hc.
  unfold late_seed. rewrite Hhull, Hst. split; [|split; [lia|]].
  - unfold JS.length in *. rewrite length_app. simpl. lia.
  - intros Hin.
    destruct (Z.eqb_spec (step s) stop) as [E | N]; [lia|].
    assert (Hds : In seed (round_dataset seed stop s) -> (stop < step s + 1)%Z).
    { unfold round_dataset. rewrite (proj2 (Z.eqb_neq _ _) N).
      intros H. assert (stop < step s)%Z by (apply Hlate; left; exact H). lia. }
    destruct Hin as [Hin | Hin].
    + apply Hds. apply (RemovePoint_incl _ _ _ Hrem). exact Hin.
    + destruct (hull s) as [|x t] eqn:Eh; [unfold JS.length in Hlen; simpl in Hlen; lia|].
      simpl in Hin. apply in_app_or in Hin. destruct Hin as [Hin | [<- | []]].
      * assert (stop < step s)%Z by (apply Hlate; right; exact Hin). lia.
      * apply Hds. exact Hc.
Qed.

End Closing.

Lemma point_eq_dec (p q : point) : {p = q} + {p <> q}.
Proof.
  destruct p as [px py], q as [qx qy].
  destruct (Leibniz.eqb px qx) eqn:Ex, (Leibniz.eqb py qy) eqn:Ey.
  - left. apply Leibniz.eqb_spec in Ex, Ey. congruence.
  - right. intros H. inversion H; subst.
    rewrite (proj2 (Leibniz.eqb_spec qy qy) eq_refl) in Ey. discriminate.
  - right. intros H. inversion H; subst.
    rewrite (proj2 (Leibniz.eqb_spec qx qx) eq_refl) in Ex. discriminate.
  - right. intros H. inversion H; subst.
    rewrite (proj2 (Leibniz.eqb_spec qx qx) eq_refl) in Ex. discriminate.
Qed.

Section Vertices.

Variable atan2 : float -> float -> float.
Variable sort : forall A : Type, (A -> A -> float) -> list A -> list A.
Hypothesis sort_perm : forall A cmp l, Permutation (sort A cmp l) l.

(** X25: a hull returned for four distinct points or more has four
    vertices at least: after the first point come three or more points,
    pairwise distinct, before the closing repeat if there is one.  The
    first point is only put back in the working set at the round with
    [step == 2 + k], so a hull cannot close on a triangle. *)
Theorem hull_has_four_vertices (pts : list point) (k : Z) (fuel : nat) (h : list point) :
  (4 <= JS.length (CleanList pts))%Z ->
  calculate atan2 sort fuel pts k = Some (Hull h) ->
  exists seed mid,
    (h = seed :: mid ++ [seed] \/ h = seed :: mid)
    /\ distinct_points (seed :: mid)
    /\ (3 <= List.length mid)%nat.
Proof.
  intros Hn Hcalc.
  destruct (calculate_Hull atan2 sort pts h fuel k Hn Hcalc) as [kk [Hkk Hbuild]].
  destruct (build_hull_Hull atan2 sort _ _ _ Hbuild)
    as [seed [d1 [fuel' [ds [Hidx [Hrem [Hloop _]]]]]]].
  pose proof (index_In _ _ _ Hidx) as Hseed.
  assert (Hrefl : pointEquals seed seed = true).
  { destruct (RemovePoint_Some _ _ _ Hrem) as [l1 [q [l2 [Hd [_ Hq]]]]].
    assert (Hq' : In q (CleanList pts)) by (rewrite Hd; apply in_elt).
    rewrite <- (NoDup_keys_pointEquals _ q seed (CleanList_NoDup pts) Hq' Hseed Hq) at 1.
    exact Hq. }
  assert (Hperm1 : Permutation (CleanList pts) (seed :: d1)).
  { apply RemovePoint_perm; [exact Hrem|].
    intros q Hq E. apply (NoDup_keys_pointEquals _ q seed (CleanList_NoDup pts)); assumption. }
  assert (Hnd : NoDup (keys (seed :: d1))).
  { unfold keys. rewrite <- (Permutation_map stringify Hperm1). apply CleanList_NoDup. }
  assert (Hinit : late_seed seed (2 + kk) (initial_state seed d1)).
  { unfold late_seed, initial_state. simpl. split; [reflexivity|]. split; [lia|].
    intros [Hin | []]. exfalso.
    simpl in Hnd. inversion Hnd as [|? ? Hnotin _]; subst.
    apply Hnotin. apply in_map. exact Hin. }
  destruct (main_loop_invariant atan2 sort (late_seed seed (2 + kk)) seed kk (2 + kk)
              (fun s s' Hs _ Hr => late_seed_round atan2 sort sort_perm seed kk (2 + kk)
                                     s s' Hs Hr)
              fuel' _ h ds Hinit Hloop)
    as [s' [[Hlen [_ Hlate]] [_ [Hh _]]]].
  destruct (main_loop_shape atan2 sort sort_perm (CleanList pts) seed kk (2 + kk)
              (CleanList_NoDup pts) Hseed Hrefl ltac:(lia) fuel' d1 h ds Hrem Hloop)
    as [[mid [Eh [_ Hperm]]] | [mid [Eh Hperm]]]; exists seed, mid.
  - split; [right; exact Eh|]. split.
    + apply NoDup_keys_distinct. unfold keys.
      rewrite (Permutation_map stringify Hperm). apply CleanList_NoDup.
    + apply Permutation_length in Hperm. unfold JS.length in Hn. simpl in Hperm. lia.
  - split; [left; exact Eh|]. split.
    + apply NoDup_keys_distinct.
      assert (Hsub : Permutation ((seed :: mid) ++ ds) (CleanList pts)) by exact Hperm.
      pose proof (CleanList_NoDup pts) as Hk. unfold keys in *.
      rewrite <- (Permutation_map stringify Hsub), map_app in Hk.
      apply NoDup_app_remove_r in Hk. exact Hk.
    + rewrite Hh, Eh in Hlen, Hlate.
      assert (Hst : (2 + kk < step s')%Z).
      { apply Hlate. right. simpl. apply in_or_app. right. left. reflexivity. }
      unfold JS.length in Hlen. simpl in Hlen. rewrite length_app in Hlen.
      simpl in Hlen. lia.
Qed.

(** X26: every point of the cleaned list whose Y equals the maximum is a
    vertex of a hull returned for four distinct points or more: left out,
    it would fail the point-in-polygon test, which no point passes that
    has no vertex above it. *)
Theorem hull_contains_top_points (pts : list point) (k : Z) (fuel : nat) (h : list point) :
  (4 <= JS.length (CleanList pts))%Z ->
  calculate atan2 sort fuel pts k = Some (Hull h) ->
  forall seed p,
    JS.index (CleanList pts) (FindMinYPoint (CleanList pts)) = Some seed ->
    In p (CleanList pts) ->
    JS.strict_eq (snd p) (snd seed) = true ->
    In p h.
Proof.
  intros Hn Hcalc seed p Hidx Hp Hy.
  destruct (calculate_Hull_shape atan2 sort sort_perm pts fuel k h Hn Hcalc)
    as [seed' [ds [Hidx' [_ [Hin Hshape]]]]].
  rewrite Hidx in Hidx'. inversion Hidx'; subst seed'. clear Hidx'.
  set (D0 := CleanList pts) in *.
  assert (Hnan : forall q, In q D0 -> is_nan (snd q) = false).
  { intros q Hq. destruct (is_nan (snd q)) eqn:E; [|reflexivity].
    rewrite (FindMinYPoint_nan D0 (ex_intro _ q (conj Hq E))) in Hidx. discriminate. }
  assert (Hne : D0 <> []) by (intros E; rewrite E in Hp; contradiction).
  destruct (FindMinYPoint_spec D0 Hne Hnan) as [i [seed' [Hi [Hnth [Hmax _]]]]].
  rewrite Hi, index_of_nat, Hnth in Hidx. inversion Hidx; subst seed'. clear Hidx.
  destruct (in_dec point_eq_dec p h) as [Hph | Hnot]; [exact Hph|]. exfalso.
  assert (Hsub : incl h D0 /\ In p ds).
  { destruct Hshape as [[mid [Eh [_ Hperm]]] | [mid [Eh Hperm]]].
    - exfalso. apply Hnot. rewrite Eh.
      apply (Permutation_in _ (Permutation_sym Hperm)). exact Hp.
    - split.
      + intros v Hv. rewrite Eh in Hv. apply (Permutation_in _ Hperm).
        destruct Hv as [<- | Hv]; [left; reflexivity|].
        apply in_app_or in Hv. destruct Hv as [Hv | [<- | []]]; [|left; reflexivity].
        right. apply in_or_app. left. exact Hv.
      + apply (Permutation_in _ (Permutation_sym Hperm)) in Hp.
        destruct Hp as [<- | Hp'];
          [exfalso; apply Hnot; rewrite Eh; left; reflexivity|].
        apply in_app_or in Hp'. destruct Hp' as [Hp' | Hp']; [|exact Hp'].
        exfalso. apply Hnot. rewrite Eh. right. apply in_or_app. left. exact Hp'. }
  destruct Hsub as [Hincl Hpds].
  pose proof (all_inside_In ds h Hin p Hpds) as Hinside.
  rewrite (PointInPolygonQ_same_side false p h) in Hinside; [discriminate|].
  intros v Hv. unfold JS.gt. apply leb_ltb_false.
  apply (leb_trans _ (snd seed)); [apply Hmax, Hincl, Hv|].
  apply eqb_leb. rewrite eqb_sym. exact Hy.
Qed.

End Vertices.

Lemma hull_has_four_vertices_square_centre :
  exists seed mid,
    ([(0, 10); (10, 10); (10, 0); (0, 0); (0, 10)] = seed :: mid ++ [seed]
     \/ [(0, 10); (10, 10); (10, 0); (0, 0); (0, 10)] = seed :: mid)
    /\ distinct_points (seed :: mid)
    /\ (3 <= List.length mid)%nat.
Proof.
  refine (hull_has_four_vertices Engine.atan2 Engine.sort Engine_sort_perm
            Sample.square_centre 3 1 _ _ _).
  - vm_compute. discriminate.
  - vm_compute. reflexivity.
Defined.

Lemma hull_contains_top_points_square_centre :
  In (10, 10) [(0, 10); (10, 10); (10, 0); (0, 0); (0, 10)].
Proof.
  refine (hull_contains_top_points Engine.atan2 Engine.sort Engine_sort_perm
            Sample.square_centre 3 1 _ _ _ (0, 10) (10, 10) _ _ _).
  - vm_compute. discriminate.
  - vm_compute. reflexivity.
  - vm_compute. reflexivity.
  - vm_compute. do 2 right. left. reflexivity.
  - vm_compute. reflexivity.
Defined.

(** ** Arrays handed in and handed back *)

(** X27: [AddPoint] and [RemovePoint] update the array they are given and
    hand the same array back, so every holder of that array sees the
    change; [RemovePoint] without a match leaves the store as it is and
    yields [undefined].  [CleanList] writes to no array that existed: the
    list it returns is a new array.  No other array is touched. *)
Theorem working_set_in_place (st : store) (points : loc) (a : list point) (pt : point) :
  holds st points a ->
  (exists st',
      AddPoint_ref points pt st = Some (points, st')
      /\ holds st' points (AddPoint a pt)
      /\ forall l b, l <> points -> holds st l b -> holds st' l b)
  /\ (exists r st',
         RemovePoint_ref points pt st = Some (r, st')
         /\ match RemovePoint a pt with
            | Some rest => r = Some points /\ holds st' points rest
            | None => r = None /\ st' = st
            end
         /\ forall l b, l <> points -> holds st l b -> holds st' l b)
  /\ (exists fresh st',
         CleanList_ref points st = Some (fresh, st')
         /\ holds st' fresh (CleanList a)
         /\ (forall l b, holds st l b -> l <> fresh /\ holds st' l b)).
Proof.
  intros H. split; [|split].
  - eexists. split; [apply (run_AddPoint _ _ _ _ H)|]. split.
    + apply (holds_write_same _ _ _ _ H).
    + intros l b Hne Hl. apply holds_write_other; assumption.
  - rewrite (run_RemovePoint _ _ _ pt H).
    destruct (RemovePoint a pt) as [rest|].
    + eexists. eexists. split; [reflexivity|]. split.
      * split; [reflexivity | apply (holds_write_same _ _ _ _ H)].
      * intros l b Hne Hl. apply holds_write_other; assumption.
    + exists None, st. repeat split; auto.
  - rewrite (run_CleanList _ _ _ H). eexists. eexists. split; [reflexivity|]. split.
    + apply holds_alloc_new.
    + intros l b Hl. split; [apply holds_lt in Hl; lia | apply holds_alloc_old; exact Hl].
Qed.

Lemma working_set_in_place_square :
  (exists st',
      AddPoint_ref 0%nat (5, 5) [Sample.square] = Some (0%nat, st')
      /\ holds st' 0%nat (AddPoint Sample.square (5, 5))
      /\ forall l b, l <> 0%nat -> holds [Sample.square] l b -> holds st' l b)
  /\ (exists r st',
         RemovePoint_ref 0%nat (5, 5) [Sample.square] = Some (r, st')
         /\ match RemovePoint Sample.square (5, 5) with
            | Some rest => r = Some 0%nat /\ holds st' 0%nat rest
            | None => r = None /\ st' = [Sample.square]
            end
         /\ forall l b, l <> 0%nat -> holds [Sample.square] l b -> holds st' l b)
  /\ (exists fresh st',
         CleanList_ref 0%nat [Sample.square] = Some (fresh, st')
         /\ holds st' fresh (CleanList Sample.square)
         /\ (forall l b, holds [Sample.square] l b -> l <> fresh /\ holds st' l b)).
Proof.
  apply (working_set_in_place [Sample.square] 0%nat Sample.square (5, 5)). reflexivity.
Defined.

Section Returned_array.

Variable atan2 : float -> float -> float.
Variable sort : forall A : Type, (A -> A -> float) -> list A -> list A.

Lemma keeps_attempt_own n pointsList k :
  keeps n (attempt_of_ref atan2 sort pointsList k)
        (fun a => forall l, a = ReturnRef (HullRef l) -> (n <= l)%nat).
Proof.
  unfold attempt_of_ref.
  keeps_then (fun _ : list point => True) as pl; [apply keeps_read|].
  destruct (_ >=? _)%Z; [apply keeps_ret; discriminate|].
  keeps_then (fun l => (n <= l)%nat) as dataset0; [apply keeps_CleanList|].
  keeps_then (fun _ : list point => True) as d0; [apply keeps_read|].
  destruct (_ <? 3)%Z; [apply keeps_ret; discriminate|].
  destruct (_ =? 3)%Z; [apply keeps_ret; intros l E; inversion E; subst; assumption|].
  destruct (JS.index _ _) as [firstPoint|]; [|apply keeps_ret; discriminate].
  keeps_then (fun l => (n <= l)%nat) as hull0; [apply keeps_alloc|].
  keeps_next (fun _ : unit => True); [apply keeps_push; assumption|].
  keeps_then (fun r : option loc => forall l, r = Some l -> (n <= l)%nat) as removed;
    [apply keeps_RemovePoint; assumption|].
  destruct removed as [dataset1|]; [|apply keeps_ret; discriminate].
  keeps_then (fun _ : list point => True) as d1; [apply keeps_read|].
  keeps_then (fun r => forall h d, r = Some (FinishedRef h d) -> (n <= h)%nat /\ (n <= d)%nat)
    as res.
  { apply keeps_main_loop. split; simpl; auto. }
  destruct res as [[hull1 dataset2| |]|]; try (apply keeps_ret; discriminate).
  keeps_then (fun _ : list point => True) as h; [apply keeps_read|].
  keeps_then (fun _ : list point => True) as d; [apply keeps_read|].
  destruct (all_inside d h); apply keeps_ret; [|discriminate].
  intros l E. inversion E; subst.
  match goal with
  | Hres : forall h d, Some (FinishedRef _ _) = Some (FinishedRef h d) -> _ |- _ =>
      exact (proj1 (Hres _ _ eq_refl))
  end.
Qed.

Lemma keeps_calculate_own n pointsList : forall fuel k,
  keeps n (calculate_ref atan2 sort fuel pointsList k)
        (fun r => forall l, r = Some (HullRef l) -> (n <= l)%nat).
Proof.
  induction fuel as [|fuel IH]; intros k; simpl.
  - apply keeps_ret. discriminate.
  - keeps_then (fun a => forall l, a = ReturnRef (HullRef l) -> (n <= l)%nat) as a;
      [apply keeps_attempt_own|].
    destruct a as [r|k'|]; [|apply IH | apply keeps_ret; discriminate].
    apply keeps_ret. intros l E. inversion E; subst. auto.
Qed.

(** X28: the array [calculate] returns is one it created: none of the
    arrays that existed before the call, the caller's list among them, is
    handed back, also when the cleaned list itself is returned for three
    distinct points. *)
Theorem calculate_returns_new_array (pointsList : loc) (fuel : nat) (k : Z)
  (st st' : store) (hull : loc) :
  calculate_ref atan2 sort fuel pointsList k st = Some (Some (HullRef hull), st') ->
  (List.length st <= hull)%nat
  /\ forall l a, holds st l a -> l <> hull.
Proof.
  intros E.
  destruct (keeps_calculate_own (List.length st) pointsList fuel k st _ st'
              (Nat.le_refl _) E) as [_ [_ Hown]].
  pose proof (Hown hull eq_refl) as Hle.
  split; [exact Hle|]. intros l a Hl. apply holds_lt in Hl. lia.
Qed.

End Returned_array.

Lemma calculate_returns_new_array_triangle_dup :
  (List.length [Sample.triangle_dup] <= 1)%nat
  /\ forall l a, holds [Sample.triangle_dup] l a -> l <> 1%nat.
Proof.
  refine (calculate_returns_new_array Engine.atan2 Engine.sort 0%nat 1 3
            [Sample.triangle_dup] _ 1%nat _).
  vm_compute. reflexivity.
Defined.

(** ** Open or closed *)

Section OpenClosed.

Variable atan2 : float -> float -> float.
Variable sort : forall A : Type, (A -> A -> float) -> list A -> list A.
Hypothesis sort_perm : forall A cmp l, Permutation (sort A cmp l) l.

Variable D0 : list point.
Variable seed : point.
Variables kk stop : Z.
Hypothesis D0_keys : NoDup (keys D0).
Hypothesis seed_In : In seed D0.
Hypothesis seed_refl : pointEquals seed seed = true.
Hypothesis stop_ge : (2 <= stop)%Z.

(** The first point is only put back when a round starts with
    [step == stop], so when the working set is not yet empty by then. *)
Definition put_back (s : state) : Prop :=
  (exists mid, closing D0 seed stop s mid \/ closed D0 seed s mid) ->
  (stop <= JS.length D0)%Z.

Lemma growing_seed_apart s mid :
  growing D0 seed stop s mid -> ~ In seed mid /\ ~ In seed (dataset s).
Proof.
  intros [_ [_ [_ [_ Hperm]]]].
  pose proof (D0_NoDup D0 D0_keys) as Hnd. rewrite <- Hperm in Hnd.
  inversion Hnd as [|? ? Hnotin _]; subst.
  split; intros H; apply Hnotin; apply in_or_app; [left | right]; exact H.
Qed.

Lemma put_back_round s s' :
  shape D0 seed stop s /\ put_back s ->
  loop_test seed s = true ->
  loop_round atan2 sort seed kk stop s = inl s' ->
  shape D0 seed stop s' /\ put_back s'.
Proof.
  intros [Hshape Hput] Htest Hround.
  split; [apply (shape_round atan2 sort sort_perm D0 seed kk stop D0_keys seed_In
                   seed_refl stop_ge s s' Hshape Htest Hround)|].
  intros [mid' Hc'].
  destruct Hshape as [mid [Hg | Hc]]; [|apply Hput; exists mid; exact Hc].
  destruct (growing_seed_apart s mid Hg) as [_ Hapart].
  destruct (round_removes atan2 sort sort_perm D0 seed kk stop D0_keys seed_In
              s s' mid (or_introl Hg) Hround) as [c [_ [Hhull [_ [Hstep HP]]]]].
  destruct Hg as [Hh [_ [Hst [Hle Hperm]]]].
  assert (Hds : (0 < JS.length (dataset s))%Z).
  { unfold loop_test in Htest. apply andb_true_iff in Htest.
    apply Z.ltb_lt. exact (proj2 Htest). }
  assert (Hn : (step s <= JS.length D0)%Z).
  { apply Permutation_length in Hperm. unfold JS.length in *.
    simpl in Hperm. rewrite length_app in Hperm. lia. }
  assert (Estop : step s = stop).
  { destruct Hc' as [[_ [_ [_ [Hlt _]]]] | [Hh' _]]; [lia|].
    destruct (Z.eqb_spec (step s) stop) as [E | N]; [exact E | exfalso].
    rewrite Hhull, Hh in Hh'. inversion Hh' as [Hmid].
    apply app_inj_tail in Hmid. destruct Hmid as [_ Ec]. subst c.
    apply Hapart.
    assert (Hin : In seed (round_dataset seed stop s))
      by (apply (Permutation_in _ (Permutation_sym HP)); left; reflexivity).
    unfold round_dataset in Hin. rewrite (proj2 (Z.eqb_neq _ _) N) in Hin. exact Hin. }
  lia.
Qed.

Lemma put_back_initial d1 :
  RemovePoint D0 seed = Some d1 ->
  shape D0 seed stop (initial_state seed d1) /\ put_back (initial_state seed d1).
Proof.
  intros Hrem. split; [apply shape_initial; assumption|].
  intros [mid [[_ [_ [_ [Hlt _]]]] | [_ [_ [Hst _]]]]]; simpl in *; [lia | contradiction].
Qed.

(** How the loop ends, by [stop]: with [stop] at most the number of
    distinct points the hull is closed; with [stop] above it the hull is
    open and lists every point of the cleaned list once. *)
Lemma main_loop_open_or_closed fuel d1 h ds :
  RemovePoint D0 seed = Some d1 ->
  main_loop atan2 sort fuel seed kk stop (initial_state seed d1) = Some (Finished h ds) ->
  ((stop <= JS.length D0)%Z -> exists mid, h = seed :: mid ++ [seed])
  /\ ((JS.length D0 < stop)%Z -> Permutation h D0).
Proof.
  intros Hrem Hloop.
  destruct (main_loop_invariant atan2 sort
              (fun s => shape D0 seed stop s /\ put_back s) seed kk stop
              put_back_round fuel _ h ds (put_back_initial d1 Hrem) Hloop)
    as [s' [[Hshape Hput] [Htest [Hh Hd]]]].
  pose proof (D0_NoDup D0 D0_keys) as Hnd.
  destruct (shape_exit D0 seed stop D0_keys seed_In s' Hshape Htest)
    as [[mid [Eh [Ed Hperm]]] | [mid [Eh Hperm]]].
  - (* the working set ran out *)
    split; [|intros _; rewrite <- Hh, Eh; exact Hperm].
    intros Hstop. exfalso.
    assert (Hnot : ~ In seed mid).
    { rewrite <- Hperm in Hnd. inversion Hnd; assumption. }
    destruct Hshape as [mid0 [Hg | [Hc | Hcl]]].
    + destruct Hg as [Hh0 [_ [Hst [Hle _]]]].
      rewrite Eh in Hh0. inversion Hh0; subst mid0.
      apply Permutation_length in Hperm. unfold JS.length in Hstop. simpl in Hperm. lia.
    + destruct Hc as [_ [_ [_ [_ [Hin _]]]]]. rewrite Ed in Hin. contradiction.
    + destruct Hcl as [Hh0 _]. rewrite Eh in Hh0. inversion Hh0 as [Hmid].
      apply Hnot. rewrite Hmid. apply in_or_app. right. left. reflexivity.
  - (* the first point was chosen again *)
    split; [intros _; exists mid; rewrite <- Hh; exact Eh|].
    intros Hstop. exfalso.
    destruct Hshape as [mid0 [Hg | [Hc | Hcl]]].
    + destruct (growing_seed_apart s' mid0 Hg) as [Hnot _].
      destruct Hg as [Hh0 _]. rewrite Eh in Hh0. inversion Hh0 as [Hmid].
      apply Hnot. rewrite <- Hmid. apply in_or_app. right. left. reflexivity.
    + destruct Hc as [Hh0 [_ [_ [_ [Hin Hperm0]]]]].
      rewrite Eh in Hh0. inversion Hh0 as [Hmid].
      rewrite <- Hperm0 in Hnd.
      destruct (in_split _ _ Hin) as [l1 [l2 Ed]].
      rewrite Ed, app_assoc in Hnd. apply NoDup_remove_2 in Hnd. apply Hnd.
      apply in_or_app. left. apply in_or_app. left.
      rewrite <- Hmid. apply in_or_app. right. left. reflexivity.
    + assert (stop <= JS.length D0)%Z by (apply Hput; exists mid0; right; exact Hcl). lia.
Qed.

End OpenClosed.

Section Closure.

Variable atan2 : float -> float -> float.
Variable sort : forall A : Type, (A -> A -> float) -> list A -> list A.
Hypothesis sort_perm : forall A cmp l, Permutation (sort A cmp l) l.

Lemma build_hull_open_or_closed (pts : list point) (kk : Z) (h : list point) :
  (3 <= kk)%Z ->
  build_hull atan2 sort (CleanList pts) kk = Return (Hull h) ->
  ((kk <= JS.length (CleanList pts) - 2)%Z -> exists seed mid, h = seed :: mid ++ [seed])
  /\ ((JS.length (CleanList pts) - 1 <= kk)%Z -> Permutation h (CleanList pts)).
Proof.
  intros Hkk Hbuild.
  destruct (build_hull_Hull atan2 sort _ _ _ Hbuild)
    as [seed [d1 [fuel' [ds [Hidx [Hrem [Hloop _]]]]]]].
  pose proof (index_In _ _ _ Hidx) as Hseed.
  assert (Hrefl : pointEquals seed seed = true).
  { destruct (RemovePoint_Some _ _ _ Hrem) as [l1 [q [l2 [Hd [_ Hq]]]]].
    assert (Hq' : In q (CleanList pts)) by (rewrite Hd; apply in_elt).
    rewrite <- (NoDup_keys_pointEquals _ q seed (CleanList_NoDup pts) Hq' Hseed Hq) at 1.
    exact Hq. }
  destruct (main_loop_open_or_closed atan2 sort sort_perm (CleanList pts) seed kk (2 + kk)
              (CleanList_NoDup pts) Hseed Hrefl ltac:(lia) fuel' d1 h ds Hrem Hloop)
    as [Hclosed Hopen].
  split.
  - intros H. destruct (Hclosed ltac:(lia)) as [mid E]. exists seed, mid. exact E.
  - intros H. apply Hopen. lia.
Qed.

(** X29: what decides whether a hull is closed.  When the activation that
    returns the hull was called with [max(k, 3)] at most the number of
    distinct points minus two, the hull ends on its first point; with a
    greater [k] the working set is used up before the first point is put
    back, and the hull lists every point of the cleaned list once, without
    a closing repeat. *)
Theorem attempt_hull_closed_by_k (pts : list point) (k : Z) (h : list point) :
  (4 <= JS.length (CleanList pts))%Z ->
  attempt_of atan2 sort pts k = Return (Hull h) ->
  ((Z.max k 3 <= JS.length (CleanList pts) - 2)%Z ->
   exists seed mid, h = seed :: mid ++ [seed])
  /\ ((JS.length (CleanList pts) - 1 <= Z.max k 3)%Z -> Permutation h (CleanList pts)).
Proof.
  intros Hn E.
  destruct (Z.geb_spec (Z.max k 3) (JS.length pts)) as [Hge | Hlt];
    [rewrite attempt_of_guard in E by lia; discriminate|].
  rewrite attempt_of_hull in E by assumption.
  destruct (build_hull_open_or_closed pts (Z.min (Z.max k 3) (JS.length (CleanList pts) - 1))
                h ltac:(lia) E) as [Hclosed Hopen].
  split; intros H; [apply Hclosed | apply Hopen]; lia.
Qed.

(** X30: a call with [max(k, 3)] at least the number of distinct points
    minus one never returns a closed polygon: every activation then works
    with all the other points as neighbours, and a hull it returns is a
    list of all the distinct points.  With exactly four distinct points
    this is every call. *)
Theorem calculate_open_for_large_k (pts : list point) (h : list point) :
  forall (fuel : nat) (k : Z),
    (4 <= JS.length (CleanList pts))%Z ->
    (JS.length (CleanList pts) - 1 <= Z.max k 3)%Z ->
    calculate atan2 sort fuel pts k = Some (Hull h) ->
    Permutation h (CleanList pts) /\ JS.length h = JS.length (CleanList pts).
Proof.
  induction fuel as [|fuel IH]; intros k Hn Hk; [discriminate|].
  rewrite calculate_S.
  destruct (attempt_of atan2 sort pts k) as [r|k'|] eqn:E; [| |discriminate].
  - intros Hr. inversion Hr; subst r. clear Hr.
    destruct (Z.geb_spec (Z.max k 3) (JS.length pts)) as [Hge | Hlt];
      [rewrite attempt_of_guard in E by lia; discriminate|].
    rewrite attempt_of_hull in E by assumption.
    destruct (build_hull_open_or_closed pts (Z.min (Z.max k 3) (JS.length (CleanList pts) - 1))
                h ltac:(lia) E) as [_ Hopen].
    assert (P : Permutation h (CleanList pts)) by (apply Hopen; lia).
    split; [exact P|]. unfold JS.length. rewrite (Permutation_length P). reflexivity.
  - apply attempt_of_Escalate in E. apply IH; [exact Hn | lia].
Qed.

End Closure.

Lemma attempt_hull_closed_by_k_examples :
  (exists seed mid, [(0, 10); (10, 10); (10, 0); (0, 0); (0, 10)] = seed :: mid ++ [seed])
  /\ Permutation [(0, 10); (10, 10); (10, 0); (0, 0)] (CleanList Sample.square).
Proof.
  split.
  - refine (proj1 (attempt_hull_closed_by_k Engine.atan2 Engine.sort Engine_sort_perm
                     Sample.square_centre 3 _ _ _) _).
    + vm_compute. discriminate.
    + vm_compute. reflexivity.
    + vm_compute. discriminate.
  - refine (proj2 (attempt_hull_closed_by_k Engine.atan2 Engine.sort Engine_sort_perm
                     Sample.square_dup 3 _ _ _) _).
    + vm_compute. discriminate.
    + vm_compute. reflexivity.
    + vm_compute. discriminate.
Defined.

Lemma calculate_open_for_large_k_square :
  Permutation [(0, 10); (10, 10); (10, 0); (0, 0)] (CleanList Sample.square_dup)
  /\ JS.length [(0, 10); (10, 10); (10, 0); (0, 0)] = JS.length (CleanList Sample.square_dup).
Proof.
  refine (calculate_open_for_large_k Engine.atan2 Engine.sort Engine_sort_perm
            Sample.square_dup _ 1 3 _ _ _).
  - vm_compute. discriminate.
  - vm_compute. discriminate.
  - vm_compute. reflexivity.
Defined.
